(** * Flash-write command handlers of the flasher stub

    A shallow embedding of [flasher_stub/stub_write_flash.c] and the
    properties of its flash session state machine: begin / data /
    deflated data / end, the erase scheduler and the sticky error field.

    Conventions.
    - [uint32_t] and [int] values are integers in [Z]; every C operation
      that can leave the range of its type is followed by [to_uint32] or
      [to_int], the wrap-around of a 32-bit target.
    - The static struct [fs] and the two function-level statics of
      [handle_flash_deflated_data] ([out_buf], [next_out]) form the record
      [flash_state]; it is passed explicitly.
    - The SPI flash is seen through the trace of the commands the stub has
      issued so far (newest first).  What the hardware answers (status
      register, result of [SPIWrite], result of [SPIUnlock]) is a function
      of that trace, supplied by the platform.
    - Everything that comes from headers which are not part of the
      translated file ([soc_support.h], [stub_flasher.h], [rom_functions.h],
      [miniz.h]) is a field of the class [Platform]. *)

From Stdlib Require Import ZArith List Bool Lia FinFun.
From Stdlib.Strings Require Import Byte.
Import ListNotations.
Local Open Scope Z_scope.

(** ** Machine integers *)

Definition to_uint32 (x : Z) : Z := x mod 2 ^ 32.

Definition to_int (x : Z) : Z := (x + 2 ^ 31) mod 2 ^ 32 - 2 ^ 31.

Definition uint32 (x : Z) : Prop := 0 <= x < 2 ^ 32.

Definition INT_MAX : Z := 2 ^ 31 - 1.

(** ** Error codes ([esp_command_error], the members this file uses) *)

Inductive esp_command_error : Set :=
| ESP_OK
| ESP_FAILED_SPI_UNLOCK
| ESP_FAILED_SPI_OP
| ESP_INFLATE_ERROR
| ESP_NOT_ENOUGH_DATA
| ESP_TOO_MUCH_DATA
| ESP_NOT_IN_FLASH_MODE.

Definition esp_command_error_eqb (a b : esp_command_error) : bool :=
  match a, b with
  | ESP_OK, ESP_OK
  | ESP_FAILED_SPI_UNLOCK, ESP_FAILED_SPI_UNLOCK
  | ESP_FAILED_SPI_OP, ESP_FAILED_SPI_OP
  | ESP_INFLATE_ERROR, ESP_INFLATE_ERROR
  | ESP_NOT_ENOUGH_DATA, ESP_NOT_ENOUGH_DATA
  | ESP_TOO_MUCH_DATA, ESP_TOO_MUCH_DATA
  | ESP_NOT_IN_FLASH_MODE, ESP_NOT_IN_FLASH_MODE => true
  | _, _ => false
  end.

(** ** The SPI flash as a command trace *)

(** The two erase commands written to [SPI_CMD_REG]. *)
Inductive spi_command : Set :=
| SPI_FLASH_SE   (* sector erase *)
| SPI_FLASH_BE.  (* block erase *)

(** One entry per hardware interaction of the stub.  [EvErase] records the
    command and the value written to [SPI_ADDR_REG]; its last two
    components are ghost data: the scheduler's sector index and the
    number of sectors of the unit. *)
Inductive spi_event : Type :=
| EvUnlock
| EvReadStatus
| EvErase (command : spi_command) (addr : Z) (sector : Z) (nsectors : Z)
| EvWrite (addr : Z) (data_buf : list byte) (length : Z).

Definition spi_trace := list spi_event.

(** What one call of [tinfl_decompress] hands back: its return value, the
    updated [*pIn_buf_size] and [*pOut_buf_size], the contents of the output
    buffer after the call and the decompressor state. *)
Record tinfl_result (D : Type) : Type := mkTinflResult {
  tr_status : Z;
  tr_in_bytes : Z;
  tr_out_bytes : Z;
  tr_out_buf : list byte;
  tr_inflator : D
}.
Arguments mkTinflResult {D}.
Arguments tr_status {D}.
Arguments tr_in_bytes {D}.
Arguments tr_out_bytes {D}.
Arguments tr_out_buf {D}.
Arguments tr_inflator {D}.

(** ** The platform: constants, ROM functions and the inflator *)

Class Platform : Type := {
  (* stub_flasher.h / soc_support.h *)
  FLASH_SECTOR_SIZE : Z;
  SECTORS_PER_BLOCK : Z;
  (* rom_functions.h and the SPI registers *)
  SPIUnlock : spi_trace -> Z;
  SPI_RD_STATUS : spi_trace -> Z;
  SPIWrite : spi_trace -> Z -> list byte -> Z -> Z;
  (* miniz.h *)
  tinfl_decompressor : Type;
  tinfl_init : tinfl_decompressor -> tinfl_decompressor;
  tinfl_decompress :
    tinfl_decompressor ->
    list byte (* pIn_buf_next *) -> Z (* *pIn_buf_size *) ->
    list byte (* pOut_buf_start *) -> Z (* pOut_buf_next - pOut_buf_start *) ->
    Z (* *pOut_buf_size *) -> Z (* decomp_flags *) ->
    tinfl_result tinfl_decompressor;
  TINFL_STATUS_DONE : Z;
  TINFL_STATUS_NEEDS_MORE_INPUT : Z;
  TINFL_FLAG_PARSE_ZLIB_HEADER : Z;
  TINFL_FLAG_HAS_MORE_INPUT : Z
}.

(** The two geometry constants are positive [int] constants, and a sector
    is large enough for the sector count of a 32-bit address range, twice
    over, to fit an [int]. *)
Class PlatformOk (P : Platform) : Prop := {
  sector_size_range : 4 <= FLASH_SECTOR_SIZE < 2 ^ 31;
  sectors_per_block_range : 1 <= SECTORS_PER_BLOCK < 2 ^ 31
}.

Definition STATUS_WIP_BIT : Z := 1.

(** [sizeof(out_buf)] *)
Definition OUT_BUF_SIZE : Z := 32768.

Section Stub.

Context {P : Platform}.

(** ** Flashing state *)

Record flash_state : Type := mkFlashState {
  (* set by flash_begin, cleared by flash_end *)
  in_flash_mode : bool;
  (* offset of next SPI write *)
  next_write : Z;
  (* sector number for next erase *)
  next_erase_sector : Z;
  (* number of output bytes remaining to write *)
  remaining : Z;
  (* number of sectors remaining to erase *)
  remaining_erase_sector : Z;
  (* last error generated by a data packet *)
  last_error : esp_command_error;
  (* inflator state for deflate write *)
  inflator : tinfl_decompressor;
  (* number of compressed bytes remaining to read *)
  remaining_compressed : Z;
  (* statics of handle_flash_deflated_data *)
  out_buf : list byte;
  next_out : Z
}.

Definition set_in_flash_mode (fs : flash_state) (b : bool) : flash_state :=
  mkFlashState b (next_write fs) (next_erase_sector fs) (remaining fs)
    (remaining_erase_sector fs) (last_error fs) (inflator fs)
    (remaining_compressed fs) (out_buf fs) (next_out fs).

Definition set_last_error (fs : flash_state) (e : esp_command_error)
  : flash_state :=
  mkFlashState (in_flash_mode fs) (next_write fs) (next_erase_sector fs)
    (remaining fs) (remaining_erase_sector fs) e (inflator fs)
    (remaining_compressed fs) (out_buf fs) (next_out fs).

Definition set_erase (fs : flash_state) (next rem : Z) : flash_state :=
  mkFlashState (in_flash_mode fs) (next_write fs) next (remaining fs)
    rem (last_error fs) (inflator fs)
    (remaining_compressed fs) (out_buf fs) (next_out fs).

Definition set_write (fs : flash_state) (next rem : Z) : flash_state :=
  mkFlashState (in_flash_mode fs) next (next_erase_sector fs) rem
    (remaining_erase_sector fs) (last_error fs) (inflator fs)
    (remaining_compressed fs) (out_buf fs) (next_out fs).

Definition set_inflate (fs : flash_state) (d : tinfl_decompressor)
    (rem_compressed : Z) (buf : list byte) (out : Z) : flash_state :=
  mkFlashState (in_flash_mode fs) (next_write fs) (next_erase_sector fs)
    (remaining fs) (remaining_erase_sector fs) (last_error fs) d
    rem_compressed buf out.

Definition set_next_out (fs : flash_state) (out : Z) : flash_state :=
  set_inflate fs (inflator fs) (remaining_compressed fs) (out_buf fs) out.

(** ** Queries *)

Definition is_in_flash_mode (fs : flash_state) : bool := in_flash_mode fs.

Definition get_flash_error (fs : flash_state) : esp_command_error :=
  last_error fs.

(** ** Begin *)

Definition handle_flash_begin (fs : flash_state) (w : spi_trace)
    (total_size offset : Z) : esp_command_error * flash_state * spi_trace :=
  let fs' :=
    mkFlashState true offset
      (to_int (offset / FLASH_SECTOR_SIZE))
      total_size
      (to_int (to_uint32 (total_size + FLASH_SECTOR_SIZE - 1)
               / FLASH_SECTOR_SIZE))
      ESP_OK (inflator fs) (remaining_compressed fs)
      (out_buf fs) (next_out fs) in
  if negb (SPIUnlock w =? 0)
  then (ESP_FAILED_SPI_UNLOCK, fs', EvUnlock :: w)
  else (ESP_OK, fs', EvUnlock :: w).

Definition handle_flash_deflated_begin (fs : flash_state) (w : spi_trace)
    (uncompressed_size compressed_size offset : Z)
  : esp_command_error * flash_state * spi_trace :=
  let '(err, fs1, w1) := handle_flash_begin fs w uncompressed_size offset in
  let fs2 :=
    set_inflate fs1 (tinfl_init (inflator fs1)) (remaining_compressed fs1)
      (out_buf fs1) (next_out fs1) in
  let fs3 :=
    set_inflate fs2 (inflator fs2) compressed_size (out_buf fs2)
      (next_out fs2) in
  (err, fs3, w1).

(** ** Erase scheduler *)

(** The two waits on the SPI host state machine are bounded by the
    hardware and leave no trace; the status read does. *)
Definition spiflash_is_ready (w : spi_trace) : bool * spi_trace :=
  let status_value := SPI_RD_STATUS w in
  (Z.land status_value STATUS_WIP_BIT =? 0, EvReadStatus :: w).

Definition start_next_erase (fs : flash_state) (w : spi_trace)
  : flash_state * spi_trace :=
  if remaining_erase_sector fs =? 0 then (fs, w)
  else
    let '(ready, w1) := spiflash_is_ready w in
    if negb ready then (fs, w1)
    else
      let '(command, sectors_to_erase) :=
        if (SECTORS_PER_BLOCK <=? remaining_erase_sector fs)
           && (Z.rem (next_erase_sector fs) SECTORS_PER_BLOCK =? 0)
        then (SPI_FLASH_BE, SECTORS_PER_BLOCK)
        else (SPI_FLASH_SE, 1) in
      let addr := to_uint32 (next_erase_sector fs * FLASH_SECTOR_SIZE) in
      let w2 :=
        EvErase command (Z.land addr 16777215 (* 0xffffff *))
          (next_erase_sector fs) sectors_to_erase :: w1 in
      (set_erase fs
         (to_int (next_erase_sector fs + sectors_to_erase))
         (to_int (remaining_erase_sector fs - sectors_to_erase)),
       w2).

(** ** Raw data *)

(** The loop [while (fs.next_erase_sector < last_sector) start_next_erase();]
    [None] when the fuel runs out before the loop condition fails. *)
Fixpoint erase_until (fuel : nat) (last_sector : Z) (fs : flash_state)
    (w : spi_trace) : option (flash_state * spi_trace) :=
  if next_erase_sector fs <? last_sector then
    match fuel with
    | O => None
    | S fuel' =>
        let '(fs1, w1) := start_next_erase fs w in
        erase_until fuel' last_sector fs1 w1
    end
  else Some (fs, w).

Definition handle_flash_data (fuel : nat) (fs : flash_state) (w : spi_trace)
    (data_buf : list byte) (length : Z) : option (flash_state * spi_trace) :=
  let last_sector :=
    to_int (to_uint32 (next_write fs + length + FLASH_SECTOR_SIZE - 1)
            / FLASH_SECTOR_SIZE) in
  match erase_until fuel last_sector fs w with
  | None => None
  | Some (fs1, w1) =>
      let w2 := EvWrite (next_write fs1) data_buf length :: w1 in
      let fs2 :=
        if negb (SPIWrite w1 (next_write fs1) data_buf length =? 0)
        then set_last_error fs1 ESP_FAILED_SPI_OP
        else fs1 in
      Some (set_write fs2
              (to_uint32 (next_write fs2 + length))
              (to_uint32 (remaining fs2 - length)),
            w2)
  end.

(** ** Deflated data *)

(** The [while] loop of [handle_flash_deflated_data]; the result carries
    the final value of the local [status]. *)
Fixpoint deflate_loop (fuel : nat) (fs : flash_state) (w : spi_trace)
    (data_buf : list byte) (length : Z) (status : Z)
  : option (flash_state * spi_trace * Z) :=
  if (0 <? length) && (0 <? remaining fs) && (TINFL_STATUS_DONE <? status)
  then
    match fuel with
    | O => None
    | S fuel' =>
        let in_bytes := length in
        let out_bytes := OUT_BUF_SIZE - next_out fs in
        let flags :=
          if length <? remaining_compressed fs
          then Z.lor TINFL_FLAG_PARSE_ZLIB_HEADER TINFL_FLAG_HAS_MORE_INPUT
          else TINFL_FLAG_PARSE_ZLIB_HEADER in
        let '(fs1, w1) := start_next_erase fs w in
        let r :=
          tinfl_decompress (inflator fs1) data_buf in_bytes
            (out_buf fs1) (next_out fs1) out_bytes flags in
        let status := tr_status r in
        let in_bytes := tr_in_bytes r in
        let out_bytes := tr_out_bytes r in
        let fs2 :=
          set_inflate fs1 (tr_inflator r)
            (to_uint32 (remaining_compressed fs1 - in_bytes))
            (tr_out_buf r) (next_out fs1 + out_bytes) in
        let length := to_uint32 (length - in_bytes) in
        let data_buf := skipn (Z.to_nat in_bytes) data_buf in
        let bytes_in_out_buf := next_out fs2 in
        if (status <=? TINFL_STATUS_DONE)
           || (bytes_in_out_buf =? OUT_BUF_SIZE)
        then
          match handle_flash_data fuel' fs2 w1 (out_buf fs2)
                  bytes_in_out_buf with
          | None => None
          | Some (fs3, w3) =>
              deflate_loop fuel' (set_next_out fs3 0) w3 data_buf length
                status
          end
        else deflate_loop fuel' fs2 w1 data_buf length status
    end
  else Some (fs, w, status).

Definition handle_flash_deflated_data (fuel : nat) (fs : flash_state)
    (w : spi_trace) (data_buf : list byte) (length : Z)
  : option (flash_state * spi_trace) :=
  match deflate_loop fuel fs w data_buf length
          TINFL_STATUS_NEEDS_MORE_INPUT with
  | None => None
  | Some (fs1, w1, status) =>
      let fs2 :=
        if status <? TINFL_STATUS_DONE
        then set_last_error fs1 ESP_INFLATE_ERROR
        else fs1 in
      let fs3 :=
        if (status =? TINFL_STATUS_DONE) && (0 <? remaining fs2)
        then set_last_error fs2 ESP_NOT_ENOUGH_DATA
        else fs2 in
      let fs4 :=
        if negb (status =? TINFL_STATUS_DONE) && (remaining fs3 =? 0)
        then set_last_error fs3 ESP_TOO_MUCH_DATA
        else fs3 in
      Some (fs4, w1)
  end.

(** ** End *)

Definition handle_flash_end (fs : flash_state)
  : esp_command_error * flash_state :=
  if negb (in_flash_mode fs) then (ESP_NOT_IN_FLASH_MODE, fs)
  else if 0 <? remaining fs then (ESP_NOT_ENOUGH_DATA, fs)
  else (last_error fs, set_in_flash_mode fs false).

(** ** Sequences of calls *)

(** Anything the dispatcher can do to a session that is under way: the
    scheduler may run, a data packet of either kind may be handled (and
    return), the session may be ended.  The two queries do not touch the
    state and are the reflexive case of [session_steps]. *)
Inductive session_step
  : flash_state * spi_trace -> flash_state * spi_trace -> Prop :=
| step_erase fs w :
    session_step (fs, w) (start_next_erase fs w)
| step_data fuel fs w data_buf length r :
    handle_flash_data fuel fs w data_buf length = Some r ->
    session_step (fs, w) r
| step_deflated_data fuel fs w data_buf length r :
    handle_flash_deflated_data fuel fs w data_buf length = Some r ->
    session_step (fs, w) r
| step_end fs w :
    session_step (fs, w) (snd (handle_flash_end fs), w).

Inductive session_steps
  : flash_state * spi_trace -> flash_state * spi_trace -> Prop :=
| steps_refl c : session_steps c c
| steps_cons c1 c2 c3 :
    session_step c1 c2 -> session_steps c2 c3 -> session_steps c1 c3.

(** A run of raw data packets, each given as buffer and length. *)
Fixpoint handle_flash_data_seq (fuel : nat) (fs : flash_state)
    (w : spi_trace) (chunks : list (list byte * Z))
  : option (flash_state * spi_trace) :=
  match chunks with
  | [] => Some (fs, w)
  | (data_buf, length) :: rest =>
      match handle_flash_data fuel fs w data_buf length with
      | None => None
      | Some (fs1, w1) => handle_flash_data_seq fuel fs1 w1 rest
      end
  end.

Definition total_length (chunks : list (list byte * Z)) : Z :=
  fold_right (fun c acc => snd c + acc) 0 chunks.

(** The erase counters of a session: non-negative, and the sectors still
    to erase end within the range of [int]. *)
Definition erase_counters_ok (fs : flash_state) : Prop :=
  0 <= next_erase_sector fs /\
  0 <= remaining_erase_sector fs /\
  next_erase_sector fs + remaining_erase_sector fs <= INT_MAX.

(** After any run of unsuccessful status reads the flash reports ready. *)
Definition eventually_ready : Prop :=
  forall w : spi_trace,
    exists n : nat,
      fst (spiflash_is_ready (repeat EvReadStatus n ++ w)) = true.

End Stub.

(** ** Reading a trace *)

Definition ceil_div (a b : Z) : Z := (a + b - 1) / b.

Definition sector_range (first n : Z) : list Z :=
  map (fun i => first + Z.of_nat i) (seq 0 (Z.to_nat n)).

(** Sector indices of the erase units issued in a trace, newest unit
    first. *)
Fixpoint erased_sectors (w : spi_trace) : list Z :=
  match w with
  | [] => []
  | EvErase _ _ sector nsectors :: w' =>
      sector_range sector nsectors ++ erased_sectors w'
  | _ :: w' => erased_sectors w'
  end.

(** Address and bytes of every [SPIWrite] of a trace, oldest first. *)
Fixpoint flash_writes (w : spi_trace) : list (Z * list byte) :=
  match w with
  | [] => []
  | EvWrite addr data_buf length :: w' =>
      flash_writes w' ++ [(addr, firstn (Z.to_nat length) data_buf)]
  | _ :: w' => flash_writes w'
  end.

(** The erase bookkeeping of a session whose begin left the trace [w0],
    with first sector [first] and the erase counters summing to [limit]:
    the sectors erased since are pairwise distinct and lie between [first]
    and the erase cursor, which has [limit - cursor] sectors to go. *)
Definition erase_inv {P : Platform} (first limit : Z) (w0 : spi_trace)
    (c : flash_state * spi_trace) : Prop :=
  exists evs : spi_trace,
    snd c = evs ++ w0 /\
    NoDup (erased_sectors evs) /\
    Forall (fun s => first <= s < next_erase_sector (fst c))
      (erased_sectors evs) /\
    0 <= first <= next_erase_sector (fst c) /\
    0 <= remaining_erase_sector (fst c) /\
    next_erase_sector (fst c) + remaining_erase_sector (fst c) = limit /\
    limit <= INT_MAX.


(** ** The flash as it sees the erase commands *)

(** Sectors covered by one erase command. *)
Definition sectors_of_command {P : Platform} (command : spi_command) : Z :=
  match command with
  | SPI_FLASH_SE => 1
  | SPI_FLASH_BE => SECTORS_PER_BLOCK
  end.

(** Flash sectors erased by the commands of a trace, newest command
    first, read from the command and the address written to
    [SPI_ADDR_REG] alone. *)
Fixpoint flash_sectors_erased {P : Platform} (w : spi_trace) : list Z :=
  match w with
  | [] => []
  | EvErase command addr _ _ :: w' =>
      sector_range (addr / FLASH_SECTOR_SIZE) (sectors_of_command command)
      ++ flash_sectors_erased w'
  | _ :: w' => flash_sectors_erased w'
  end.

(** How the scheduler fills in an erase event: the address register holds
    the low 24 bits of the byte address of the scheduler's sector, the
    unit has the size of the command, and a block is erased only at a
    sector number that is a multiple of the block size. *)
Definition erase_event_wf {P : Platform} (e : spi_event) : Prop :=
  match e with
  | EvErase command addr sector nsectors =>
      addr = Z.land (to_uint32 (sector * FLASH_SECTOR_SIZE)) 16777215 /\
      nsectors = sectors_of_command command /\
      0 <= sector /\
      (command = SPI_FLASH_BE -> (SECTORS_PER_BLOCK | sector))
  | _ => True
  end.

(** In a trace (newest first), every write whose byte range, rounded up
    to a sector, ends below 2^32 and starts at or after sector [first]
    touches only flash sectors erased by earlier commands of that
    trace. *)
Fixpoint writes_after_flash_erase {P : Platform} (first : Z)
    (evs : spi_trace) : Prop :=
  match evs with
  | [] => True
  | EvWrite addr _ length :: rest =>
      (first <= addr / FLASH_SECTOR_SIZE -> 0 <= length ->
       addr + length + FLASH_SECTOR_SIZE - 1 < 2 ^ 32 ->
       forall s,
         addr / FLASH_SECTOR_SIZE <= s ->
         s * FLASH_SECTOR_SIZE < addr + length ->
         In s (flash_sectors_erased rest))
      /\ writes_after_flash_erase first rest
  | _ :: rest => writes_after_flash_erase first rest
  end.

(** The codes the data handlers record in [last_error] (and [ESP_OK],
    which begin sets): never not-in-flash-mode, never the unlock failure. *)
Definition recorded_error (e : esp_command_error) : Prop :=
  e = ESP_OK \/ e = ESP_FAILED_SPI_OP \/ e = ESP_INFLATE_ERROR \/
  e = ESP_NOT_ENOUGH_DATA \/ e = ESP_TOO_MUCH_DATA.

(** ** More readings of a trace *)

(** Address and length of every [SPIWrite] of a trace, oldest first. *)
Fixpoint write_log (w : spi_trace) : list (Z * Z) :=
  match w with
  | [] => []
  | EvWrite addr _ length :: w' => write_log w' ++ [(addr, length)]
  | _ :: w' => write_log w'
  end.

(** Each write starts where the one before it ended, the first one at
    [start]; addresses are 32-bit. *)
Fixpoint contiguous_from (start : Z) (l : list (Z * Z)) : Prop :=
  match l with
  | [] => True
  | (addr, len) :: l' =>
      addr = start /\ contiguous_from (to_uint32 (start + len)) l'
  end.

Fixpoint chain_end (start : Z) (l : list (Z * Z)) : Z :=
  match l with
  | [] => start
  | (_, len) :: l' => chain_end (to_uint32 (start + len)) l'
  end.

(** The events the erase scheduler produces. *)
Definition is_scheduler_event (e : spi_event) : Prop :=
  match e with
  | EvReadStatus | EvErase _ _ _ _ => True
  | EvUnlock | EvWrite _ _ _ => False
  end.

(** In a trace (newest first), every write whose byte range does not wrap
    and starts at or after sector [first] touches only sectors erased by
    earlier events of that trace. *)
Fixpoint writes_after_erase {P : Platform} (first : Z) (evs : spi_trace)
  : Prop :=
  match evs with
  | [] => True
  | EvWrite addr _ length :: rest =>
      (first <= addr / FLASH_SECTOR_SIZE -> 0 <= length ->
       addr + length + FLASH_SECTOR_SIZE - 1 < 2 ^ 32 ->
       forall s,
         addr / FLASH_SECTOR_SIZE <= s ->
         s * FLASH_SECTOR_SIZE < addr + length ->
         In s (erased_sectors rest))
      /\ writes_after_erase first rest
  | _ :: rest => writes_after_erase first rest
  end.

(** Every sector from [first] up to the erase cursor has been erased by
    the events since [w0], and the writes among them came after the erase
    of their sectors. *)
Definition erase_cover {P : Platform} (first : Z) (w0 : spi_trace)
    (c : flash_state * spi_trace) : Prop :=
  exists evs : spi_trace,
    snd c = evs ++ w0 /\
    erase_counters_ok (fst c) /\
    0 <= first <= next_erase_sector (fst c) /\
    (forall s, first <= s < next_erase_sector (fst c) ->
               In s (erased_sectors evs)) /\
    writes_after_erase first evs.

(** The writes since [w0] form one chain from [start] to [next_write]. *)
Definition write_chain {P : Platform} (start : Z) (w0 : spi_trace)
    (c : flash_state * spi_trace) : Prop :=
  exists evs : spi_trace,
    snd c = evs ++ w0 /\
    contiguous_from start (write_log evs) /\
    chain_end start (write_log evs) = next_write (fst c).

(** What the stub relies on from [tinfl_decompress]: it consumes no more
    input than it is given and produces no more output than there is
    room for. *)
Definition decoder_bounded {P : Platform} : Prop :=
  forall d in_buf in_size obuf out_pos out_size flags,
    0 <= in_size -> 0 <= out_size ->
    0 <= tr_in_bytes
           (tinfl_decompress d in_buf in_size obuf out_pos out_size flags)
      <= in_size /\
    0 <= tr_out_bytes
           (tinfl_decompress d in_buf in_size obuf out_pos out_size flags)
      <= out_size.


(** ** A simulated target

    Geometry of the usual parts (4 KB sectors, 32 KB blocks); a flash that
    is busy for the one status read that follows an erase command; an
    [SPIWrite] that fails at one chosen address; a stored-block inflator
    that copies input to output, reports an error on byte [0xff], and has
    the status and flag values of miniz. *)
Module Sim.

Definition decompress (d : unit) (in_buf : list byte) (in_size : Z)
    (obuf : list byte) (next_out out_size flags : Z) : tinfl_result unit :=
  let input := firstn (Z.to_nat in_size) in_buf in
  if existsb (Byte.eqb xff) input
  then mkTinflResult (-1) 0 0 obuf d
  else
    let n := Z.min (Z.of_nat (length input)) out_size in
    let obuf' :=
      firstn (Z.to_nat next_out) obuf ++ firstn (Z.to_nat n) input
      ++ skipn (Z.to_nat (next_out + n)) obuf in
    let status :=
      if n <? Z.of_nat (length input) then 2
      else if Z.testbit flags 1 then 1 else 0 in
    mkTinflResult status n n obuf' d.

Definition rd_status (w : spi_trace) : Z :=
  match w with
  | EvErase _ _ _ _ :: _ => 1
  | _ => 0
  end.

Definition platform (unlock_result bad_addr : Z) : Platform :=
  {| FLASH_SECTOR_SIZE := 4096;
     SECTORS_PER_BLOCK := 8;
     SPIUnlock := fun _ => unlock_result;
     SPI_RD_STATUS := rd_status;
     SPIWrite := fun _ addr _ _ => if addr =? bad_addr then 1 else 0;
     tinfl_decompressor := unit;
     tinfl_init := fun d => d;
     tinfl_decompress := decompress;
     TINFL_STATUS_DONE := 0;
     TINFL_STATUS_NEEDS_MORE_INPUT := 1;
     TINFL_FLAG_PARSE_ZLIB_HEADER := 1;
     TINFL_FLAG_HAS_MORE_INPUT := 2 |}.

(** A healthy target. *)
Definition good : Platform := platform 0 (-1).

(** The state of the statics at reset. *)
Definition reset_state (P : Platform) (d : @tinfl_decompressor P)
  : @flash_state P :=
  mkFlashState false 0 0 0 0 ESP_OK d 0 (repeat x00 (Z.to_nat OUT_BUF_SIZE)) 0.

End Sim.

(** ** Sessions on the simulated target *)
Module Scenario.

Definition state : Type := @flash_state Sim.good.
Definition config : Type := (state * spi_trace)%type.

Definition reset : config := (Sim.reset_state Sim.good tt, []).

Definition result (o : option config) : config :=
  match o with
  | Some c => c
  | None => reset
  end.

Definition returned {A : Type} (o : option A) : bool :=
  match o with
  | Some _ => true
  | None => false
  end.

Definition begin (c : config) (total_size offset : Z) : config :=
  let r := @handle_flash_begin Sim.good (fst c) (snd c) total_size offset in
  (snd (fst r), snd r).

Definition deflated_begin (c : config)
    (uncompressed_size compressed_size offset : Z) : config :=
  let r :=
    @handle_flash_deflated_begin Sim.good (fst c) (snd c) uncompressed_size
      compressed_size offset in
  (snd (fst r), snd r).

Definition data (c : config) (data_buf : list byte) (length : Z)
  : option config :=
  @handle_flash_data Sim.good 16 (fst c) (snd c) data_buf length.

Definition deflated_data (c : config) (data_buf : list byte) (length : Z)
  : option config :=
  @handle_flash_deflated_data Sim.good 16 (fst c) (snd c) data_buf length.

(** The scenario of the specification: 10000 bytes at offset 0, sent as
    9000 bytes and 1000 bytes. *)
Definition image_begun : config := begin reset 10000 0.
Definition image_first : config := result (data image_begun [] 9000).
Definition image_second : config := result (data image_first [] 1000).

(** Ten sectors at offset 0, sent in one packet. *)
Definition block_begun : config := begin reset 40960 0.
Definition block_done : config := result (data block_begun [] 40960).

(** A session of ten bytes that is ended at once. *)
Definition short_session : config := begin reset 10 0.

(** A size in the last sector below 2^32. *)
Definition huge_session : config := begin reset 4294967295 0.

(** 2^32 bytes sent into a session declared empty. *)
Definition overrun_begun : config := begin reset 0 0.
Definition overrun_first : config :=
  result (data overrun_begun [] 4294963201).
Definition overrun_second : config := result (data overrun_first [] 4095).

(** A target whose [SPIWrite] fails at address 4096: three packets of
    4096 bytes, the second one hits the bad address. *)
Definition faulty : Platform := Sim.platform 0 4096.
Definition faulty_begun : @flash_state faulty * spi_trace :=
  let r :=
    @handle_flash_begin faulty (Sim.reset_state faulty tt) [] 12288 0 in
  (snd (fst r), snd r).
Definition faulty_data (c : @flash_state faulty * spi_trace)
  : option (@flash_state faulty * spi_trace) :=
  @handle_flash_data faulty 16 (fst c) (snd c) [] 4096.
Definition faulty_result (o : option (@flash_state faulty * spi_trace))
  : @flash_state faulty * spi_trace :=
  match o with
  | Some c => c
  | None => faulty_begun
  end.
Definition faulty_first := faulty_result (faulty_data faulty_begun).
Definition faulty_second := faulty_result (faulty_data faulty_first).
Definition faulty_third := faulty_result (faulty_data faulty_second).

(** A deflated session abandoned after 100 bytes of a longer stream, then
    a new deflated session of four bytes at 0x10000; and the same new
    session on a target fresh from reset. *)
Definition stale_bytes : list byte := repeat x61 100.
Definition abandoned : config :=
  result (deflated_data (deflated_begin reset 200 150 0) stale_bytes 100).
Definition second_begun : config := deflated_begin abandoned 4 4 65536.
Definition second_done : config :=
  result (deflated_data second_begun [x01; x02; x03; x04] 4).
Definition fresh_begun : config := deflated_begin reset 4 4 65536.
Definition fresh_done : config :=
  result (deflated_data fresh_begun [x01; x02; x03; x04] 4).



(** A deflated session of eight bytes whose stream holds four, topped up
    with four raw bytes. *)
Definition topped_begun : config := deflated_begin reset 8 4 0.
Definition topped_inflated : config :=
  result (deflated_data topped_begun [x01; x02; x03; x04] 4).
Definition topped_up : config :=
  result (data topped_inflated [x05; x06; x07; x08] 4).

(** A state whose [last_error] holds the code of the first check of end. *)
Definition odd_state : state :=
  set_last_error (set_in_flash_mode (fst reset) true) ESP_NOT_IN_FLASH_MODE.

(** Eleven bytes in one packet into the session of ten. *)
Definition short_overrun : config := result (data short_session [] 11).

(** Two bytes written at the last byte of the address space. *)
Definition top_begun : config := begin reset 2 4294967295.
Definition top_written : config := result (data top_begun [] 2).

(** An image of 16 MiB and one byte from address 0, erased in one
    packet; and one sector just above 16 MiB. *)
Definition large_begun : config := begin reset 16777217 0.
Definition large_erased : config :=
  result (@handle_flash_data Sim.good 2000 (fst large_begun)
            (snd large_begun) [] 16777217).
Definition high_begun : config := begin reset 4096 16777216.
Definition high_erased : config := result (data high_begun [] 4096).

(** Eleven bytes sent into a session of ten. *)
Definition excess_chunks : list (list byte * Z) := [([], 11)].

(** A deflated stream with an invalid byte, in a session of four bytes. *)
Definition corrupt_done : config :=
  result (deflated_data fresh_begun [x01; xff] 2).

End Scenario.


(** * Properties *)

(** ** Machine integers *)

Lemma to_uint32_range (x : Z) : 0 <= to_uint32 x < 2 ^ 32.
Proof. unfold to_uint32. apply Z.mod_pos_bound. lia. Qed.

Lemma to_uint32_id (x : Z) : 0 <= x < 2 ^ 32 -> to_uint32 x = x.
Proof. intros H. unfold to_uint32. apply Z.mod_small. exact H. Qed.

Lemma to_uint32_le (x : Z) : 0 <= x -> to_uint32 x <= x.
Proof. intros H. unfold to_uint32. apply Z.mod_le; lia. Qed.

Lemma to_int_id (x : Z) : - 2 ^ 31 <= x < 2 ^ 31 -> to_int x = x.
Proof.
  intros H. unfold to_int. rewrite Z.mod_small; lia.
Qed.

Lemma to_uint32_sub_add (a b c : Z) :
  to_uint32 (to_uint32 (a - b) - c) = to_uint32 (a - (b + c)).
Proof.
  unfold to_uint32. rewrite Zminus_mod_idemp_l. f_equal. lia.
Qed.

Lemma to_uint32_add_add (a b c : Z) :
  to_uint32 (to_uint32 (a + b) + c) = to_uint32 (a + (b + c)).
Proof.
  unfold to_uint32. rewrite Zplus_mod_idemp_l. f_equal. lia.
Qed.

Lemma ceil_div_floor_add (a b s : Z) :
  0 < s -> 0 <= a -> a / s + ceil_div b s <= ceil_div (a + b) s.
Proof.
  intros Hs Ha. unfold ceil_div.
  rewrite <- Z.div_add_l by lia.
  apply Z.div_le_mono; [lia|].
  pose proof (Z.mul_div_le a s Hs). lia.
Qed.

(** Boolean comparisons in hypotheses, as propositions. *)
Ltac bool_to_prop :=
  repeat match goal with
  | H : (_ <? _) = true |- _ => apply Z.ltb_lt in H
  | H : (_ <? _) = false |- _ => apply Z.ltb_ge in H
  | H : (_ =? _) = true |- _ => apply Z.eqb_eq in H
  | H : (_ =? _) = false |- _ => apply Z.eqb_neq in H
  | H : (_ <=? _) = true |- _ => apply Z.leb_le in H
  | H : (_ <=? _) = false |- _ => apply Z.leb_gt in H
  end.

Section Facts.

Context {P : Platform}.

(** ** End *)

Lemma handle_flash_end_inactive (fs : flash_state) :
  in_flash_mode fs = false ->
  handle_flash_end fs = (ESP_NOT_IN_FLASH_MODE, fs).
Proof. intros H. unfold handle_flash_end. rewrite H. reflexivity. Qed.

Lemma handle_flash_end_short (fs : flash_state) :
  in_flash_mode fs = true -> 0 < remaining fs ->
  handle_flash_end fs = (ESP_NOT_ENOUGH_DATA, fs).
Proof.
  intros H Hr. unfold handle_flash_end. rewrite H. simpl.
  apply Z.ltb_lt in Hr. rewrite Hr. reflexivity.
Qed.

Lemma handle_flash_end_complete (fs : flash_state) :
  in_flash_mode fs = true -> remaining fs <= 0 ->
  handle_flash_end fs = (last_error fs, set_in_flash_mode fs false).
Proof.
  intros H Hr. unfold handle_flash_end. rewrite H. simpl.
  destruct (0 <? remaining fs) eqn:E; [apply Z.ltb_lt in E; lia|reflexivity].
Qed.

(** C1 (as amended).  [handle_flash_end] answers not-in-flash-mode when the
    session is not active, otherwise not-enough-data when bytes remain,
    otherwise the sticky [last_error].  So the answer is not-in-flash-mode
    exactly when the session is not active or, nothing remaining,
    [last_error] is itself that code; and it is not-enough-data exactly
    when the session is active and bytes remain or [last_error] is itself
    that code.  With a [last_error] other than not-in-flash-mode, which
    no handler records, the first is: exactly when the session is not
    active; with a [last_error] other than not-enough-data the second is,
    in an active session: exactly when bytes remain.  The state is touched only when
    the session is active with nothing remaining: [in_flash_mode] is
    cleared and nothing else changes, whatever code is returned.  A
    session that is ended with bytes remaining is left as it was,
    active. *)
Theorem handle_flash_end_spec (fs : flash_state) :
  (in_flash_mode fs = false ->
   handle_flash_end fs = (ESP_NOT_IN_FLASH_MODE, fs)) /\
  (in_flash_mode fs = true -> 0 < remaining fs ->
   handle_flash_end fs = (ESP_NOT_ENOUGH_DATA, fs)) /\
  (in_flash_mode fs = true -> remaining fs <= 0 ->
   handle_flash_end fs = (last_error fs, set_in_flash_mode fs false)) /\
  (in_flash_mode (snd (handle_flash_end fs)) = false <->
   in_flash_mode fs = false \/ remaining fs <= 0) /\
  (in_flash_mode (snd (handle_flash_end fs)) = true <->
   in_flash_mode fs = true /\ 0 < remaining fs) /\
  (fst (handle_flash_end fs) = ESP_NOT_IN_FLASH_MODE <->
   in_flash_mode fs = false \/
   (remaining fs <= 0 /\ last_error fs = ESP_NOT_IN_FLASH_MODE)) /\
  (fst (handle_flash_end fs) = ESP_NOT_ENOUGH_DATA <->
   in_flash_mode fs = true /\
   (0 < remaining fs \/ last_error fs = ESP_NOT_ENOUGH_DATA)) /\
  (last_error fs <> ESP_NOT_IN_FLASH_MODE ->
   (fst (handle_flash_end fs) = ESP_NOT_IN_FLASH_MODE <->
    in_flash_mode fs = false)) /\
  (last_error fs <> ESP_NOT_ENOUGH_DATA -> in_flash_mode fs = true ->
   (fst (handle_flash_end fs) = ESP_NOT_ENOUGH_DATA <->
    0 < remaining fs)) /\
  next_write (snd (handle_flash_end fs)) = next_write fs /\
  next_erase_sector (snd (handle_flash_end fs)) = next_erase_sector fs /\
  remaining (snd (handle_flash_end fs)) = remaining fs /\
  remaining_erase_sector (snd (handle_flash_end fs))
  = remaining_erase_sector fs /\
  last_error (snd (handle_flash_end fs)) = last_error fs /\
  inflator (snd (handle_flash_end fs)) = inflator fs /\
  remaining_compressed (snd (handle_flash_end fs))
  = remaining_compressed fs /\
  out_buf (snd (handle_flash_end fs)) = out_buf fs /\
  next_out (snd (handle_flash_end fs)) = next_out fs.
Proof.
  pose proof (handle_flash_end_inactive fs) as Hi.
  pose proof (handle_flash_end_short fs) as Hs.
  pose proof (handle_flash_end_complete fs) as Hc.
  split; [exact Hi|]. split; [exact Hs|]. split; [exact Hc|].
  destruct (in_flash_mode fs) eqn:A.
  - destruct (Z_lt_le_dec 0 (remaining fs)) as [Hr|Hr].
    + rewrite (Hs eq_refl Hr). cbn [fst snd]. rewrite A.
      intuition (try discriminate; try lia; try congruence).
    + rewrite (Hc eq_refl Hr). cbn [fst snd]. destruct fs. cbn in *.
      intuition (try discriminate; try lia; try congruence).
  - rewrite (Hi eq_refl). cbn [fst snd]. rewrite A.
    intuition (try discriminate; try lia; try congruence).
Qed.

(** ** Begin *)

Lemma handle_flash_begin_state (fs : flash_state) (w : spi_trace)
    (total_size offset : Z) :
  snd (fst (handle_flash_begin fs w total_size offset)) =
  mkFlashState true offset (to_int (offset / FLASH_SECTOR_SIZE)) total_size
    (to_int (to_uint32 (total_size + FLASH_SECTOR_SIZE - 1)
             / FLASH_SECTOR_SIZE))
    ESP_OK (inflator fs) (remaining_compressed fs) (out_buf fs) (next_out fs).
Proof.
  unfold handle_flash_begin. destruct (negb (SPIUnlock w =? 0)); reflexivity.
Qed.

Lemma handle_flash_begin_result (fs : flash_state) (w : spi_trace)
    (total_size offset : Z) :
  fst (fst (handle_flash_begin fs w total_size offset)) =
  (if SPIUnlock w =? 0 then ESP_OK else ESP_FAILED_SPI_UNLOCK) /\
  snd (handle_flash_begin fs w total_size offset) = EvUnlock :: w.
Proof.
  unfold handle_flash_begin. destruct (SPIUnlock w =? 0); split; reflexivity.
Qed.

(** The sector counts computed by begin, when the rounding-up addition
    does not leave 32 bits. *)
Lemma begin_sector_counts `{!PlatformOk P} (total_size offset : Z) :
  uint32 offset -> 0 <= total_size ->
  total_size + FLASH_SECTOR_SIZE - 1 < 2 ^ 32 ->
  to_int (offset / FLASH_SECTOR_SIZE) = offset / FLASH_SECTOR_SIZE /\
  to_int (to_uint32 (total_size + FLASH_SECTOR_SIZE - 1) / FLASH_SECTOR_SIZE)
  = ceil_div total_size FLASH_SECTOR_SIZE.
Proof.
  intros Ho Ht Hfit. pose proof sector_size_range as Hs. unfold uint32 in Ho.
  assert (Hdiv : forall x, 0 <= x < 2 ^ 32 ->
                 0 <= x / FLASH_SECTOR_SIZE < 2 ^ 30).
  { intros x Hx. split; [apply Z.div_pos; lia|].
    apply Z.div_lt_upper_bound; lia. }
  split.
  - apply to_int_id. specialize (Hdiv offset Ho). lia.
  - rewrite to_uint32_id by lia. unfold ceil_div.
    apply to_int_id.
    specialize (Hdiv (total_size + FLASH_SECTOR_SIZE - 1)). lia.
Qed.

(** Where the claim of C2 holds: every field after begin, for sizes whose
    rounding up to a sector fits 32 bits, whatever [SPIUnlock] answers. *)
Lemma handle_flash_begin_spec `{!PlatformOk P} (fs : flash_state)
    (w : spi_trace) (total_size offset : Z) :
  uint32 offset -> 0 <= total_size ->
  total_size + FLASH_SECTOR_SIZE - 1 < 2 ^ 32 ->
  let '(err, fs', w') := handle_flash_begin fs w total_size offset in
  next_write fs' = offset /\
  next_erase_sector fs' = offset / FLASH_SECTOR_SIZE /\
  remaining fs' = total_size /\
  remaining_erase_sector fs' = ceil_div total_size FLASH_SECTOR_SIZE /\
  last_error fs' = ESP_OK /\
  in_flash_mode fs' = true /\
  (SPIUnlock w <> 0 -> err = ESP_FAILED_SPI_UNLOCK) /\
  (SPIUnlock w = 0 -> err = ESP_OK).
Proof.
  intros Ho Ht Hfit.
  destruct (begin_sector_counts total_size offset Ho Ht Hfit) as [E1 E2].
  unfold handle_flash_begin.
  destruct (SPIUnlock w =? 0) eqn:U; simpl;
    repeat split; try assumption; try reflexivity; intros;
    try (apply Z.eqb_eq in U; contradiction);
    try (apply Z.eqb_neq in U; contradiction).
Qed.

(** Where it does not: a size in the last sector below 2^32 makes the
    rounding-up addition wrap, and begin schedules no erase at all. *)
Lemma begin_erase_count_wraps `{!PlatformOk P} (fs : flash_state)
    (w : spi_trace) (total_size offset : Z) :
  2 ^ 32 - FLASH_SECTOR_SIZE < total_size < 2 ^ 32 ->
  remaining_erase_sector
    (snd (fst (handle_flash_begin fs w total_size offset))) = 0 /\
  0 < ceil_div total_size FLASH_SECTOR_SIZE.
Proof.
  intros Ht. pose proof sector_size_range as Hs.
  rewrite handle_flash_begin_state. simpl. split.
  - assert (E : to_uint32 (total_size + FLASH_SECTOR_SIZE - 1)
                = total_size + FLASH_SECTOR_SIZE - 1 - 2 ^ 32).
    { unfold to_uint32. symmetry.
      apply Z.mod_unique with (q := 1); lia. }
    rewrite E. rewrite Z.div_small by lia. reflexivity.
  - unfold ceil_div. apply Z.div_str_pos. lia.
Qed.


(** ** Erase scheduler *)

Lemma spiflash_is_ready_trace (w : spi_trace) :
  snd (spiflash_is_ready w) = EvReadStatus :: w.
Proof. reflexivity. Qed.

Lemma start_next_erase_idle (fs : flash_state) (w : spi_trace) :
  remaining_erase_sector fs = 0 -> start_next_erase fs w = (fs, w).
Proof. intros H. unfold start_next_erase. rewrite H. reflexivity. Qed.

Lemma start_next_erase_busy (fs : flash_state) (w : spi_trace) :
  remaining_erase_sector fs <> 0 ->
  fst (spiflash_is_ready w) = false ->
  start_next_erase fs w = (fs, EvReadStatus :: w).
Proof.
  intros H B. unfold start_next_erase, spiflash_is_ready in *.
  simpl in B. apply Z.eqb_neq in H. rewrite H, B. reflexivity.
Qed.

Lemma start_next_erase_ready (fs : flash_state) (w : spi_trace) :
  remaining_erase_sector fs <> 0 ->
  fst (spiflash_is_ready w) = true ->
  exists command n,
    start_next_erase fs w =
    (set_erase fs (to_int (next_erase_sector fs + n))
       (to_int (remaining_erase_sector fs - n)),
     EvErase command
       (Z.land (to_uint32 (next_erase_sector fs * FLASH_SECTOR_SIZE))
          16777215)
       (next_erase_sector fs) n :: EvReadStatus :: w) /\
    (command = SPI_FLASH_BE <->
     SECTORS_PER_BLOCK <= remaining_erase_sector fs /\
     Z.rem (next_erase_sector fs) SECTORS_PER_BLOCK = 0) /\
    (command = SPI_FLASH_BE -> n = SECTORS_PER_BLOCK) /\
    (command = SPI_FLASH_SE -> n = 1).
Proof.
  intros H B. unfold start_next_erase, spiflash_is_ready in *.
  simpl in B. apply Z.eqb_neq in H. rewrite H, B. simpl.
  destruct (SECTORS_PER_BLOCK <=? remaining_erase_sector fs) eqn:C1;
    [destruct (Z.rem (next_erase_sector fs) SECTORS_PER_BLOCK =? 0) eqn:C2|];
    simpl.
  - exists SPI_FLASH_BE, SECTORS_PER_BLOCK.
    apply Z.leb_le in C1. apply Z.eqb_eq in C2. intuition congruence.
  - exists SPI_FLASH_SE, 1.
    apply Z.eqb_neq in C2. intuition congruence.
  - exists SPI_FLASH_SE, 1.
    apply Z.leb_gt in C1. intuition (try congruence; try lia).
Qed.

(** The scheduler changes nothing but the two erase counters. *)
Lemma start_next_erase_frame (fs : flash_state) (w : spi_trace) :
  fst (start_next_erase fs w) =
  set_erase fs (next_erase_sector (fst (start_next_erase fs w)))
    (remaining_erase_sector (fst (start_next_erase fs w))).
Proof.
  unfold start_next_erase.
  destruct (remaining_erase_sector fs =? 0); [now destruct fs|].
  destruct (spiflash_is_ready w) as [ready w1].
  destruct (negb ready); [now destruct fs|].
  destruct ((SECTORS_PER_BLOCK <=? remaining_erase_sector fs)
            && (Z.rem (next_erase_sector fs) SECTORS_PER_BLOCK =? 0));
    reflexivity.
Qed.

(** The unit erased by an invocation that finds sectors left and the
    flash ready, with the counters in the range a session keeps them in. *)
Lemma start_next_erase_unit `{!PlatformOk P} (fs : flash_state)
    (w : spi_trace) :
  erase_counters_ok fs ->
  remaining_erase_sector fs <> 0 -> fst (spiflash_is_ready w) = true ->
  exists command n addr,
    start_next_erase fs w =
    (set_erase fs (next_erase_sector fs + n) (remaining_erase_sector fs - n),
     EvErase command addr (next_erase_sector fs) n :: EvReadStatus :: w) /\
    (command = SPI_FLASH_BE <->
     SECTORS_PER_BLOCK <= remaining_erase_sector fs /\
     (SECTORS_PER_BLOCK | next_erase_sector fs)) /\
    (command = SPI_FLASH_BE -> n = SECTORS_PER_BLOCK) /\
    (command = SPI_FLASH_SE -> n = 1) /\
    1 <= n <= remaining_erase_sector fs.
Proof.
  intros (Hn & Hr & Hsum) Hrem Hready.
  pose proof sectors_per_block_range as Hb. unfold INT_MAX in Hsum.
  destruct (start_next_erase_ready fs w Hrem Hready)
    as (command & n & E & Hbe & Hnb & Hns).
  assert (Hcount : 1 <= n <= remaining_erase_sector fs).
  { destruct command.
    - rewrite (Hns eq_refl). lia.
    - rewrite (Hnb eq_refl). destruct Hbe as [Hbe _].
      specialize (Hbe eq_refl). lia. }
  exists command, n. eexists. rewrite E.
  rewrite !to_int_id by lia.
  split; [reflexivity|].
  split; [|auto].
  rewrite Hbe. rewrite Z.rem_divide by lia. reflexivity.
Qed.

(** C5.  One invocation of [start_next_erase].  With no sector left to
    erase it changes nothing; with the flash busy it changes nothing in the
    session and issues no command beyond the status read.  Otherwise it
    issues exactly one erase unit at [next_erase_sector]: a block of
    [SECTORS_PER_BLOCK] sectors exactly when that many sectors remain and
    the sector index is a multiple of [SECTORS_PER_BLOCK], one sector
    otherwise; the address it sends is the byte address of that sector cut
    to 24 bits; afterwards [next_erase_sector] reads the old value plus the
    size of the unit, [remaining_erase_sector] the old value minus it, and
    every other field reads as before. *)
Theorem start_next_erase_spec `{!PlatformOk P} (fs : flash_state)
    (w : spi_trace) :
  erase_counters_ok fs ->
  (remaining_erase_sector fs = 0 -> start_next_erase fs w = (fs, w)) /\
  (remaining_erase_sector fs <> 0 -> fst (spiflash_is_ready w) = false ->
   start_next_erase fs w = (fs, EvReadStatus :: w)) /\
  (remaining_erase_sector fs <> 0 -> fst (spiflash_is_ready w) = true ->
   exists command n addr,
     start_next_erase fs w =
     (set_erase fs (next_erase_sector fs + n) (remaining_erase_sector fs - n),
      EvErase command addr (next_erase_sector fs) n :: EvReadStatus :: w) /\
     (command = SPI_FLASH_BE <->
      SECTORS_PER_BLOCK <= remaining_erase_sector fs /\
      (SECTORS_PER_BLOCK | next_erase_sector fs)) /\
     (command = SPI_FLASH_BE -> n = SECTORS_PER_BLOCK) /\
     (command = SPI_FLASH_SE -> n = 1) /\
     1 <= n <= remaining_erase_sector fs /\
     addr = Z.land (to_uint32 (next_erase_sector fs * FLASH_SECTOR_SIZE))
              16777215 /\
     next_erase_sector (fst (start_next_erase fs w))
     = next_erase_sector fs + n /\
     remaining_erase_sector (fst (start_next_erase fs w))
     = remaining_erase_sector fs - n /\
     in_flash_mode (fst (start_next_erase fs w)) = in_flash_mode fs /\
     next_write (fst (start_next_erase fs w)) = next_write fs /\
     remaining (fst (start_next_erase fs w)) = remaining fs /\
     last_error (fst (start_next_erase fs w)) = last_error fs /\
     inflator (fst (start_next_erase fs w)) = inflator fs /\
     remaining_compressed (fst (start_next_erase fs w))
     = remaining_compressed fs /\
     out_buf (fst (start_next_erase fs w)) = out_buf fs /\
     next_out (fst (start_next_erase fs w)) = next_out fs).
Proof.
  intros Hok.
  split; [apply start_next_erase_idle|].
  split; [apply start_next_erase_busy|].
  intros Hrem Hready.
  pose proof Hok as (Hn & Hr & Hsum).
  pose proof sectors_per_block_range as Hb. unfold INT_MAX in Hsum.
  destruct (start_next_erase_ready fs w Hrem Hready)
    as (command & n & E & Hbe & Hnb & Hns).
  assert (Hcount : 1 <= n <= remaining_erase_sector fs).
  { destruct command.
    - rewrite (Hns eq_refl). lia.
    - rewrite (Hnb eq_refl). destruct Hbe as [Hbe _].
      specialize (Hbe eq_refl). lia. }
  exists command, n. eexists. rewrite E.
  rewrite !to_int_id by lia.
  split; [reflexivity|].
  split; [rewrite Hbe, Z.rem_divide by lia; reflexivity|].
  repeat (split; [assumption || reflexivity|]).
  reflexivity.
Qed.

(** The counters stay in range. *)
Lemma start_next_erase_counters `{!PlatformOk P} (fs : flash_state)
    (w : spi_trace) :
  erase_counters_ok fs -> erase_counters_ok (fst (start_next_erase fs w)).
Proof.
  intros Hok. pose proof Hok as (Hn & Hr & Hsum).
  pose proof (start_next_erase_idle fs w) as A.
  pose proof (start_next_erase_busy fs w) as B.
  pose proof (start_next_erase_unit fs w Hok) as C.
  destruct (Z.eq_dec (remaining_erase_sector fs) 0) as [Z0|NZ].
  - now rewrite (A Z0).
  - destruct (fst (spiflash_is_ready w)) eqn:R.
    + destruct (C NZ eq_refl) as (c & n & a & E & _ & _ & _ & Hc).
      rewrite E. unfold erase_counters_ok. simpl. lia.
    + now rewrite (B NZ eq_refl).
Qed.


(** ** Properties kept by every step of a session

    A property of state and trace that survives the scheduler, the logging
    of a write and each kind of field update made by the handlers survives
    every call that is not a begin. *)
Section Preservation.

Variable I : flash_state * spi_trace -> Prop.

Hypothesis I_erase : forall fs w, I (fs, w) -> I (start_next_erase fs w).
Hypothesis I_write_event :
  forall fs w addr buf len, I (fs, w) -> I (fs, EvWrite addr buf len :: w).
Hypothesis I_set_last_error :
  forall fs w e, e <> ESP_OK -> I (fs, w) -> I (set_last_error fs e, w).
Hypothesis I_set_write :
  forall fs w a b, I (fs, w) -> I (set_write fs a b, w).
Hypothesis I_set_inflate :
  forall fs w d rc buf out, I (fs, w) -> I (set_inflate fs d rc buf out, w).
Hypothesis I_set_in_flash_mode :
  forall fs w b, I (fs, w) -> I (set_in_flash_mode fs b, w).

Lemma erase_until_preserves (fuel : nat) (last_sector : Z) :
  forall fs w r,
    erase_until fuel last_sector fs w = Some r -> I (fs, w) -> I r.
Proof.
  induction fuel as [|fuel IH]; intros fs w r E Hi; cbn [erase_until] in E;
    destruct (next_erase_sector fs <? last_sector); try discriminate;
    try (injection E as <-; exact Hi).
  destruct (start_next_erase fs w) as [fs1 w1] eqn:S.
  apply (IH fs1 w1 r E). rewrite <- S. now apply I_erase.
Qed.

Lemma handle_flash_data_preserves (fuel : nat) fs w data_buf length r :
  handle_flash_data fuel fs w data_buf length = Some r -> I (fs, w) -> I r.
Proof.
  unfold handle_flash_data. intros E Hi.
  destruct (erase_until fuel _ fs w) as [[fs1 w1]|] eqn:U; [|discriminate].
  apply erase_until_preserves in U; [|exact Hi].
  injection E as <-. apply I_set_write.
  destruct (negb (SPIWrite w1 (next_write fs1) data_buf length =? 0)).
  - apply I_set_last_error; [discriminate|]. now apply I_write_event.
  - now apply I_write_event.
Qed.

Lemma deflate_loop_preserves (fuel : nat) :
  forall fs w data_buf length status fs' w' status',
    deflate_loop fuel fs w data_buf length status = Some (fs', w', status') ->
    I (fs, w) -> I (fs', w').
Proof.
  induction fuel as [|fuel IH]; intros fs w data_buf length status
    fs' w' status' E Hi; cbn [deflate_loop] in E;
    destruct ((0 <? length) && (0 <? remaining fs)
              && (TINFL_STATUS_DONE <? status));
    try discriminate; try (injection E as <- <- <-; exact Hi).
  destruct (start_next_erase fs w) as [fs1 w1] eqn:S.
  assert (H1 : I (fs1, w1)) by (rewrite <- S; now apply I_erase).
  match type of E with
  | (if ?c then _ else _) = _ => destruct c
  end.
  - match type of E with
    | match ?h with _ => _ end = _ => destruct h as [[fs3 w3]|] eqn:F
    end; [|discriminate].
    apply handle_flash_data_preserves in F; [|now apply I_set_inflate].
    apply (IH _ _ _ _ _ _ _ _ E). unfold set_next_out.
    now apply I_set_inflate.
  - apply (IH _ _ _ _ _ _ _ _ E). now apply I_set_inflate.
Qed.

Lemma handle_flash_deflated_data_preserves (fuel : nat) fs w data_buf
    length r :
  handle_flash_deflated_data fuel fs w data_buf length = Some r ->
  I (fs, w) -> I r.
Proof.
  unfold handle_flash_deflated_data. intros E Hi.
  destruct (deflate_loop fuel fs w data_buf length
              TINFL_STATUS_NEEDS_MORE_INPUT) as [[[fs1 w1] status]|] eqn:L;
    [|discriminate].
  apply deflate_loop_preserves in L; [|exact Hi].
  injection E as <-.
  repeat match goal with
  | |- context [if ?c then _ else _] => destruct c
  end;
  repeat (apply I_set_last_error; [discriminate|]); exact L.
Qed.

Lemma handle_flash_end_preserves fs w :
  I (fs, w) -> I (snd (handle_flash_end fs), w).
Proof.
  intros Hi. unfold handle_flash_end.
  destruct (negb (in_flash_mode fs)); [exact Hi|].
  destruct (0 <? remaining fs); [exact Hi|].
  now apply I_set_in_flash_mode.
Qed.

Lemma session_step_preserves c c' : session_step c c' -> I c -> I c'.
Proof.
  intros S Hi. destruct S.
  - now apply I_erase.
  - eapply handle_flash_data_preserves; eauto.
  - eapply handle_flash_deflated_data_preserves; eauto.
  - now apply handle_flash_end_preserves.
Qed.

Lemma session_steps_preserves c c' : session_steps c c' -> I c -> I c'.
Proof.
  induction 1 as [c|c1 c2 c3 S _ IH]; intros Hi; [exact Hi|].
  apply IH. eapply session_step_preserves; eauto.
Qed.

End Preservation.


(** ** The sectors a session erases *)

Lemma In_sector_range (first n s : Z) :
  In s (sector_range first n) <-> first <= s < first + n.
Proof.
  unfold sector_range. rewrite in_map_iff. split.
  - intros (i & <- & Hi). apply in_seq in Hi. lia.
  - intros H. exists (Z.to_nat (s - first)). split; [lia|].
    apply in_seq. lia.
Qed.

Lemma NoDup_sector_range (first n : Z) : NoDup (sector_range first n).
Proof.
  unfold sector_range. apply Injective_map_NoDup.
  - intros i j H. lia.
  - apply seq_NoDup.
Qed.

Lemma erased_sectors_app (evs w : spi_trace) :
  erased_sectors (evs ++ w) = erased_sectors evs ++ erased_sectors w.
Proof.
  induction evs as [|e evs IH]; [reflexivity|].
  destruct e; simpl; rewrite IH; try reflexivity.
  now rewrite app_assoc.
Qed.

Lemma erase_inv_counters (first limit : Z) (w0 : spi_trace)
    (c : flash_state * spi_trace) :
  erase_inv first limit w0 c -> erase_counters_ok (fst c).
Proof.
  intros (evs & _ & _ & _ & H1 & H2 & H3 & H4).
  unfold erase_counters_ok. lia.
Qed.

Lemma erase_inv_start_next_erase `{!PlatformOk P} (first limit : Z)
    (w0 : spi_trace) (fs : flash_state) (w : spi_trace) :
  erase_inv first limit w0 (fs, w) ->
  erase_inv first limit w0 (start_next_erase fs w).
Proof.
  intros Hi. pose proof (erase_inv_counters _ _ _ _ Hi) as Hok.
  destruct Hi as (evs & Hw & Hnd & Hall & Hf & Hr & Hsum & Hlim).
  simpl in *.
  pose proof (start_next_erase_idle fs w) as A.
  pose proof (start_next_erase_busy fs w) as B.
  pose proof (start_next_erase_unit fs w Hok) as C.
  destruct (Z.eq_dec (remaining_erase_sector fs) 0) as [Z0|NZ].
  { rewrite (A Z0). exists evs. simpl. auto 10. }
  destruct (fst (spiflash_is_ready w)) eqn:R.
  - destruct (C NZ eq_refl) as (cmd & n & addr & E & _ & _ & _ & Hn).
    rewrite E.
    exists (EvErase cmd addr (next_erase_sector fs) n :: EvReadStatus :: evs).
    simpl. rewrite Hw. split; [reflexivity|].
    split.
    { apply NoDup_app; [apply NoDup_sector_range|exact Hnd|].
      intros s Hin Hold. apply In_sector_range in Hin.
      rewrite Forall_forall in Hall. specialize (Hall s Hold). lia. }
    split.
    { apply Forall_app. split.
      - apply Forall_forall. intros s Hin.
        apply In_sector_range in Hin. lia.
      - eapply Forall_impl; [|exact Hall]. simpl. intros s Hs. lia. }
    lia.
  - rewrite (B NZ eq_refl). exists (EvReadStatus :: evs). simpl.
    rewrite Hw. auto 10.
Qed.

Lemma erase_inv_frame (first limit : Z) (w0 : spi_trace)
    (fs fs' : flash_state) (w : spi_trace) :
  next_erase_sector fs' = next_erase_sector fs ->
  remaining_erase_sector fs' = remaining_erase_sector fs ->
  erase_inv first limit w0 (fs, w) -> erase_inv first limit w0 (fs', w).
Proof.
  intros E1 E2 (evs & H). exists evs. simpl in *. now rewrite E1, E2.
Qed.

Lemma erase_inv_write_event (first limit : Z) (w0 : spi_trace)
    (fs : flash_state) (w : spi_trace) addr buf len :
  erase_inv first limit w0 (fs, w) ->
  erase_inv first limit w0 (fs, EvWrite addr buf len :: w).
Proof.
  intros (evs & Hw & H). exists (EvWrite addr buf len :: evs).
  simpl in *. now rewrite Hw.
Qed.

Lemma erase_inv_session_steps `{!PlatformOk P} (first limit : Z)
    (w0 : spi_trace) (c c' : flash_state * spi_trace) :
  session_steps c c' ->
  erase_inv first limit w0 c -> erase_inv first limit w0 c'.
Proof.
  apply session_steps_preserves; intros.
  - now apply erase_inv_start_next_erase.
  - now apply erase_inv_write_event.
  - eapply erase_inv_frame; [| |eassumption]; reflexivity.
  - eapply erase_inv_frame; [| |eassumption]; reflexivity.
  - eapply erase_inv_frame; [| |eassumption]; reflexivity.
  - eapply erase_inv_frame; [| |eassumption]; reflexivity.
Qed.

(** What begin leaves in the two erase counters, for any 32-bit size. *)
Lemma begin_erase_counters `{!PlatformOk P} (total_size offset : Z) :
  uint32 total_size -> uint32 offset ->
  to_int (offset / FLASH_SECTOR_SIZE) = offset / FLASH_SECTOR_SIZE /\
  0 <= offset / FLASH_SECTOR_SIZE < 2 ^ 30 /\
  0 <= to_int (to_uint32 (total_size + FLASH_SECTOR_SIZE - 1)
               / FLASH_SECTOR_SIZE) < 2 ^ 30 /\
  to_int (to_uint32 (total_size + FLASH_SECTOR_SIZE - 1) / FLASH_SECTOR_SIZE)
  <= ceil_div total_size FLASH_SECTOR_SIZE.
Proof.
  unfold uint32. intros Ht Ho. pose proof sector_size_range as Hs.
  assert (Hdiv : forall x, 0 <= x < 2 ^ 32 ->
                 0 <= x / FLASH_SECTOR_SIZE < 2 ^ 30).
  { intros x Hx. split; [apply Z.div_pos; lia|].
    apply Z.div_lt_upper_bound; lia. }
  pose proof (Hdiv offset Ho) as H1.
  pose proof (Hdiv _ (to_uint32_range (total_size + FLASH_SECTOR_SIZE - 1)))
    as H2.
  rewrite !to_int_id by lia.
  repeat split; try lia.
  unfold ceil_div. apply Z.div_le_mono; [lia|].
  apply to_uint32_le. lia.
Qed.

Lemma begin_erase_inv `{!PlatformOk P} (fs : flash_state) (w : spi_trace)
    (total_size offset : Z) :
  uint32 total_size -> uint32 offset ->
  exists limit,
    limit <= ceil_div (offset + total_size) FLASH_SECTOR_SIZE /\
    erase_inv (offset / FLASH_SECTOR_SIZE) limit
      (snd (handle_flash_begin fs w total_size offset))
      (snd (fst (handle_flash_begin fs w total_size offset)),
       snd (handle_flash_begin fs w total_size offset)).
Proof.
  intros Ht Ho. pose proof sector_size_range as Hs.
  destruct (begin_erase_counters total_size offset Ht Ho)
    as (E1 & H1 & H2 & H3).
  rewrite handle_flash_begin_state.
  destruct (handle_flash_begin_result fs w total_size offset) as [_ ->].
  eexists. split; [|exists []; simpl; rewrite E1;
    repeat split; try reflexivity; try constructor; unfold INT_MAX; lia].
  unfold uint32 in *.
  pose proof (ceil_div_floor_add offset total_size FLASH_SECTOR_SIZE).
  lia.
Qed.


(** ** Raw data *)

Lemma erase_until_frame (fuel : nat) (last_sector : Z) :
  forall fs w fs1 w1,
    erase_until fuel last_sector fs w = Some (fs1, w1) ->
    fs1 = set_erase fs (next_erase_sector fs1) (remaining_erase_sector fs1).
Proof.
  induction fuel as [|fuel IH]; intros fs w fs1 w1 E; cbn [erase_until] in E;
    destruct (next_erase_sector fs <? last_sector); try discriminate;
    try (injection E as <- <-; now destruct fs).
  pose proof (start_next_erase_frame fs w) as F.
  destruct (start_next_erase fs w) as [fs2 w2]. simpl in F.
  apply IH in E. rewrite E, F. reflexivity.
Qed.

(** The whole effect of one raw data packet that returns. *)
Lemma handle_flash_data_spec (fuel : nat) (fs : flash_state) (w : spi_trace)
    (data_buf : list byte) (length : Z) (fs' : flash_state) (w' : spi_trace) :
  handle_flash_data fuel fs w data_buf length = Some (fs', w') ->
  exists fs1 w1,
    erase_until fuel
      (to_int (to_uint32 (next_write fs + length + FLASH_SECTOR_SIZE - 1)
               / FLASH_SECTOR_SIZE)) fs w = Some (fs1, w1) /\
    w' = EvWrite (next_write fs) data_buf length :: w1 /\
    fs' =
    mkFlashState (in_flash_mode fs) (to_uint32 (next_write fs + length))
      (next_erase_sector fs1) (to_uint32 (remaining fs - length))
      (remaining_erase_sector fs1)
      (if SPIWrite w1 (next_write fs) data_buf length =? 0
       then last_error fs else ESP_FAILED_SPI_OP)
      (inflator fs) (remaining_compressed fs) (out_buf fs) (next_out fs).
Proof.
  unfold handle_flash_data. intros E.
  destruct (erase_until fuel _ fs w) as [[fs1 w1]|] eqn:U; [|discriminate].
  exists fs1, w1. split; [reflexivity|].
  pose proof (erase_until_frame _ _ _ _ _ _ U) as F.
  assert (Hnw : next_write fs1 = next_write fs) by (rewrite F; reflexivity).
  injection E as <- <-. rewrite Hnw. split; [reflexivity|].
  destruct (SPIWrite w1 (next_write fs) data_buf length =? 0);
    rewrite F; reflexivity.
Qed.

Lemma handle_flash_data_seq_spec (fuel : nat)
    (chunks : list (list byte * Z)) :
  forall fs w fs' w',
    uint32 (next_write fs) -> uint32 (remaining fs) ->
    handle_flash_data_seq fuel fs w chunks = Some (fs', w') ->
    next_write fs' = to_uint32 (next_write fs + total_length chunks) /\
    remaining fs' = to_uint32 (remaining fs - total_length chunks) /\
    in_flash_mode fs' = in_flash_mode fs /\
    (last_error fs = ESP_FAILED_SPI_OP -> last_error fs' = ESP_FAILED_SPI_OP).
Proof.
  induction chunks as [|[buf len] rest IH]; intros fs w fs' w' Hn Hr E.
  - injection E as <- <-. simpl.
    rewrite Z.add_0_r, Z.sub_0_r, !to_uint32_id by assumption. auto.
  - cbn [handle_flash_data_seq] in E.
    destruct (handle_flash_data fuel fs w buf len) as [[fs1 w1]|] eqn:D;
      [|discriminate].
    apply handle_flash_data_spec in D. destruct D as (fs0 & w0 & _ & _ & ->).
    apply IH in E; cbn [next_write remaining] in *;
      try apply to_uint32_range.
    destruct E as (E1 & E2 & E3 & E4).
    cbn [total_length fold_right snd].
    fold (total_length rest).
    rewrite E1, E2, E3, to_uint32_add_add, to_uint32_sub_add.
    repeat split. intros Hf. apply E4. cbn [last_error]. rewrite Hf.
    now destruct (SPIWrite _ _ _ _ =? 0).
Qed.

(** C3 (as amended).  A raw data packet of length [length] that returns
    has moved [next_write] up and [remaining] down by [length] in 32-bit
    wrap-around arithmetic (by exactly [length] when the result stays in
    the range of [uint32_t]) whether or not [SPIWrite] failed; the write is
    issued at the old [next_write] after the erase catch-up, and a failure
    is recorded as [ESP_FAILED_SPI_OP] and nothing else; the session stays
    active.  From then on every further raw packet advances the two
    counters in the same way and leaves that error in place, and once
    [remaining] is 0 [handle_flash_end] returns that error and the session
    reads inactive afterwards; while bytes remain it answers
    not-enough-data and changes nothing. *)
Theorem handle_flash_data_accounting (fuel : nat) (fs : flash_state)
    (w : spi_trace) (data_buf : list byte) (length : Z)
    (fs' : flash_state) (w' : spi_trace) :
  in_flash_mode fs = true ->
  handle_flash_data fuel fs w data_buf length = Some (fs', w') ->
  next_write fs' = to_uint32 (next_write fs + length) /\
  remaining fs' = to_uint32 (remaining fs - length) /\
  (0 <= next_write fs + length < 2 ^ 32 ->
   next_write fs' = next_write fs + length) /\
  (0 <= remaining fs - length < 2 ^ 32 ->
   remaining fs' = remaining fs - length) /\
  in_flash_mode fs' = true /\
  (exists w1,
     w' = EvWrite (next_write fs) data_buf length :: w1 /\
     (SPIWrite w1 (next_write fs) data_buf length <> 0 ->
      last_error fs' = ESP_FAILED_SPI_OP) /\
     (SPIWrite w1 (next_write fs) data_buf length = 0 ->
      last_error fs' = last_error fs)) /\
  (last_error fs' = ESP_FAILED_SPI_OP ->
   forall fuel' chunks fs'' w'',
     handle_flash_data_seq fuel' fs' w' chunks = Some (fs'', w'') ->
     next_write fs'' = to_uint32 (next_write fs' + total_length chunks) /\
     remaining fs'' = to_uint32 (remaining fs' - total_length chunks) /\
     last_error fs'' = ESP_FAILED_SPI_OP /\
     in_flash_mode fs'' = true /\
     (remaining fs'' = 0 ->
      handle_flash_end fs'' =
      (ESP_FAILED_SPI_OP, set_in_flash_mode fs'' false) /\
      fst (handle_flash_end fs'') = ESP_FAILED_SPI_OP /\
      in_flash_mode (snd (handle_flash_end fs'')) = false /\
      get_flash_error (snd (handle_flash_end fs'')) = ESP_FAILED_SPI_OP /\
      next_write (snd (handle_flash_end fs'')) = next_write fs'' /\
      remaining (snd (handle_flash_end fs'')) = 0) /\
     (0 < remaining fs'' ->
      handle_flash_end fs'' = (ESP_NOT_ENOUGH_DATA, fs'') /\
      get_flash_error fs'' = ESP_FAILED_SPI_OP)).
Proof.
  intros Hact E.
  destruct (handle_flash_data_spec _ _ _ _ _ _ _ E)
    as (fs1 & w1 & _ & Hw & Hfs).
  assert (Hnw : next_write fs' = to_uint32 (next_write fs + length))
    by (rewrite Hfs; reflexivity).
  assert (Hrem : remaining fs' = to_uint32 (remaining fs - length))
    by (rewrite Hfs; reflexivity).
  assert (Hmode : in_flash_mode fs' = true) by (rewrite Hfs; exact Hact).
  split; [exact Hnw|]. split; [exact Hrem|].
  split; [intros H; rewrite Hnw; now apply to_uint32_id|].
  split; [intros H; rewrite Hrem; now apply to_uint32_id|].
  split; [exact Hmode|].
  split.
  { exists w1. split; [exact Hw|]. rewrite Hfs. cbn [last_error].
    split; intros H.
    - apply Z.eqb_neq in H. now rewrite H.
    - now rewrite H. }
  intros Herr fuel' chunks fs'' w'' S.
  apply handle_flash_data_seq_spec in S;
    try (rewrite ?Hnw, ?Hrem; apply to_uint32_range).
  destruct S as (S1 & S2 & S3 & S4).
  specialize (S4 Herr). rewrite Hmode in S3.
  do 4 (split; [assumption|]).
  split.
  - intros Hz. rewrite handle_flash_end_complete by (try assumption; lia).
    unfold get_flash_error. cbn [fst snd]. rewrite S4.
    repeat split; (reflexivity || assumption).
  - intros Hpos. split; [now apply handle_flash_end_short|exact S4].
Qed.


(** ** Deflated data *)

(** A packet whose first decoder call ends the stream or fails: the loop
    runs once, flushes what the decoder produced and stops with that
    call's status. *)
Lemma deflate_loop_first_call (fuel : nat) (fs : flash_state)
    (w : spi_trace) (data_buf : list byte) (length status : Z)
    (fs' : flash_state) (w' : spi_trace) (status' : Z) :
  deflate_loop fuel fs w data_buf length status = Some (fs', w', status') ->
  0 < length -> 0 < remaining fs -> TINFL_STATUS_DONE < status ->
  tr_status
    (tinfl_decompress (inflator fs) data_buf length (out_buf fs)
       (next_out fs) (OUT_BUF_SIZE - next_out fs)
       (if length <? remaining_compressed fs
        then Z.lor TINFL_FLAG_PARSE_ZLIB_HEADER TINFL_FLAG_HAS_MORE_INPUT
        else TINFL_FLAG_PARSE_ZLIB_HEADER)) <= TINFL_STATUS_DONE ->
  exists r w0,
    r = tinfl_decompress (inflator fs) data_buf length (out_buf fs)
          (next_out fs) (OUT_BUF_SIZE - next_out fs)
          (if length <? remaining_compressed fs
           then Z.lor TINFL_FLAG_PARSE_ZLIB_HEADER TINFL_FLAG_HAS_MORE_INPUT
           else TINFL_FLAG_PARSE_ZLIB_HEADER) /\
    status' = tr_status r /\
    inflator fs' = tr_inflator r /\
    out_buf fs' = tr_out_buf r /\
    next_out fs' = 0 /\
    remaining fs' = to_uint32 (remaining fs - (next_out fs + tr_out_bytes r)) /\
    next_write fs' = to_uint32 (next_write fs + (next_out fs + tr_out_bytes r)) /\
    in_flash_mode fs' = in_flash_mode fs /\
    w' = EvWrite (next_write fs) (tr_out_buf r)
           (next_out fs + tr_out_bytes r) :: w0.
Proof.
  intros E Hl Hr Hs Hd.
  assert (Hc : (0 <? length) && (0 <? remaining fs)
               && (TINFL_STATUS_DONE <? status) = true).
  { rewrite !andb_true_iff, !Z.ltb_lt. auto. }
  destruct fuel as [|fuel]; cbn [deflate_loop] in E; rewrite Hc in E;
    [discriminate|].
  pose proof (start_next_erase_frame fs w) as F.
  destruct (start_next_erase fs w) as [fsa wa]. cbn [fst] in F.
  assert (F1 : inflator fsa = inflator fs) by (rewrite F; reflexivity).
  assert (F2 : out_buf fsa = out_buf fs) by (rewrite F; reflexivity).
  assert (F3 : next_out fsa = next_out fs) by (rewrite F; reflexivity).
  assert (F4 : next_write fsa = next_write fs) by (rewrite F; reflexivity).
  assert (F5 : remaining fsa = remaining fs) by (rewrite F; reflexivity).
  assert (F6 : in_flash_mode fsa = in_flash_mode fs)
    by (rewrite F; reflexivity).
  rewrite F1, F2, F3 in E.
  set (r := tinfl_decompress _ _ _ _ _ _ _) in *.
  apply Z.leb_le in Hd. rewrite Hd in E. cbn [orb] in E.
  match type of E with
  | match ?h with _ => _ end = _ => destruct h as [[fs3 w3]|] eqn:D
  end; [|discriminate].
  apply handle_flash_data_spec in D.
  destruct D as (fsb & wb & _ & Hw & Hfs).
  cbn [set_inflate next_write next_out out_buf inflator remaining
       in_flash_mode] in Hw, Hfs.
  rewrite F4 in Hw. rewrite F4, F5, F6 in Hfs.
  assert (Hn : (TINFL_STATUS_DONE <? tr_status r) = false)
    by (apply Z.ltb_ge; apply Z.leb_le; exact Hd).
  destruct fuel as [|fuel]; cbn [deflate_loop] in E;
    rewrite Hn, andb_false_r in E; injection E as <- <- <-;
    exists r, wb; rewrite Hfs;
    cbn [set_next_out set_inflate next_write next_out out_buf inflator
         remaining in_flash_mode];
    repeat split; exact Hw.
Qed.

(** Where the final status of the loop comes from: either the loop did
    not run, or it is the status of the decoder call of the last
    iteration, whose decoder state and output are those left in the
    session and after which the loop condition is false. *)
Lemma deflate_loop_last_call (fuel : nat) :
  forall (fs : flash_state) (w : spi_trace) (data_buf : list byte)
         (length status : Z) (fs' : flash_state) (w' : spi_trace)
         (status' : Z),
    deflate_loop fuel fs w data_buf length status = Some (fs', w', status') ->
    ((0 <? length) && (0 <? remaining fs) && (TINFL_STATUS_DONE <? status)
     = false /\ fs' = fs /\ w' = w /\ status' = status) \/
    exists d in_buf in_size obuf pos flags r,
      r = tinfl_decompress d in_buf in_size obuf pos (OUT_BUF_SIZE - pos)
            flags /\
      0 < in_size /\
      (flags = TINFL_FLAG_PARSE_ZLIB_HEADER \/
       flags = Z.lor TINFL_FLAG_PARSE_ZLIB_HEADER TINFL_FLAG_HAS_MORE_INPUT) /\
      status' = tr_status r /\
      inflator fs' = tr_inflator r /\
      out_buf fs' = tr_out_buf r /\
      (next_out fs' = 0 \/ next_out fs' = pos + tr_out_bytes r) /\
      (0 <? to_uint32 (in_size - tr_in_bytes r)) && (0 <? remaining fs')
      && (TINFL_STATUS_DONE <? tr_status r) = false.
Proof.
  induction fuel as [|fuel IH]; intros fs w data_buf length status
    fs' w' status' E; cbn [deflate_loop] in E;
    destruct ((0 <? length) && (0 <? remaining fs)
              && (TINFL_STATUS_DONE <? status)) eqn:Hc;
    try discriminate;
    try (injection E as <- <- <-; left; auto).
  right.
  apply andb_true_iff in Hc. destruct Hc as [Hc _].
  apply andb_true_iff in Hc. destruct Hc as [Hl _]. apply Z.ltb_lt in Hl.
  pose proof (start_next_erase_frame fs w) as F.
  destruct (start_next_erase fs w) as [fsa wa]. cbn [fst] in F.
  assert (F3 : next_out fs = next_out fsa) by (rewrite F; reflexivity).
  rewrite F3 in E.
  set (flags := if length <? remaining_compressed fs then _ else _) in *.
  assert (Hflags : flags = TINFL_FLAG_PARSE_ZLIB_HEADER \/
                   flags = Z.lor TINFL_FLAG_PARSE_ZLIB_HEADER
                             TINFL_FLAG_HAS_MORE_INPUT)
    by (subst flags; destruct (length <? remaining_compressed fs); auto).
  clearbody flags.
  set (r := tinfl_decompress _ _ _ _ _ _ _) in *.
  match type of E with
  | (if ?c then _ else _) = _ => destruct c eqn:Cf
  end.
  - match type of E with
    | match ?h with _ => _ end = _ => destruct h as [[fs3 w3]|] eqn:D
    end; [|discriminate].
    apply handle_flash_data_spec in D.
    destruct D as (fsb & wb & _ & _ & Hfs).
    cbn [set_inflate next_write next_out out_buf inflator remaining
         in_flash_mode] in Hfs.
    apply IH in E. destruct E as [(Hc' & -> & -> & ->)|E]; [|exact E].
    exists (inflator fsa), data_buf, length, (out_buf fsa), (next_out fsa),
      flags, r.
    rewrite Hfs in *.
    cbn [set_next_out set_inflate next_write next_out out_buf inflator
         remaining in_flash_mode] in *.
    repeat split; auto.
  - apply IH in E. destruct E as [(Hc' & -> & -> & ->)|E]; [|exact E].
    exists (inflator fsa), data_buf, length, (out_buf fsa), (next_out fsa),
      flags, r.
    cbn [set_next_out set_inflate next_write next_out out_buf inflator
         remaining in_flash_mode] in *.
    repeat split; auto.
Qed.
Lemma deflate_loop_in_flash_mode (fuel : nat) (fs : flash_state)
    (w : spi_trace) (data_buf : list byte) (length status : Z)
    (fs' : flash_state) (w' : spi_trace) (status' : Z) :
  deflate_loop fuel fs w data_buf length status = Some (fs', w', status') ->
  in_flash_mode fs' = in_flash_mode fs.
Proof.
  intros E.
  change (in_flash_mode (fst (fs', w')) = in_flash_mode fs).
  eapply (deflate_loop_preserves
            (fun c => in_flash_mode (fst c) = in_flash_mode fs));
    [| | | | |exact E|reflexivity]; cbn [fst]; try (intros; assumption).
  intros fs0 w0 H. rewrite start_next_erase_frame. exact H.
Qed.

(** C4.  What [handle_flash_deflated_data] leaves in [last_error], on
    every call that returns, from the status the decoder reported last and
    the [remaining] count: a decoder error with bytes still expected gives
    [ESP_INFLATE_ERROR]; stream complete with bytes still expected gives
    [ESP_NOT_ENOUGH_DATA]; stream not complete with no byte expected gives
    [ESP_TOO_MUCH_DATA]; in the other cases [last_error] is left alone.
    The status is that of the [tinfl_decompress] call of the last
    iteration of the loop (the initial needs-more-input when the loop does
    not run), and that of the first call when that call ends the stream or
    fails.  Nothing else of the state is touched by the resolution, the
    call has no error result of its own, [get_flash_error] reads what was
    recorded, and in an active session [handle_flash_end] then answers
    not-enough-data in the first two cases, leaving the session open, and
    returns the too-much-data error in the third, closing it. *)
Theorem deflated_data_error_resolution (fuel : nat) (fs : flash_state)
    (w : spi_trace) (data_buf : list byte) (length : Z)
    (fs' : flash_state) (w' : spi_trace) :
  handle_flash_deflated_data fuel fs w data_buf length = Some (fs', w') ->
  exists fs1 status,
    deflate_loop fuel fs w data_buf length TINFL_STATUS_NEEDS_MORE_INPUT
    = Some (fs1, w', status) /\
    fs' = set_last_error fs1 (last_error fs') /\
    (status < TINFL_STATUS_DONE -> 0 < remaining fs1 ->
     last_error fs' = ESP_INFLATE_ERROR) /\
    (status = TINFL_STATUS_DONE -> 0 < remaining fs1 ->
     last_error fs' = ESP_NOT_ENOUGH_DATA) /\
    (status <> TINFL_STATUS_DONE -> remaining fs1 = 0 ->
     last_error fs' = ESP_TOO_MUCH_DATA) /\
    (status = TINFL_STATUS_DONE -> remaining fs1 <= 0 ->
     last_error fs' = last_error fs1) /\
    (TINFL_STATUS_DONE < status -> remaining fs1 <> 0 ->
     last_error fs' = last_error fs1) /\
    get_flash_error fs' = last_error fs' /\
    remaining fs' = remaining fs1 /\
    (((0 <? length) && (0 <? remaining fs)
      && (TINFL_STATUS_DONE <? TINFL_STATUS_NEEDS_MORE_INPUT) = false /\
      fs1 = fs /\ w' = w /\ status = TINFL_STATUS_NEEDS_MORE_INPUT) \/
     exists d in_buf in_size obuf pos flags r,
       r = tinfl_decompress d in_buf in_size obuf pos (OUT_BUF_SIZE - pos)
             flags /\
       0 < in_size /\
       (flags = TINFL_FLAG_PARSE_ZLIB_HEADER \/
        flags = Z.lor TINFL_FLAG_PARSE_ZLIB_HEADER
                  TINFL_FLAG_HAS_MORE_INPUT) /\
       status = tr_status r /\
       inflator fs' = tr_inflator r /\
       out_buf fs' = tr_out_buf r /\
       (next_out fs' = 0 \/ next_out fs' = pos + tr_out_bytes r) /\
       (0 <? to_uint32 (in_size - tr_in_bytes r)) && (0 <? remaining fs')
       && (TINFL_STATUS_DONE <? tr_status r) = false) /\
    (0 < length -> 0 < remaining fs ->
     TINFL_STATUS_DONE < TINFL_STATUS_NEEDS_MORE_INPUT ->
     let r0 :=
       tinfl_decompress (inflator fs) data_buf length (out_buf fs)
         (next_out fs) (OUT_BUF_SIZE - next_out fs)
         (if length <? remaining_compressed fs
          then Z.lor TINFL_FLAG_PARSE_ZLIB_HEADER TINFL_FLAG_HAS_MORE_INPUT
          else TINFL_FLAG_PARSE_ZLIB_HEADER) in
     tr_status r0 <= TINFL_STATUS_DONE ->
     status = tr_status r0 /\
     remaining fs'
     = to_uint32 (remaining fs - (next_out fs + tr_out_bytes r0)) /\
     (tr_status r0 < TINFL_STATUS_DONE -> 0 < remaining fs' ->
      get_flash_error fs' = ESP_INFLATE_ERROR) /\
     (tr_status r0 = TINFL_STATUS_DONE -> 0 < remaining fs' ->
      get_flash_error fs' = ESP_NOT_ENOUGH_DATA) /\
     (tr_status r0 < TINFL_STATUS_DONE -> remaining fs' = 0 ->
      get_flash_error fs' = ESP_TOO_MUCH_DATA)) /\
    (in_flash_mode fs = true ->
     (status < TINFL_STATUS_DONE -> 0 < remaining fs' ->
      get_flash_error fs' = ESP_INFLATE_ERROR /\
      handle_flash_end fs' = (ESP_NOT_ENOUGH_DATA, fs')) /\
     (status = TINFL_STATUS_DONE -> 0 < remaining fs' ->
      get_flash_error fs' = ESP_NOT_ENOUGH_DATA /\
      handle_flash_end fs' = (ESP_NOT_ENOUGH_DATA, fs')) /\
     (status <> TINFL_STATUS_DONE -> remaining fs' = 0 ->
      get_flash_error fs' = ESP_TOO_MUCH_DATA /\
      fst (handle_flash_end fs') = ESP_TOO_MUCH_DATA /\
      in_flash_mode (snd (handle_flash_end fs')) = false)).
Proof.
  unfold handle_flash_deflated_data. intros E.
  destruct (deflate_loop fuel fs w data_buf length
              TINFL_STATUS_NEEDS_MORE_INPUT) as [[[fs1 w1] status]|] eqn:L;
    [|discriminate].
  injection E as <- <-. exists fs1, status. split; [reflexivity|].
  set (fs' :=
         if negb (status =? TINFL_STATUS_DONE) && (remaining _ =? 0)
         then _ else _).
  assert (Hfs : fs' = set_last_error fs1 (last_error fs')).
  { subst fs'.
    repeat match goal with
    | |- context [if ?c then _ else _] => destruct c
    end; now destruct fs1. }
  assert (Hrem : remaining fs' = remaining fs1) by (rewrite Hfs; reflexivity).
  assert (Hmode : in_flash_mode fs' = in_flash_mode fs).
  { rewrite Hfs. cbn [in_flash_mode set_last_error].
    eapply deflate_loop_in_flash_mode; exact L. }
  assert (H1 : status < TINFL_STATUS_DONE -> 0 < remaining fs1 ->
               last_error fs' = ESP_INFLATE_ERROR).
  { intros A B. subst fs'.
    apply Z.ltb_lt in A. rewrite A.
    assert (C : (status =? TINFL_STATUS_DONE) = false)
      by (apply Z.eqb_neq; apply Z.ltb_lt in A; lia).
    rewrite C. cbn [negb andb set_last_error remaining].
    assert (D : (remaining fs1 =? 0) = false) by (apply Z.eqb_neq; lia).
    rewrite D. reflexivity. }
  assert (H2 : status = TINFL_STATUS_DONE -> 0 < remaining fs1 ->
               last_error fs' = ESP_NOT_ENOUGH_DATA).
  { intros A B. subst fs'. rewrite A, Z.ltb_irrefl, Z.eqb_refl.
    apply Z.ltb_lt in B. rewrite B. reflexivity. }
  assert (H3 : status <> TINFL_STATUS_DONE -> remaining fs1 = 0 ->
               last_error fs' = ESP_TOO_MUCH_DATA).
  { intros A B. subst fs'. apply Z.eqb_neq in A. rewrite A.
    cbn [negb andb].
    destruct (status <? TINFL_STATUS_DONE);
      cbn [set_last_error remaining]; rewrite B; reflexivity. }
  assert (H4 : status = TINFL_STATUS_DONE -> remaining fs1 <= 0 ->
               last_error fs' = last_error fs1).
  { intros A B. subst fs'. rewrite A, Z.ltb_irrefl, Z.eqb_refl.
    apply Z.ltb_ge in B. rewrite B. reflexivity. }
  assert (H5 : TINFL_STATUS_DONE < status -> remaining fs1 <> 0 ->
               last_error fs' = last_error fs1).
  { intros A B. subst fs'.
    assert (C : (status <? TINFL_STATUS_DONE) = false)
      by (apply Z.ltb_ge; lia).
    assert (D : (status =? TINFL_STATUS_DONE) = false)
      by (apply Z.eqb_neq; lia).
    apply Z.eqb_neq in B. rewrite C, D. cbn [negb andb]. rewrite B.
    reflexivity. }
  clearbody fs'.
  do 2 (split; [assumption|]).
  do 4 (split; [assumption|]).
  split; [reflexivity|]. split; [exact Hrem|].
  split.
  { destruct (deflate_loop_last_call _ _ _ _ _ _ _ _ _ L)
      as [Hidle|(d & in_buf & in_size & obuf & pos & flags & r & Hr)].
    - left. exact Hidle.
    - right. exists d, in_buf, in_size, obuf, pos, flags, r.
      rewrite Hrem, Hfs. exact Hr. }
  split.
  { intros Hl Hr Hs Hd.
    destruct (deflate_loop_first_call _ _ _ _ _ _ _ _ _ L Hl Hr Hs Hd)
      as (r & w0 & -> & Hst & _ & _ & _ & Hrm & _).
    split; [exact Hst|]. rewrite Hrem. split; [exact Hrm|].
    rewrite <- Hst. unfold get_flash_error.
    split; [exact H1|]. split; [exact H2|].
    intros A. apply H3. lia. }
  intros Hact. rewrite Hact in Hmode. unfold get_flash_error.
  rewrite Hrem.
  split; [|split].
  - intros A B. split; [now apply H1|].
    apply handle_flash_end_short; [exact Hmode|lia].
  - intros A B. split; [now apply H2|].
    apply handle_flash_end_short; [exact Hmode|lia].
  - intros A B. split; [now apply H3|].
    rewrite handle_flash_end_complete by (try exact Hmode; lia).
    cbn [fst snd in_flash_mode set_in_flash_mode].
    split; [now apply H3|reflexivity].
Qed.

(** ** The sticky error *)

Lemma last_error_start_next_erase (fs : flash_state) (w : spi_trace) :
  last_error (fst (start_next_erase fs w)) = last_error fs.
Proof. rewrite start_next_erase_frame. reflexivity. Qed.

Lemma handle_flash_deflated_begin_state (fs : flash_state) (w : spi_trace)
    (uncompressed_size compressed_size offset : Z) :
  handle_flash_deflated_begin fs w uncompressed_size compressed_size offset =
  (fst (fst (handle_flash_begin fs w uncompressed_size offset)),
   set_inflate (snd (fst (handle_flash_begin fs w uncompressed_size offset)))
     (tinfl_init (inflator fs)) compressed_size (out_buf fs) (next_out fs),
   snd (handle_flash_begin fs w uncompressed_size offset)).
Proof.
  unfold handle_flash_deflated_begin, handle_flash_begin.
  destruct (negb (SPIUnlock w =? 0)); reflexivity.
Qed.

(** C9.  Once [last_error] is not [ESP_OK], no sequence of scheduler
    runs, raw data packets, deflated data packets and end requests makes
    it [ESP_OK] again (the two queries only read the state); both begin
    handlers set it to [ESP_OK]. *)
Theorem last_error_sticky (c c' : flash_state * spi_trace) :
  session_steps c c' ->
  last_error (fst c) <> ESP_OK ->
  last_error (fst c') <> ESP_OK /\
  get_flash_error (fst c') = last_error (fst c') /\
  is_in_flash_mode (fst c') = in_flash_mode (fst c') /\
  (forall total_size offset,
     last_error
       (snd (fst (handle_flash_begin (fst c') (snd c') total_size offset)))
     = ESP_OK) /\
  (forall uncompressed_size compressed_size offset,
     last_error
       (snd (fst (handle_flash_deflated_begin (fst c') (snd c')
                    uncompressed_size compressed_size offset)))
     = ESP_OK).
Proof.
  intros Hsteps Herr. split.
  - revert Herr.
    apply (session_steps_preserves
             (fun c => last_error (fst c) <> ESP_OK)); try exact Hsteps;
      intros; simpl in *; try assumption.
    now rewrite last_error_start_next_erase.
  - split; [reflexivity|]. split; [reflexivity|]. split; intros.
    + now rewrite handle_flash_begin_state.
    + rewrite handle_flash_deflated_begin_state. cbn [fst snd].
      now rewrite handle_flash_begin_state.
Qed.

(** ** Delivering more than was declared *)

(** C10 (as amended).  In a session begun with [total_size], after raw
    packets of [n] bytes in all, [remaining] is [(total_size - n) mod 2^32]:
    the counter wraps and does not saturate.  Whenever [n] exceeds
    [total_size] by something that is not a multiple of 2^32 (any excess
    below 2^32, for one) [remaining] is the non-zero value
    [2^32 - (n - total_size) mod 2^32] and [handle_flash_end] answers
    [ESP_NOT_ENOUGH_DATA], leaving the session open; when the excess is a
    multiple of 2^32, [remaining] is 0 and [handle_flash_end] closes the
    session with [last_error]. *)
Theorem remaining_wraps_around (fs : flash_state) (w : spi_trace)
    (total_size offset : Z) (fuel : nat) (chunks : list (list byte * Z))
    (fs' : flash_state) (w' : spi_trace) :
  uint32 total_size -> uint32 offset ->
  handle_flash_data_seq fuel
    (snd (fst (handle_flash_begin fs w total_size offset)))
    (snd (handle_flash_begin fs w total_size offset)) chunks
  = Some (fs', w') ->
  remaining fs' = (total_size - total_length chunks) mod 2 ^ 32 /\
  ((total_length chunks - total_size) mod 2 ^ 32 <> 0 ->
   remaining fs' = 2 ^ 32 - (total_length chunks - total_size) mod 2 ^ 32 /\
   0 < remaining fs' /\
   handle_flash_end fs' = (ESP_NOT_ENOUGH_DATA, fs')) /\
  (total_size < total_length chunks < total_size + 2 ^ 32 ->
   remaining fs' = 2 ^ 32 - (total_length chunks - total_size) /\
   handle_flash_end fs' = (ESP_NOT_ENOUGH_DATA, fs')) /\
  ((total_length chunks - total_size) mod 2 ^ 32 = 0 ->
   remaining fs' = 0 /\
   handle_flash_end fs' = (last_error fs', set_in_flash_mode fs' false)).
Proof.
  intros Ht Ho E. rewrite handle_flash_begin_state in E.
  apply handle_flash_data_seq_spec in E; [|exact Ho|exact Ht].
  cbn [next_write remaining in_flash_mode] in E.
  destruct E as (_ & Hrem & Hmode & _). unfold to_uint32 in Hrem.
  set (n := total_length chunks) in *.
  assert (Hneg : (total_size - n) mod 2 ^ 32 = (- (n - total_size)) mod 2 ^ 32)
    by (f_equal; lia).
  assert (Hnz : (n - total_size) mod 2 ^ 32 <> 0 ->
          remaining fs' = 2 ^ 32 - (n - total_size) mod 2 ^ 32 /\
          0 < remaining fs' /\
          handle_flash_end fs' = (ESP_NOT_ENOUGH_DATA, fs')).
  { intros Hx.
    assert (Hv : remaining fs' = 2 ^ 32 - (n - total_size) mod 2 ^ 32).
    { rewrite Hrem, Hneg. apply Z.mod_opp_l_nz; lia. }
    pose proof (Z.mod_pos_bound (n - total_size) (2 ^ 32) ltac:(lia)).
    split; [exact Hv|]. split; [lia|].
    apply handle_flash_end_short; [exact Hmode|lia]. }
  split; [exact Hrem|]. split; [exact Hnz|]. split.
  - intros Hx.
    assert (Hm : (n - total_size) mod 2 ^ 32 = n - total_size)
      by (apply Z.mod_small; lia).
    destruct Hnz as (Hv & _ & He); [lia|]. rewrite Hm in Hv. auto.
  - intros Hx.
    assert (Hz : remaining fs' = 0).
    { rewrite Hrem, Hneg. apply Z.mod_opp_l_z; lia. }
    split; [exact Hz|].
    apply handle_flash_end_complete; [exact Hmode|lia].
Qed.


(** The hypothesis of C5 holds throughout a session. *)
Lemma session_erase_counters_ok `{!PlatformOk P} (fs : flash_state)
    (w : spi_trace) (total_size offset : Z)
    (c' : flash_state * spi_trace) :
  uint32 total_size -> uint32 offset ->
  session_steps
    (snd (fst (handle_flash_begin fs w total_size offset)),
     snd (handle_flash_begin fs w total_size offset)) c' ->
  erase_counters_ok (fst c').
Proof.
  intros Ht Ho Hsteps.
  destruct (begin_erase_inv fs w total_size offset Ht Ho)
    as (limit & _ & Hinv).
  apply (erase_inv_session_steps _ _ _ _ _ Hsteps) in Hinv.
  eapply erase_inv_counters; eauto.
Qed.

(** ** The erase catch-up loop *)

Lemma start_next_erase_sum `{!PlatformOk P} (fs : flash_state)
    (w : spi_trace) :
  erase_counters_ok fs ->
  next_erase_sector (fst (start_next_erase fs w))
  + remaining_erase_sector (fst (start_next_erase fs w))
  = next_erase_sector fs + remaining_erase_sector fs.
Proof.
  intros Hok.
  pose proof (start_next_erase_idle fs w) as A.
  pose proof (start_next_erase_busy fs w) as B.
  pose proof (start_next_erase_unit fs w Hok) as C.
  destruct (Z.eq_dec (remaining_erase_sector fs) 0) as [Z0|NZ].
  - now rewrite (A Z0).
  - destruct (fst (spiflash_is_ready w)) eqn:R.
    + destruct (C NZ eq_refl) as (c & n & a & E & _).
      rewrite E. simpl. lia.
    + now rewrite (B NZ eq_refl).
Qed.

(** The loop cannot end when the sector it must reach lies beyond what
    the session has left to erase: the scheduler stops advancing at
    [next_erase_sector + remaining_erase_sector]. *)
Lemma erase_until_starves `{!PlatformOk P} (last_sector : Z) (fuel : nat) :
  forall fs w,
    erase_counters_ok fs ->
    next_erase_sector fs + remaining_erase_sector fs < last_sector ->
    erase_until fuel last_sector fs w = None.
Proof.
  induction fuel as [|fuel IH]; intros fs w Hok Hlt;
    pose proof Hok as (Hn & Hr & _); cbn [erase_until];
    destruct (next_erase_sector fs <? last_sector) eqn:C;
    bool_to_prop; try lia; try reflexivity.
  pose proof (start_next_erase_sum fs w Hok) as Hsum.
  pose proof (start_next_erase_counters fs w Hok) as Hok'.
  destruct (start_next_erase fs w) as [fs1 w1]. simpl in Hsum, Hok'.
  apply IH; [exact Hok'|lia].
Qed.

(** C7, the failing session.  On every platform: begin a session of two
    bytes at the last byte of sector 0 and send those two bytes.  The
    packet lies within the declared range, one sector is scheduled, the
    write ends in sector 1, and the catch-up loop of [handle_flash_data]
    never ends, whatever the flash answers: no amount of fuel lets the
    call return. *)
Theorem unaligned_session_never_catches_up `{!PlatformOk P}
    (fs : flash_state) (w : spi_trace) (data_buf : list byte) (fuel : nat) :
  handle_flash_data fuel
    (snd (fst (handle_flash_begin fs w 2 (FLASH_SECTOR_SIZE - 1))))
    (snd (handle_flash_begin fs w 2 (FLASH_SECTOR_SIZE - 1)))
    data_buf 2
  = None.
Proof.
  pose proof sector_size_range as Hs.
  rewrite handle_flash_begin_state. unfold handle_flash_data.
  cbn [next_write].
  replace (FLASH_SECTOR_SIZE - 1 + 2 + FLASH_SECTOR_SIZE - 1)
    with (2 * FLASH_SECTOR_SIZE) by lia.
  rewrite (to_uint32_id (2 * FLASH_SECTOR_SIZE)) by lia.
  rewrite Z.div_mul by lia.
  rewrite (Z.div_small (FLASH_SECTOR_SIZE - 1)) by lia.
  replace (2 + FLASH_SECTOR_SIZE - 1) with (1 * FLASH_SECTOR_SIZE + 1) by lia.
  rewrite (to_uint32_id (1 * FLASH_SECTOR_SIZE + 1)) by lia.
  rewrite Z.div_add_l, (Z.div_small 1) by lia.
  rewrite !to_int_id by lia.
  rewrite erase_until_starves; [reflexivity| |]; unfold erase_counters_ok;
    cbn [next_erase_sector remaining_erase_sector]; unfold INT_MAX; lia.
Qed.

(** When the flash does become ready and the session has enough sectors
    left to erase, the loop ends with the cursor at or past its goal. *)
Lemma erase_until_terminates `{!PlatformOk P} (last_sector : Z) :
  eventually_ready ->
  forall fs w,
    erase_counters_ok fs ->
    last_sector <= next_erase_sector fs + remaining_erase_sector fs ->
    exists fuel fs1 w1,
      erase_until fuel last_sector fs w = Some (fs1, w1) /\
      last_sector <= next_erase_sector fs1.
Proof.
  intros Hready.
  assert (Hdone : forall fs w, last_sector <= next_erase_sector fs ->
            exists fuel fs1 w1,
              erase_until fuel last_sector fs w = Some (fs1, w1) /\
              last_sector <= next_erase_sector fs1).
  { intros fs w Hle. exists O, fs, w. cbn [erase_until].
    destruct (next_erase_sector fs <? last_sector) eqn:C; bool_to_prop;
      [lia|auto]. }
  assert (Hstep : forall fuel fs w r,
            next_erase_sector fs < last_sector ->
            erase_until fuel last_sector (fst (start_next_erase fs w))
              (snd (start_next_erase fs w)) = Some r ->
            erase_until (S fuel) last_sector fs w = Some r).
  { intros fuel fs w r Hlt E. cbn [erase_until].
    apply Z.ltb_lt in Hlt. rewrite Hlt.
    now destruct (start_next_erase fs w). }
  intros fs w. remember (Z.to_nat (last_sector - next_erase_sector fs)) as m.
  revert fs w Heqm.
  induction m as [m IHm] using lt_wf_ind. intros fs w Hm Hok Hle.
  destruct (Z_le_gt_dec last_sector (next_erase_sector fs)) as [Hd|Hlt];
    [now apply Hdone|].
  assert (Hnow : forall w, fst (spiflash_is_ready w) = true ->
            exists fuel fs1 w1,
              erase_until fuel last_sector fs w = Some (fs1, w1) /\
              last_sector <= next_erase_sector fs1).
  { (* ready: one unit is erased and the distance shrinks *)
    intros w0 R.
    pose proof (start_next_erase_unit fs w0 Hok) as C.
    destruct C as (c & k & a & E & _ & _ & _ & Hk);
      [destruct Hok; lia|exact R|].
    pose proof (start_next_erase_counters fs w0 Hok) as Hok'.
    destruct (IHm (Z.to_nat (last_sector - (next_erase_sector fs + k))))
      with (fs := fst (start_next_erase fs w0))
           (w := snd (start_next_erase fs w0))
      as (fuel & fs1 & w1 & E1 & H1).
    - lia.
    - rewrite E. reflexivity.
    - exact Hok'.
    - rewrite E. simpl. lia.
    - exists (S fuel), fs1, w1. split; [|exact H1].
      apply Hstep; [lia|exact E1]. }
  destruct (Hready w) as [n Hn]. revert w Hn.
  induction n as [|n IHn]; intros w Hn; [now apply Hnow|].
  destruct (fst (spiflash_is_ready w)) eqn:R; [now apply Hnow|].
  (* busy: one more status read *)
  pose proof (start_next_erase_busy fs w) as B.
  specialize (B ltac:(destruct Hok; lia) R).
  destruct (IHn (EvReadStatus :: w)) as (fuel & fs1 & w1 & E1 & H1).
  - rewrite <- Hn. f_equal. f_equal.
    change (repeat EvReadStatus (S n) ++ w)
      with ((EvReadStatus :: repeat EvReadStatus n) ++ w).
    rewrite repeat_cons, <- app_assoc. reflexivity.
  - exists (S fuel), fs1, w1. split; [|exact H1].
    apply Hstep; [lia|]. rewrite B. exact E1.
Qed.






(** The loop keeps the counters in range and their sum unchanged. *)
Lemma erase_until_counters `{!PlatformOk P} (fuel : nat) (last_sector : Z)
    (fs : flash_state) (w : spi_trace) (fs1 : flash_state)
    (w1 : spi_trace) :
  erase_until fuel last_sector fs w = Some (fs1, w1) ->
  erase_counters_ok fs ->
  erase_counters_ok fs1 /\
  next_erase_sector fs1 + remaining_erase_sector fs1
  = next_erase_sector fs + remaining_erase_sector fs.
Proof.
  intros E Hok.
  pose (I := fun c : flash_state * spi_trace =>
               erase_counters_ok (fst c) /\
               next_erase_sector (fst c) + remaining_erase_sector (fst c)
               = next_erase_sector fs + remaining_erase_sector fs).
  change (I (fs1, w1)).
  apply (erase_until_preserves I) with (fuel := fuel)
    (last_sector := last_sector) (fs := fs) (w := w);
    [|exact E|split; [exact Hok|reflexivity]].
  intros fs0 w0 [H1 H2]. simpl in H1, H2. split.
  - now apply start_next_erase_counters.
  - now rewrite start_next_erase_sum.
Qed.



(** The value written to [SPI_ADDR_REG] for an erase unit is the byte
    address of its first sector as long as that address has 24 bits. *)
Lemma erase_address_of_sector (sector : Z) :
  0 <= sector * FLASH_SECTOR_SIZE < 2 ^ 24 ->
  Z.land (to_uint32 (sector * FLASH_SECTOR_SIZE)) 16777215
  = sector * FLASH_SECTOR_SIZE.
Proof.
  intros H. rewrite to_uint32_id by lia.
  change 16777215 with (Z.ones 24).
  rewrite Z.land_ones by lia. apply Z.mod_small. exact H.
Qed.


(** ** The erase commands as the flash receives them *)

Lemma flash_sectors_erased_app (evs w : spi_trace) :
  flash_sectors_erased (evs ++ w)
  = flash_sectors_erased evs ++ flash_sectors_erased w.
Proof.
  induction evs as [|e evs IH]; [reflexivity|].
  destruct e; cbn [flash_sectors_erased app]; rewrite IH; try reflexivity.
  now rewrite app_assoc.
Qed.

Lemma to_uint32_mod_2_24 (x : Z) : to_uint32 x mod 2 ^ 24 = x mod 2 ^ 24.
Proof.
  unfold to_uint32. rewrite (Z.mod_eq x (2 ^ 32)) by lia.
  replace (x - 2 ^ 32 * (x / 2 ^ 32))
    with (x + (- (256 * (x / 2 ^ 32))) * 2 ^ 24) by lia.
  apply Z_mod_plus_full.
Qed.

(** The sector addressed by the erase of scheduler sector [sector], when
    [sectors] sectors make up the 16 MiB that 24 address bits reach. *)
Lemma erase_address_sector (sectors sector : Z) :
  0 < FLASH_SECTOR_SIZE -> sectors * FLASH_SECTOR_SIZE = 2 ^ 24 ->
  Z.land (to_uint32 (sector * FLASH_SECTOR_SIZE)) 16777215
  / FLASH_SECTOR_SIZE
  = sector mod sectors.
Proof.
  intros Hs Hk. change 16777215 with (Z.ones 24).
  rewrite Z.land_ones by lia. rewrite to_uint32_mod_2_24.
  rewrite <- Hk. rewrite Z.mul_mod_distr_r by lia.
  apply Z.div_mul. lia.
Qed.

Lemma sector_range_one (first : Z) : sector_range first 1 = [first].
Proof. unfold sector_range. simpl. now rewrite Z.add_0_r. Qed.

Lemma sector_range_mod (sectors first n : Z) :
  0 < n -> (n | first) -> (n | sectors) -> 0 < sectors ->
  sector_range (first mod sectors) n
  = map (fun s => s mod sectors) (sector_range first n).
Proof.
  intros Hn [a Ha] [b Hb] Hk. unfold sector_range. rewrite map_map.
  apply map_ext_in. intros i Hi. apply in_seq in Hi.
  pose proof (Z.mod_pos_bound first sectors Hk) as Hm.
  assert (Hd : (n | first mod sectors)).
  { rewrite Z.mod_eq by lia. apply Z.divide_sub_r.
    - exists a. exact Ha.
    - apply Z.divide_mul_l. exists b. exact Hb. }
  destruct Hd as [c Hc].
  assert (Hfit : first mod sectors + Z.of_nat i < sectors).
  { assert (Hcb : c < b) by nia.
    assert (c * n + n <= b * n) by nia. lia. }
  rewrite Z.add_mod by lia.
  rewrite (Z.mod_small (Z.of_nat i)) by lia.
  symmetry. apply Z.mod_small. lia.
Qed.

(** The sectors the flash erases are the scheduler's, taken modulo the
    number of sectors in 16 MiB. *)
Lemma flash_sectors_erased_mod `{!PlatformOk P} (sectors : Z)
    (evs : spi_trace) :
  sectors * FLASH_SECTOR_SIZE = 2 ^ 24 -> (SECTORS_PER_BLOCK | sectors) ->
  Forall erase_event_wf evs ->
  flash_sectors_erased evs
  = map (fun s => s mod sectors) (erased_sectors evs).
Proof.
  intros Hk Hb Hwf. pose proof sector_size_range as Hs.
  pose proof sectors_per_block_range as Hspb.
  assert (Hpos : 0 < sectors) by nia.
  induction Hwf as [|e evs He Hwf IH]; [reflexivity|].
  destruct e as [| |command addr sector nsectors|];
    cbn [flash_sectors_erased erased_sectors]; try exact IH.
  destruct He as (-> & -> & H0 & Hal).
  rewrite map_app, IH. f_equal.
  rewrite (erase_address_sector sectors) by (lia || assumption).
  destruct command; cbn [sectors_of_command].
  - rewrite !sector_range_one. reflexivity.
  - apply sector_range_mod; try lia; auto.
Qed.

Lemma mod_window_injective (sectors first count x y : Z) :
  0 < sectors -> count <= sectors ->
  first <= x < first + count -> first <= y < first + count ->
  x mod sectors = y mod sectors -> x = y.
Proof.
  intros Hk Hc Hx Hy E.
  pose proof (Z.div_mod x sectors) as Dx.
  pose proof (Z.div_mod y sectors) as Dy.
  assert (x / sectors = y / sectors) by nia.
  rewrite Dx, Dy by lia. congruence.
Qed.

Lemma NoDup_flash_sectors (sectors first count : Z) (l : list Z) :
  0 < sectors -> count <= sectors ->
  Forall (fun s => first <= s < first + count) l ->
  NoDup l -> NoDup (map (fun s => s mod sectors) l).
Proof.
  intros Hk Hc Hall Hnd. apply NoDup_map_NoDup_ForallPairs; [|exact Hnd].
  intros x y Hx Hy E. rewrite Forall_forall in Hall.
  eapply mod_window_injective; eauto.
Qed.

(** The erase events of a session are those the scheduler forms. *)
Lemma erase_events_wf_session_steps `{!PlatformOk P} (first limit : Z)
    (w0 : spi_trace) (c c' : flash_state * spi_trace) :
  session_steps c c' ->
  erase_inv first limit w0 c /\
  (exists evs, snd c = evs ++ w0 /\ Forall erase_event_wf evs) ->
  erase_inv first limit w0 c' /\
  (exists evs, snd c' = evs ++ w0 /\ Forall erase_event_wf evs).
Proof.
  pose proof sectors_per_block_range as Hspb.
  apply (session_steps_preserves
           (fun x => erase_inv first limit w0 x /\
                     exists evs, snd x = evs ++ w0 /\
                                 Forall erase_event_wf evs)).
  - intros fs w [Hinv (evs & Hw & Hwf)].
    split; [now apply erase_inv_start_next_erase|].
    cbn [snd] in Hw.
    destruct (Z.eq_dec (remaining_erase_sector fs) 0) as [Z0|NZ].
    { rewrite (start_next_erase_idle fs w Z0). exists evs. auto. }
    destruct (fst (spiflash_is_ready w)) eqn:R.
    + destruct (start_next_erase_ready fs w NZ R)
        as (cmd & n & E & Hbe & Hnb & Hns).
      rewrite E. cbn [snd].
      eexists (EvErase cmd _ (next_erase_sector fs) n :: EvReadStatus :: evs).
      rewrite Hw. split; [reflexivity|].
      constructor; [|constructor; [exact I|exact Hwf]].
      cbn [erase_event_wf]. split; [reflexivity|].
      destruct Hinv as (_ & _ & _ & _ & Hf & _). cbn [fst] in Hf.
      split; [destruct cmd; cbn [sectors_of_command]; auto|].
      split; [lia|].
      intros ->. destruct Hbe as [Hbe _]. destruct (Hbe eq_refl) as [_ Hrem].
      apply Z.rem_divide; [lia|exact Hrem].
    + rewrite (start_next_erase_busy fs w NZ R). cbn [snd].
      exists (EvReadStatus :: evs). rewrite Hw. split; [reflexivity|].
      constructor; [exact I|exact Hwf].
  - intros fs w addr buf len [Hinv (evs & Hw & Hwf)].
    split; [now apply erase_inv_write_event|].
    cbn [snd] in *. exists (EvWrite addr buf len :: evs). rewrite Hw.
    split; [reflexivity|]. constructor; [exact I|exact Hwf].
  - intros fs w e _ [Hinv Hev]. split; [|exact Hev].
    eapply erase_inv_frame; [| |exact Hinv]; reflexivity.
  - intros fs w a b [Hinv Hev]. split; [|exact Hev].
    eapply erase_inv_frame; [| |exact Hinv]; reflexivity.
  - intros fs w d rc buf out [Hinv Hev]. split; [|exact Hev].
    eapply erase_inv_frame; [| |exact Hinv]; reflexivity.
  - intros fs w b [Hinv Hev]. split; [|exact Hev].
    eapply erase_inv_frame; [| |exact Hinv]; reflexivity.
Qed.

(** Everything the proofs below use about the erase events of a session:
    they are the scheduler's, its sector numbers are pairwise distinct and
    run from the sector of [offset] to the erase cursor, and the cursor
    stays below the sector of [offset] plus the count set by begin. *)
Lemma session_erase_events `{!PlatformOk P} (fs : flash_state)
    (w : spi_trace) (total_size offset : Z) (c' : flash_state * spi_trace) :
  uint32 total_size -> uint32 offset ->
  session_steps
    (snd (fst (handle_flash_begin fs w total_size offset)),
     snd (handle_flash_begin fs w total_size offset)) c' ->
  exists evs : spi_trace,
    snd c' = evs ++ snd (handle_flash_begin fs w total_size offset) /\
    Forall erase_event_wf evs /\
    NoDup (erased_sectors evs) /\
    Forall (fun s => offset / FLASH_SECTOR_SIZE <= s
                     < next_erase_sector (fst c')) (erased_sectors evs) /\
    0 <= offset / FLASH_SECTOR_SIZE /\
    next_erase_sector (fst c')
    <= offset / FLASH_SECTOR_SIZE
       + remaining_erase_sector
           (snd (fst (handle_flash_begin fs w total_size offset))) /\
    offset / FLASH_SECTOR_SIZE
    + remaining_erase_sector
        (snd (fst (handle_flash_begin fs w total_size offset)))
    <= ceil_div (offset + total_size) FLASH_SECTOR_SIZE.
Proof.
  intros Ht Ho Hsteps.
  destruct (begin_erase_inv fs w total_size offset Ht Ho)
    as (limit & Hlim & Hinv).
  destruct (begin_erase_counters total_size offset Ht Ho)
    as (E1 & H1 & H2 & _).
  assert (Hcount :
            offset / FLASH_SECTOR_SIZE
            + remaining_erase_sector
                (snd (fst (handle_flash_begin fs w total_size offset)))
            = limit).
  { destruct Hinv as (_ & _ & _ & _ & _ & _ & Hsum & _).
    cbn [fst] in Hsum. rewrite handle_flash_begin_state in Hsum |- *.
    cbn [next_erase_sector remaining_erase_sector] in Hsum |- *. lia. }
  destruct (erase_events_wf_session_steps (offset / FLASH_SECTOR_SIZE) limit
              (snd (handle_flash_begin fs w total_size offset)) _ _ Hsteps)
    as [Hinv' Hev].
  { split; [exact Hinv|]. exists []. split; [reflexivity|constructor]. }
  destruct Hinv' as (evs & Hw & Hnd & Hall & Hf & Hr & Hsum & _).
  destruct Hev as (evs' & Hw' & Hwf).
  assert (evs' = evs) by (rewrite Hw in Hw'; now apply app_inv_tail in Hw').
  subst evs'. exists evs.
  repeat (split; [assumption || lia|]). lia.
Qed.

(** C6 (as amended).  After [handle_flash_begin total_size offset] has
    scheduled no more sectors than 16 MiB hold, on a part whose block size
    in bytes divides 16 MiB: whatever sequence of scheduler invocations,
    data packets (raw or deflated) and end requests follows, the sectors
    that the erase commands sent since the begin cover, read from the
    command and the 24-bit address alone, are pairwise distinct, and none
    is at or beyond [ceil ((offset + total_size) / FLASH_SECTOR_SIZE)];
    when the image ends within the first 16 MiB none lies below the sector
    of [offset] either. *)
Theorem flash_sectors_erased_distinct_and_bounded `{!PlatformOk P}
    (fs : flash_state) (w : spi_trace) (total_size offset : Z)
    (c' : flash_state * spi_trace) :
  uint32 total_size -> uint32 offset ->
  (FLASH_SECTOR_SIZE * SECTORS_PER_BLOCK | 2 ^ 24) ->
  remaining_erase_sector
    (snd (fst (handle_flash_begin fs w total_size offset)))
  * FLASH_SECTOR_SIZE <= 2 ^ 24 ->
  session_steps
    (snd (fst (handle_flash_begin fs w total_size offset)),
     snd (handle_flash_begin fs w total_size offset)) c' ->
  exists evs : spi_trace,
    snd c' = evs ++ snd (handle_flash_begin fs w total_size offset) /\
    NoDup (flash_sectors_erased evs) /\
    Forall (fun s => 0 <= s
                     < ceil_div (offset + total_size) FLASH_SECTOR_SIZE)
      (flash_sectors_erased evs) /\
    (offset + total_size <= 2 ^ 24 ->
     Forall (fun s => offset / FLASH_SECTOR_SIZE <= s)
       (flash_sectors_erased evs)).
Proof.
  intros Ht Ho [k Hk] Hcount Hsteps.
  pose proof sector_size_range as Hs.
  pose proof sectors_per_block_range as Hspb.
  destruct (session_erase_events fs w total_size offset c' Ht Ho Hsteps)
    as (evs & Hw & Hwf & Hnd & Hall & Hf & Hcur & Hlim).
  set (count := remaining_erase_sector
                  (snd (fst (handle_flash_begin fs w total_size offset))))
    in *.
  set (sectors := k * SECTORS_PER_BLOCK).
  assert (Hsec : sectors * FLASH_SECTOR_SIZE = 2 ^ 24) by (subst sectors; lia).
  assert (Hpos : 0 < sectors) by nia.
  assert (Hle : count <= sectors) by nia.
  assert (Hdiv : (SECTORS_PER_BLOCK | sectors))
    by (exists k; reflexivity).
  exists evs. split; [exact Hw|].
  rewrite (flash_sectors_erased_mod sectors evs Hsec Hdiv Hwf).
  split.
  { apply (NoDup_flash_sectors sectors (offset / FLASH_SECTOR_SIZE) count);
      try assumption.
    eapply Forall_impl; [|exact Hall]. cbv beta. intros s Hsr. lia. }
  split.
  { apply Forall_map. eapply Forall_impl; [|exact Hall]. cbv beta.
    intros s Hsr. pose proof (Z.mod_pos_bound s sectors Hpos).
    assert (s mod sectors <= s) by (apply Z.mod_le; lia). lia. }
  intros Hfit. apply Forall_map. eapply Forall_impl; [|exact Hall].
  cbv beta. intros s Hsr.
  assert (Hceil : ceil_div (offset + total_size) FLASH_SECTOR_SIZE
                  <= sectors).
  { unfold ceil_div.
    assert ((offset + total_size + FLASH_SECTOR_SIZE - 1)
            / FLASH_SECTOR_SIZE < sectors + 1)
      by (apply Z.div_lt_upper_bound; lia).
    lia. }
  rewrite Z.mod_small by lia. lia.
Qed.

(** Below 16 MiB the flash erases the very sectors the scheduler
    counts. *)
Lemma flash_sectors_erased_scheduler `{!PlatformOk P} (evs : spi_trace) :
  Forall erase_event_wf evs ->
  Forall (fun s => s * FLASH_SECTOR_SIZE < 2 ^ 24) (erased_sectors evs) ->
  flash_sectors_erased evs = erased_sectors evs.
Proof.
  intros Hwf. pose proof sector_size_range as Hs.
  pose proof sectors_per_block_range as Hspb.
  induction Hwf as [|e evs He Hwf IH]; intros Hall; [reflexivity|].
  destruct e as [| |command addr sector nsectors|];
    cbn [flash_sectors_erased erased_sectors] in *; try (now apply IH).
  apply Forall_app in Hall. destruct Hall as [Hunit Hrest].
  destruct He as (-> & -> & H0 & _).
  rewrite (IH Hrest). f_equal.
  assert (Hin : In sector (sector_range sector (sectors_of_command command))).
  { apply In_sector_range. destruct command; cbn [sectors_of_command]; lia. }
  rewrite Forall_forall in Hunit. specialize (Hunit _ Hin).
  rewrite erase_address_of_sector by nia.
  rewrite Z.div_mul by lia. reflexivity.
Qed.

(** The sectors a session within the first 16 MiB has erased, as the
    flash received them: the scheduler's. *)
Lemma session_flash_sectors `{!PlatformOk P} (fs : flash_state)
    (w : spi_trace) (total_size offset : Z) (c' : flash_state * spi_trace) :
  uint32 total_size -> uint32 offset -> offset + total_size <= 2 ^ 24 ->
  session_steps
    (snd (fst (handle_flash_begin fs w total_size offset)),
     snd (handle_flash_begin fs w total_size offset)) c' ->
  exists evs : spi_trace,
    snd c' = evs ++ snd (handle_flash_begin fs w total_size offset) /\
    Forall erase_event_wf evs /\
    Forall (fun s => s * FLASH_SECTOR_SIZE < 2 ^ 24) (erased_sectors evs) /\
    flash_sectors_erased evs = erased_sectors evs.
Proof.
  intros Ht Ho Hfit Hsteps. pose proof sector_size_range as Hs.
  destruct (session_erase_events fs w total_size offset c' Ht Ho Hsteps)
    as (evs & Hw & Hwf & _ & Hall & _ & Hcur & Hlim).
  assert (Hb : Forall (fun s => s * FLASH_SECTOR_SIZE < 2 ^ 24)
                 (erased_sectors evs)).
  { eapply Forall_impl; [|exact Hall]. cbv beta. intros s Hsr.
    unfold ceil_div in Hlim.
    assert (Hpos : 0 < FLASH_SECTOR_SIZE) by lia.
    pose proof (Z.mul_div_le (offset + total_size + FLASH_SECTOR_SIZE - 1)
                  FLASH_SECTOR_SIZE Hpos) as Hq.
    set (q := (offset + total_size + FLASH_SECTOR_SIZE - 1)
              / FLASH_SECTOR_SIZE) in *.
    assert (s + 1 <= q) by lia.
    assert (s * FLASH_SECTOR_SIZE + FLASH_SECTOR_SIZE
            <= FLASH_SECTOR_SIZE * q) by nia.
    lia. }
  exists evs. repeat (split; [assumption|]).
  now apply flash_sectors_erased_scheduler.
Qed.

(** An image of at most 16 MiB has at most 16 MiB of sectors scheduled. *)
Lemma begin_count_within_16M `{!PlatformOk P} (fs : flash_state)
    (w : spi_trace) (total_size offset : Z) :
  uint32 total_size -> uint32 offset ->
  (FLASH_SECTOR_SIZE | 2 ^ 24) -> total_size <= 2 ^ 24 ->
  remaining_erase_sector
    (snd (fst (handle_flash_begin fs w total_size offset)))
  * FLASH_SECTOR_SIZE <= 2 ^ 24.
Proof.
  intros Ht Ho [k Hk] Hfit. pose proof sector_size_range as Hs.
  destruct (begin_erase_counters total_size offset Ht Ho)
    as (_ & _ & H2 & H3).
  rewrite handle_flash_begin_state. cbn [remaining_erase_sector].
  unfold ceil_div in H3.
  assert ((total_size + FLASH_SECTOR_SIZE - 1) / FLASH_SECTOR_SIZE < k + 1)
    by (apply Z.div_lt_upper_bound; lia).
  nia.
Qed.

(** ** Deflated begin *)

(** What [handle_flash_deflated_begin] resets and what it leaves: the
    bookkeeping is that of [handle_flash_begin] on the uncompressed size,
    the inflator is re-initialised, [remaining_compressed] is the
    compressed size; the output buffer and its fill position [next_out],
    statics of [handle_flash_deflated_data], are the ones of the state
    before. *)
Lemma handle_flash_deflated_begin_spec (fs : flash_state) (w : spi_trace)
    (uncompressed_size compressed_size offset : Z) :
  let '(err, fs', w') :=
    handle_flash_deflated_begin fs w uncompressed_size compressed_size
      offset in
  let '(err0, fs0, w0) := handle_flash_begin fs w uncompressed_size offset in
  err = err0 /\ w' = w0 /\
  in_flash_mode fs' = in_flash_mode fs0 /\
  next_write fs' = next_write fs0 /\
  next_erase_sector fs' = next_erase_sector fs0 /\
  remaining fs' = remaining fs0 /\
  remaining_erase_sector fs' = remaining_erase_sector fs0 /\
  last_error fs' = last_error fs0 /\
  inflator fs' = tinfl_init (inflator fs) /\
  remaining_compressed fs' = compressed_size /\
  out_buf fs' = out_buf fs /\
  next_out fs' = next_out fs.
Proof.
  rewrite handle_flash_deflated_begin_state.
  unfold handle_flash_begin.
  destruct (negb (SPIUnlock w =? 0)); cbn; repeat split.
Qed.


End Facts.

(** * Further properties of the handlers *)

Section SessionFacts.

Context {P : Platform}.

(** ** What the scheduler and the catch-up loop add to the trace *)

Lemma start_next_erase_events (fs : flash_state) (w : spi_trace) :
  exists evs,
    snd (start_next_erase fs w) = evs ++ w /\
    Forall is_scheduler_event evs.
Proof.
  unfold start_next_erase, spiflash_is_ready.
  destruct (remaining_erase_sector fs =? 0).
  { exists []. split; [reflexivity|constructor]. }
  destruct (negb (Z.land (SPI_RD_STATUS w) STATUS_WIP_BIT =? 0)).
  { exists [EvReadStatus]. split; [reflexivity|].
    repeat constructor. }
  destruct ((SECTORS_PER_BLOCK <=? remaining_erase_sector fs)
            && (Z.rem (next_erase_sector fs) SECTORS_PER_BLOCK =? 0));
    eexists [_; _]; (split; [reflexivity|repeat constructor]).
Qed.

Lemma erase_until_events (fuel : nat) (last_sector : Z) :
  forall fs w fs1 w1,
    erase_until fuel last_sector fs w = Some (fs1, w1) ->
    exists evs, w1 = evs ++ w /\ Forall is_scheduler_event evs.
Proof.
  induction fuel as [|fuel IH]; intros fs w fs1 w1 E; cbn [erase_until] in E;
    destruct (next_erase_sector fs <? last_sector); try discriminate;
    try (injection E as <- <-; exists []; split; [reflexivity|constructor]).
  destruct (start_next_erase_events fs w) as (evs0 & E0 & F0).
  destruct (start_next_erase fs w) as [fs2 w2]. simpl in E0. subst w2.
  destruct (IH _ _ _ _ E) as (evs & -> & F).
  exists (evs ++ evs0). rewrite app_assoc. split; [reflexivity|].
  apply Forall_app. auto.
Qed.

(** When the loop ends, the cursor has reached its goal. *)
Lemma erase_until_reaches (fuel : nat) (last_sector : Z) :
  forall fs w fs1 w1,
    erase_until fuel last_sector fs w = Some (fs1, w1) ->
    last_sector <= next_erase_sector fs1.
Proof.
  induction fuel as [|fuel IH]; intros fs w fs1 w1 E; cbn [erase_until] in E;
    destruct (next_erase_sector fs <? last_sector) eqn:C; try discriminate;
    try (injection E as <- <-; bool_to_prop; exact C).
  destruct (start_next_erase fs w) as [fs2 w2]. eapply IH; eauto.
Qed.

Lemma write_log_app (a b : spi_trace) :
  write_log (a ++ b) = write_log b ++ write_log a.
Proof.
  induction a as [|e a IH]; [now rewrite app_nil_r|].
  destruct e; simpl; rewrite IH; try reflexivity.
  now rewrite app_assoc.
Qed.

Lemma write_log_scheduler (evs : spi_trace) :
  Forall is_scheduler_event evs -> write_log evs = [].
Proof.
  induction 1 as [|e evs He _ IH]; [reflexivity|].
  destruct e; simpl in *; try contradiction; exact IH.
Qed.

Lemma no_unlock_scheduler (evs : spi_trace) :
  Forall is_scheduler_event evs -> ~ In EvUnlock evs.
Proof.
  intros F Hin. rewrite Forall_forall in F. exact (F _ Hin).
Qed.

Lemma erased_sectors_cons_write (addr : Z) (buf : list byte) (len : Z)
    (w : spi_trace) :
  erased_sectors (EvWrite addr buf len :: w) = erased_sectors w.
Proof. reflexivity. Qed.

(** ** Properties kept by every step, from what a data packet keeps *)
Section DataPreservation.

Variable J : flash_state * spi_trace -> Prop.

Hypothesis J_erase : forall fs w, J (fs, w) -> J (start_next_erase fs w).
Hypothesis J_data :
  forall fuel fs w buf len r,
    handle_flash_data fuel fs w buf len = Some r -> J (fs, w) -> J r.
Hypothesis J_inflate :
  forall fs w d rc buf out, J (fs, w) -> J (set_inflate fs d rc buf out, w).
Hypothesis J_error :
  forall fs w e, J (fs, w) -> J (set_last_error fs e, w).
Hypothesis J_end :
  forall fs w, J (fs, w) -> J (set_in_flash_mode fs false, w).

Lemma deflate_loop_keeps (fuel : nat) :
  forall fs w data_buf length status fs' w' status',
    deflate_loop fuel fs w data_buf length status = Some (fs', w', status') ->
    J (fs, w) -> J (fs', w').
Proof.
  induction fuel as [|fuel IH]; intros fs w data_buf length status
    fs' w' status' E Hj; cbn [deflate_loop] in E;
    destruct ((0 <? length) && (0 <? remaining fs)
              && (TINFL_STATUS_DONE <? status));
    try discriminate; try (injection E as <- <- <-; exact Hj).
  destruct (start_next_erase fs w) as [fs1 w1] eqn:S.
  assert (H1 : J (fs1, w1)) by (rewrite <- S; now apply J_erase).
  match type of E with
  | (if ?c then _ else _) = _ => destruct c
  end.
  - match type of E with
    | match ?h with _ => _ end = _ => destruct h as [[fs3 w3]|] eqn:F
    end; [|discriminate].
    apply J_data in F; [|now apply J_inflate].
    apply (IH _ _ _ _ _ _ _ _ E). unfold set_next_out.
    now apply J_inflate.
  - apply (IH _ _ _ _ _ _ _ _ E). now apply J_inflate.
Qed.

Lemma handle_flash_deflated_data_keeps (fuel : nat) fs w data_buf length r :
  handle_flash_deflated_data fuel fs w data_buf length = Some r ->
  J (fs, w) -> J r.
Proof.
  unfold handle_flash_deflated_data. intros E Hj.
  destruct (deflate_loop fuel fs w data_buf length
              TINFL_STATUS_NEEDS_MORE_INPUT) as [[[fs1 w1] status]|] eqn:L;
    [|discriminate].
  apply deflate_loop_keeps in L; [|exact Hj].
  injection E as <-.
  repeat match goal with
  | |- context [if ?c then _ else _] => destruct c
  end;
  repeat apply J_error; exact L.
Qed.

Lemma handle_flash_end_keeps fs w :
  J (fs, w) -> J (snd (handle_flash_end fs), w).
Proof.
  intros Hj. unfold handle_flash_end.
  destruct (negb (in_flash_mode fs)); [exact Hj|].
  destruct (0 <? remaining fs); [exact Hj|].
  now apply J_end.
Qed.

Lemma session_steps_keeps c c' : session_steps c c' -> J c -> J c'.
Proof.
  induction 1 as [c|c1 c2 c3 S _ IH]; intros Hj; [exact Hj|].
  apply IH. destruct S.
  - now apply J_erase.
  - eapply J_data; eauto.
  - eapply handle_flash_deflated_data_keeps; eauto.
  - now apply handle_flash_end_keeps.
Qed.

End DataPreservation.

(** ** Invariants of a session *)

(** X: [next_write + remaining] is the same, modulo 2^32, before and after
    any sequence of scheduler runs, data packets of either kind and end
    requests: what is written and what is still expected always add up to
    the end of the image. *)
Theorem write_cursor_plus_remaining_constant
    (c c' : flash_state * spi_trace) :
  session_steps c c' ->
  to_uint32 (next_write (fst c') + remaining (fst c'))
  = to_uint32 (next_write (fst c) + remaining (fst c)).
Proof.
  intros Hsteps.
  apply (session_steps_keeps
           (fun x => to_uint32 (next_write (fst x) + remaining (fst x))
                     = to_uint32 (next_write (fst c) + remaining (fst c))))
    with (c := c); try exact Hsteps; try reflexivity.
  - intros fs w H. rewrite start_next_erase_frame. exact H.
  - intros fuel fs w buf len [fs' w'] D H.
    apply handle_flash_data_spec in D. destruct D as (fs1 & w1 & _ & _ & ->).
    cbn [fst next_write remaining] in *. rewrite <- H.
    unfold to_uint32. rewrite <- Zplus_mod. f_equal. lia.
  - intros fs w d rc buf out H. exact H.
  - intros fs w e H. exact H.
  - intros fs w H. exact H.
Qed.

(** X: a session that is not active stays inactive through any sequence
    of scheduler runs, data packets and end requests (the data handlers
    neither look at [in_flash_mode] nor set it), and every end request
    made meanwhile answers [ESP_NOT_IN_FLASH_MODE] and changes nothing. *)
Theorem closed_session_stays_closed (c c' : flash_state * spi_trace) :
  session_steps c c' ->
  in_flash_mode (fst c) = false ->
  in_flash_mode (fst c') = false /\
  handle_flash_end (fst c') = (ESP_NOT_IN_FLASH_MODE, fst c').
Proof.
  intros Hsteps Hc.
  assert (H : in_flash_mode (fst c') = false).
  { revert Hc.
    apply (session_steps_keeps
             (fun x => in_flash_mode (fst x) = false)); try exact Hsteps.
    - intros fs w H. rewrite start_next_erase_frame. exact H.
    - intros fuel fs w buf len [fs' w'] D H.
      apply handle_flash_data_spec in D.
      destruct D as (fs1 & w1 & _ & _ & ->). exact H.
    - intros fs w d rc buf out H. exact H.
    - intros fs w e H. exact H.
    - intros fs w H. reflexivity. }
  split; [exact H|]. now apply handle_flash_end_inactive.
Qed.

Lemma start_next_erase_advance `{!PlatformOk P} (fs : flash_state)
    (w : spi_trace) :
  erase_counters_ok fs ->
  next_erase_sector fs <= next_erase_sector (fst (start_next_erase fs w)) /\
  remaining_erase_sector (fst (start_next_erase fs w))
  <= remaining_erase_sector fs.
Proof.
  intros Hok.
  destruct (Z.eq_dec (remaining_erase_sector fs) 0) as [Z0|NZ].
  { rewrite (start_next_erase_idle fs w Z0). simpl. lia. }
  destruct (fst (spiflash_is_ready w)) eqn:R.
  - destruct (start_next_erase_unit fs w Hok NZ R)
      as (c & n & a & E & _ & _ & _ & Hn).
    rewrite E. simpl. lia.
  - rewrite (start_next_erase_busy fs w NZ R). simpl. lia.
Qed.

(** X: through any sequence of scheduler runs, data packets and end
    requests the erase cursor never moves back, the count of sectors left
    never grows, and their sum stays what it was: the last sector the
    session will ever erase is fixed from the start. *)
Theorem erase_cursor_monotone `{!PlatformOk P}
    (c c' : flash_state * spi_trace) :
  session_steps c c' ->
  erase_counters_ok (fst c) ->
  next_erase_sector (fst c) <= next_erase_sector (fst c') /\
  remaining_erase_sector (fst c') <= remaining_erase_sector (fst c) /\
  next_erase_sector (fst c') + remaining_erase_sector (fst c')
  = next_erase_sector (fst c) + remaining_erase_sector (fst c) /\
  erase_counters_ok (fst c').
Proof.
  intros Hsteps Hok.
  pose (I := fun x : flash_state * spi_trace =>
    next_erase_sector (fst c) <= next_erase_sector (fst x) /\
    remaining_erase_sector (fst x) <= remaining_erase_sector (fst c) /\
    next_erase_sector (fst x) + remaining_erase_sector (fst x)
    = next_erase_sector (fst c) + remaining_erase_sector (fst c) /\
    erase_counters_ok (fst x)).
  change (I c').
  apply (session_steps_preserves I) with (c := c); try exact Hsteps;
    try (intros; assumption).
  - intros fs w (H1 & H2 & H3 & H4). unfold I. cbn [fst] in H1, H2, H3, H4.
    pose proof (start_next_erase_advance fs w H4) as [A1 A2].
    pose proof (start_next_erase_sum fs w H4) as A3.
    pose proof (start_next_erase_counters fs w H4) as A4.
    split; [lia|]. split; [lia|]. split; [lia|exact A4].
  - unfold I. split; [lia|]. split; [lia|]. split; [lia|exact Hok].
Qed.

(** X: once [remaining_erase_sector] is 0 the session erases nothing
    more: through any sequence of scheduler runs, data packets and end
    requests both erase counters and the set of erased sectors stay as
    they are. *)
Theorem no_erase_once_exhausted (c c' : flash_state * spi_trace) :
  session_steps c c' ->
  remaining_erase_sector (fst c) = 0 ->
  remaining_erase_sector (fst c') = 0 /\
  next_erase_sector (fst c') = next_erase_sector (fst c) /\
  erased_sectors (snd c') = erased_sectors (snd c).
Proof.
  intros Hsteps Hz.
  pose (I := fun x : flash_state * spi_trace =>
    remaining_erase_sector (fst x) = 0 /\
    next_erase_sector (fst x) = next_erase_sector (fst c) /\
    erased_sectors (snd x) = erased_sectors (snd c)).
  change (I c').
  apply (session_steps_preserves I) with (c := c); try exact Hsteps;
    try (intros; assumption).
  - intros fs w (H1 & H2 & H3). unfold I.
    rewrite (start_next_erase_idle fs w H1). auto.
  - unfold I. auto.
Qed.

(** X: [SPIUnlock] is called by the begin handlers only: any sequence of
    scheduler runs, data packets and end requests only extends the trace,
    and with no unlock. *)
Theorem session_never_unlocks (c c' : flash_state * spi_trace) :
  session_steps c c' ->
  exists evs, snd c' = evs ++ snd c /\ ~ In EvUnlock evs.
Proof.
  intros Hsteps.
  pose (J := fun x : flash_state * spi_trace =>
    exists evs, snd x = evs ++ snd c /\ ~ In EvUnlock evs).
  change (J c').
  assert (Hext : forall fs w evs0 (x : flash_state),
            Forall is_scheduler_event evs0 ->
            J (fs, w) -> J (x, evs0 ++ w)).
  { intros fs w evs0 x F (evs & Hw & Hn). simpl in Hw. subst w.
    exists (evs0 ++ evs). simpl. rewrite app_assoc. split; [reflexivity|].
    intros Hin. apply in_app_or in Hin. destruct Hin as [Hin|Hin];
      [exact (no_unlock_scheduler _ F Hin)|exact (Hn Hin)]. }
  apply (session_steps_keeps J) with (c := c); try exact Hsteps.
  - intros fs w H.
    destruct (start_next_erase_events fs w) as (evs0 & E0 & F0).
    destruct (start_next_erase fs w) as [fs1 w1]. simpl in E0. subst w1.
    exact (Hext fs w evs0 fs1 F0 H).
  - intros fuel fs w buf len [fs' w'] D H.
    apply handle_flash_data_spec in D.
    destruct D as (fs1 & w1 & U & -> & _).
    destruct (erase_until_events _ _ _ _ _ _ U) as (evs0 & -> & F0).
    destruct (Hext fs w evs0 fs1 F0 H) as (evs & Hw & Hn). simpl in Hw.
    exists (EvWrite (next_write fs) buf len :: evs). simpl.
    rewrite Hw. split; [reflexivity|].
    intros [Hin|Hin]; [discriminate|exact (Hn Hin)].
  - intros fs w d rc buf out H. exact H.
  - intros fs w e H. exact H.
  - intros fs w H. exact H.
  - exists []. split; [reflexivity|intros []].
Qed.

(** Readiness is decided by the write-in-progress bit alone: the flash
    is reported ready exactly when bit 0 of the status register is clear,
    whatever the other bits are; each check is one status read. *)
Lemma spiflash_is_ready_wip_bit (w : spi_trace) :
  spiflash_is_ready w
  = (negb (Z.testbit (SPI_RD_STATUS w) 0), EvReadStatus :: w).
Proof.
  unfold spiflash_is_ready, STATUS_WIP_BIT. f_equal.
  change 1 with (Z.ones 1). rewrite Z.land_ones by lia.
  rewrite Z.bit0_odd. change (2 ^ 1) with 2. rewrite Zmod_odd.
  now destruct (Z.odd (SPI_RD_STATUS w)).
Qed.



(** The codes a session holds in [last_error]: through any sequence of
    scheduler runs, data packets of either kind and end requests,
    [last_error] stays among [ESP_OK] and the four codes the data handlers
    record; begin sets [ESP_OK]. *)
Lemma session_step_recorded_error (c c' : flash_state * spi_trace) :
  session_step c c' ->
  recorded_error (last_error (fst c)) -> recorded_error (last_error (fst c')).
Proof.
  unfold recorded_error.
  intros [fs w|fuel fs w buf len r D|fuel fs w buf len r D|fs w] H;
    cbn [fst] in *.
  - rewrite start_next_erase_frame. exact H.
  - destruct r as [fs' w']. apply handle_flash_data_spec in D.
    destruct D as (fs1 & w1 & _ & _ & ->). cbn [fst last_error].
    destruct (SPIWrite _ _ _ _ =? 0); auto.
  - destruct r as [fs' w']. unfold handle_flash_deflated_data in D.
    destruct (deflate_loop fuel fs w buf len TINFL_STATUS_NEEDS_MORE_INPUT)
      as [[[fs1 w1] status]|] eqn:L; [|discriminate].
    assert (H1 : recorded_error (last_error (fst (fs1, w1)))).
    { eapply (deflate_loop_keeps
                (fun x => recorded_error (last_error (fst x))));
        [| | |exact L|exact H].
      - intros fs0 w0 H0. rewrite start_next_erase_frame. exact H0.
      - intros fuel0 fs0 w0 buf0 len0 [fs2 w2] D0 H0.
        apply handle_flash_data_spec in D0.
        destruct D0 as (fs3 & w3 & _ & _ & ->). cbn [fst last_error] in *.
        unfold recorded_error in *.
        destruct (SPIWrite _ _ _ _ =? 0); auto.
      - intros fs0 w0 d rc buf0 out H0. exact H0. }
    unfold recorded_error in H1. cbn [fst] in H1.
    injection D as <- <-.
    repeat match goal with
    | |- context [if ?c then _ else _] => destruct c
    end; cbn [set_last_error last_error]; auto.
  - unfold handle_flash_end.
    destruct (negb (in_flash_mode fs)); [exact H|].
    destruct (0 <? remaining fs); exact H.
Qed.

Lemma session_steps_recorded_error (c c' : flash_state * spi_trace) :
  session_steps c c' ->
  recorded_error (last_error (fst c)) -> recorded_error (last_error (fst c')).
Proof.
  induction 1 as [c|c1 c2 c3 Hstep _ IH]; [auto|].
  intros H. apply IH. eapply session_step_recorded_error; eauto.
Qed.

(** In a session, between begin and whatever follows it, end answers
    not-in-flash-mode exactly when the session is not active. *)
Lemma session_end_not_in_flash_mode (fs : flash_state) (w : spi_trace)
    (total_size offset : Z) (c' : flash_state * spi_trace) :
  session_steps
    (snd (fst (handle_flash_begin fs w total_size offset)),
     snd (handle_flash_begin fs w total_size offset)) c' ->
  recorded_error (last_error (fst c')) /\
  (fst (handle_flash_end (fst c')) = ESP_NOT_IN_FLASH_MODE <->
   in_flash_mode (fst c') = false).
Proof.
  intros Hsteps.
  assert (Hrec : recorded_error (last_error (fst c'))).
  { apply (session_steps_recorded_error _ _ Hsteps). cbn [fst].
    rewrite handle_flash_begin_state. left. reflexivity. }
  split; [exact Hrec|].
  unfold handle_flash_end.
  destruct (in_flash_mode (fst c')); cbn [negb]; [|tauto].
  destruct (0 <? remaining (fst c')); cbn [fst];
    split; try discriminate.
  intros E. unfold recorded_error in Hrec. rewrite E in Hrec.
  destruct Hrec as [|[|[|[|]]]]; discriminate.
Qed.
(** ** Erase before write *)

Lemma erase_cover_frame (first : Z) (w0 : spi_trace)
    (fs fs' : flash_state) (w : spi_trace) :
  next_erase_sector fs' = next_erase_sector fs ->
  remaining_erase_sector fs' = remaining_erase_sector fs ->
  erase_cover first w0 (fs, w) -> erase_cover first w0 (fs', w).
Proof.
  intros E1 E2 (evs & H). exists evs. unfold erase_counters_ok in *.
  cbn [fst snd] in *. now rewrite E1, E2.
Qed.

Lemma erase_cover_start_next_erase `{!PlatformOk P} (first : Z)
    (w0 : spi_trace) (fs : flash_state) (w : spi_trace) :
  erase_cover first w0 (fs, w) ->
  erase_cover first w0 (start_next_erase fs w).
Proof.
  intros (evs & Hw & Hok & Hf & Hcov & Hwr). cbn [fst snd] in *.
  destruct (Z.eq_dec (remaining_erase_sector fs) 0) as [Z0|NZ].
  { rewrite (start_next_erase_idle fs w Z0). exists evs. auto. }
  destruct (fst (spiflash_is_ready w)) eqn:R.
  - destruct (start_next_erase_unit fs w Hok NZ R)
      as (c & n & a & E & _ & _ & _ & Hn).
    pose proof (start_next_erase_counters fs w Hok) as Hok'.
    rewrite E in *. cbn [fst] in Hok'.
    exists (EvErase c a (next_erase_sector fs) n :: EvReadStatus :: evs).
    cbn [fst snd next_erase_sector set_erase]. rewrite Hw.
    split; [reflexivity|]. split; [exact Hok'|]. split; [lia|].
    split; [|exact Hwr].
    intros s Hs. cbn [erased_sectors]. apply in_or_app.
    destruct (Z_lt_le_dec s (next_erase_sector fs)) as [Hlt|Hge].
    + right. apply Hcov. lia.
    + left. apply In_sector_range. lia.
  - rewrite (start_next_erase_busy fs w NZ R).
    exists (EvReadStatus :: evs). cbn [fst snd]. rewrite Hw. auto.
Qed.

Lemma erase_cover_data `{!PlatformOk P} (first : Z) (w0 : spi_trace)
    (fuel : nat) (fs : flash_state) (w : spi_trace) (buf : list byte)
    (len : Z) (r : flash_state * spi_trace) :
  handle_flash_data fuel fs w buf len = Some r ->
  erase_cover first w0 (fs, w) -> erase_cover first w0 r.
Proof.
  intros D Hc. destruct r as [fs' w']. pose proof sector_size_range as Hs.
  apply handle_flash_data_spec in D. destruct D as (fs1 & w1 & U & -> & ->).
  pose proof (erase_until_reaches _ _ _ _ _ _ U) as Hreach.
  apply (erase_until_preserves (erase_cover first w0)) in U;
    [|intros; now apply erase_cover_start_next_erase|exact Hc].
  destruct U as (evs & Hw & Hok & Hf & Hcov & Hwr). cbn [fst snd] in *.
  exists (EvWrite (next_write fs) buf len :: evs).
  cbn [fst snd next_erase_sector]. rewrite Hw.
  split; [reflexivity|]. split; [exact Hok|]. split; [exact Hf|].
  split; [exact Hcov|].
  cbn [writes_after_erase]. split; [|exact Hwr].
  intros Hfirst Hlen Hfit s Hs1 Hs2. apply Hcov.
  assert (Ha : 0 <= next_write fs).
  { destruct (Z_lt_le_dec (next_write fs) 0) as [Hneg|]; [|assumption].
    assert (next_write fs / FLASH_SECTOR_SIZE < 0)
      by (apply Z.div_lt_upper_bound; lia). lia. }
  rewrite to_uint32_id in Hreach by lia.
  assert (Hq : 0 <= (next_write fs + len + FLASH_SECTOR_SIZE - 1)
                    / FLASH_SECTOR_SIZE < 2 ^ 30).
  { split; [apply Z.div_pos; lia|apply Z.div_lt_upper_bound; lia]. }
  rewrite to_int_id in Hreach by lia.
  assert (s + 1 <= (next_write fs + len + FLASH_SECTOR_SIZE - 1)
                   / FLASH_SECTOR_SIZE)
    by (apply Z.div_le_lower_bound; lia).
  lia.
Qed.

Lemma begin_erase_cover `{!PlatformOk P} (fs : flash_state)
    (w : spi_trace) (total_size offset : Z) :
  uint32 total_size -> uint32 offset ->
  erase_cover (offset / FLASH_SECTOR_SIZE)
    (snd (handle_flash_begin fs w total_size offset))
    (snd (fst (handle_flash_begin fs w total_size offset)),
     snd (handle_flash_begin fs w total_size offset)).
Proof.
  intros Ht Ho.
  destruct (begin_erase_counters total_size offset Ht Ho)
    as (E1 & H1 & H2 & _).
  exists []. rewrite handle_flash_begin_state.
  unfold erase_counters_ok, INT_MAX.
  cbn [fst snd next_erase_sector remaining_erase_sector
       writes_after_erase app]. rewrite E1.
  repeat split; try lia.
Qed.

Lemma erase_cover_session_steps `{!PlatformOk P} (first : Z)
    (w0 : spi_trace) (c c' : flash_state * spi_trace) :
  session_steps c c' ->
  erase_cover first w0 c -> erase_cover first w0 c'.
Proof.
  intros Hsteps.
  apply (session_steps_keeps (erase_cover first w0)); try exact Hsteps.
  - intros. now apply erase_cover_start_next_erase.
  - intros. eapply erase_cover_data; eauto.
  - intros. eapply erase_cover_frame; [| |eassumption]; reflexivity.
  - intros. eapply erase_cover_frame; [| |eassumption]; reflexivity.
  - intros. eapply erase_cover_frame; [| |eassumption]; reflexivity.
Qed.

Lemma writes_after_flash_erase_scheduler `{!PlatformOk P} (first : Z)
    (evs : spi_trace) :
  Forall erase_event_wf evs ->
  Forall (fun s => s * FLASH_SECTOR_SIZE < 2 ^ 24) (erased_sectors evs) ->
  writes_after_erase first evs -> writes_after_flash_erase first evs.
Proof.
  intros Hwf. induction Hwf as [|e evs He Hwf IH]; intros Hall Hwr;
    [exact I|].
  destruct e as [| |command addr sector nsectors|addr buf len];
    cbn [writes_after_erase writes_after_flash_erase erased_sectors] in *.
  - now apply IH.
  - now apply IH.
  - apply Forall_app in Hall. now apply IH.
  - destruct Hwr as [Hhere Hrest]. split; [|now apply IH].
    rewrite (flash_sectors_erased_scheduler evs Hwf Hall). exact Hhere.
Qed.

(** X: erase before write.  After [handle_flash_begin total_size offset]
    for an image that ends within the first 16 MiB, through any sequence
    of scheduler runs, data packets of either kind and end requests: every
    [SPIWrite] of non-negative length that starts at or after the sector
    of [offset] and whose end, rounded up to a sector, stays below 2^32
    touches only sectors that an erase command sent earlier in the same
    session covers, as read from the command and its address. *)
Theorem writes_land_on_erased_sectors `{!PlatformOk P}
    (fs : flash_state) (w : spi_trace) (total_size offset : Z)
    (c' : flash_state * spi_trace) :
  uint32 total_size -> uint32 offset -> offset + total_size <= 2 ^ 24 ->
  session_steps
    (snd (fst (handle_flash_begin fs w total_size offset)),
     snd (handle_flash_begin fs w total_size offset)) c' ->
  exists evs : spi_trace,
    snd c' = evs ++ snd (handle_flash_begin fs w total_size offset) /\
    writes_after_flash_erase (offset / FLASH_SECTOR_SIZE) evs.
Proof.
  intros Ht Ho Hfit Hsteps.
  pose proof (begin_erase_cover fs w total_size offset Ht Ho) as H0.
  apply (erase_cover_session_steps _ _ _ _ Hsteps) in H0.
  destruct H0 as (evs & Hw & _ & _ & _ & Hwr).
  destruct (session_flash_sectors fs w total_size offset c' Ht Ho Hfit
              Hsteps) as (evs' & Hw' & Hwf & Hall & _).
  assert (evs' = evs) by (rewrite Hw in Hw'; now apply app_inv_tail in Hw').
  subst evs'. exists evs. split; [exact Hw|].
  now apply writes_after_flash_erase_scheduler.
Qed.

(** X: the sectors the flash has erased so far are exactly those from the
    sector of [offset] up to the erase cursor, each erased once: after
    [handle_flash_begin total_size offset] for an image that ends within
    the first 16 MiB, through any sequence of scheduler runs, data packets
    of either kind and end requests, the erase commands sent, read from
    the command and its address, skip no sector below the cursor, cover
    none out of that range and none twice. *)
Theorem erased_sectors_are_cursor_range `{!PlatformOk P}
    (fs : flash_state) (w : spi_trace) (total_size offset : Z)
    (c' : flash_state * spi_trace) :
  uint32 total_size -> uint32 offset -> offset + total_size <= 2 ^ 24 ->
  session_steps
    (snd (fst (handle_flash_begin fs w total_size offset)),
     snd (handle_flash_begin fs w total_size offset)) c' ->
  exists evs : spi_trace,
    snd c' = evs ++ snd (handle_flash_begin fs w total_size offset) /\
    NoDup (flash_sectors_erased evs) /\
    forall s,
      In s (flash_sectors_erased evs) <->
      offset / FLASH_SECTOR_SIZE <= s < next_erase_sector (fst c').
Proof.
  intros Ht Ho Hfit Hsteps.
  pose proof (begin_erase_cover fs w total_size offset Ht Ho) as H0.
  apply (erase_cover_session_steps _ _ _ _ Hsteps) in H0.
  destruct (session_erase_events fs w total_size offset c' Ht Ho Hsteps)
    as (evs' & Hw' & _ & Hnd & Hall & _).
  destruct (session_flash_sectors fs w total_size offset c' Ht Ho Hfit
              Hsteps) as (evs'' & Hw'' & _ & _ & Heq).
  destruct H0 as (evs & Hw & _ & _ & Hcov & _).
  assert (evs' = evs) by (rewrite Hw in Hw'; now apply app_inv_tail in Hw').
  assert (evs'' = evs)
    by (rewrite Hw in Hw''; now apply app_inv_tail in Hw'').
  subst evs' evs''. exists evs. split; [exact Hw|]. rewrite Heq.
  split; [exact Hnd|].
  intros s. split; [|apply Hcov].
  rewrite Forall_forall in Hall. apply Hall.
Qed.

(** ** Writes are sequential *)

Lemma contiguous_from_snoc (l : list (Z * Z)) :
  forall start addr len,
    contiguous_from start l -> addr = chain_end start l ->
    contiguous_from start (l ++ [(addr, len)]).
Proof.
  induction l as [|[a n] l IH]; intros start addr len Hc He; simpl in *.
  - auto.
  - destruct Hc as [Ha Hc]. split; [exact Ha|]. now apply IH.
Qed.

Lemma chain_end_snoc (l : list (Z * Z)) :
  forall start addr len,
    chain_end start (l ++ [(addr, len)])
    = to_uint32 (chain_end start l + len).
Proof.
  induction l as [|[a n] l IH]; intros start addr len; simpl;
    [reflexivity|apply IH].
Qed.

Lemma write_chain_scheduler (start : Z) (w0 : spi_trace)
    (fs fs' : flash_state) (w evs0 : spi_trace) :
  next_write fs' = next_write fs ->
  Forall is_scheduler_event evs0 ->
  write_chain start w0 (fs, w) -> write_chain start w0 (fs', evs0 ++ w).
Proof.
  intros En F (evs & Hw & Hc & He). cbn [fst snd] in *. subst w.
  exists (evs0 ++ evs). cbn [fst snd]. rewrite app_assoc.
  split; [reflexivity|].
  rewrite write_log_app, (write_log_scheduler _ F), app_nil_r, En. auto.
Qed.

(** X: writes are sequential.  After [handle_flash_begin total_size
    offset], through any sequence of scheduler runs, data packets of
    either kind and end requests: the first [SPIWrite] is at [offset], each
    later one starts where the one before it ended (32-bit addresses),
    and [next_write] is where the last one ended. *)
Theorem writes_are_contiguous (fs : flash_state) (w : spi_trace)
    (total_size offset : Z) (c' : flash_state * spi_trace) :
  session_steps
    (snd (fst (handle_flash_begin fs w total_size offset)),
     snd (handle_flash_begin fs w total_size offset)) c' ->
  exists evs : spi_trace,
    snd c' = evs ++ snd (handle_flash_begin fs w total_size offset) /\
    contiguous_from offset (write_log evs) /\
    chain_end offset (write_log evs) = next_write (fst c').
Proof.
  intros Hsteps.
  change (write_chain offset
            (snd (handle_flash_begin fs w total_size offset)) c').
  apply (session_steps_keeps
           (write_chain offset
              (snd (handle_flash_begin fs w total_size offset))))
    with (c := (snd (fst (handle_flash_begin fs w total_size offset)),
                snd (handle_flash_begin fs w total_size offset)));
    try exact Hsteps.
  - intros fs0 w0 H.
    destruct (start_next_erase_events fs0 w0) as (evs0 & E0 & F0).
    pose proof (start_next_erase_frame fs0 w0) as Fr.
    destruct (start_next_erase fs0 w0) as [fs1 w1]. cbn [fst snd] in *.
    subst w1. apply write_chain_scheduler with (fs := fs0); auto.
    rewrite Fr. reflexivity.
  - intros fuel fs0 w0 buf len [fs1 w1] D H.
    apply handle_flash_data_spec in D.
    destruct D as (fs2 & w2 & U & -> & ->).
    destruct (erase_until_events _ _ _ _ _ _ U) as (evs0 & -> & F0).
    destruct (write_chain_scheduler offset _ fs0 fs0 w0 evs0 eq_refl F0 H)
      as (evs & Hw & Hc & He). cbn [fst snd] in *.
    exists (EvWrite (next_write fs0) buf len :: evs).
    cbn [fst snd next_write write_log]. rewrite Hw.
    split; [reflexivity|]. split.
    + apply contiguous_from_snoc; auto.
    + now rewrite chain_end_snoc, He.
  - intros fs0 w0 d rc buf out H. exact H.
  - intros fs0 w0 e H. exact H.
  - intros fs0 w0 H. exact H.
  - exists []. rewrite handle_flash_begin_state.
    cbn. auto.
Qed.


(** ** The output buffer and the compressed count *)

Lemma deflate_loop_bounds (Hdec : decoder_bounded) (fuel : nat) :
  forall fs w data_buf length status fs' w' status',
    0 <= length < 2 ^ 32 ->
    uint32 (remaining_compressed fs) ->
    0 <= next_out fs < OUT_BUF_SIZE ->
    deflate_loop fuel fs w data_buf length status = Some (fs', w', status') ->
    0 <= next_out fs' < OUT_BUF_SIZE /\
    (exists evs,
       w' = evs ++ w /\
       Forall (fun al => 0 <= snd al <= OUT_BUF_SIZE) (write_log evs)) /\
    (exists consumed,
       0 <= consumed <= length /\
       remaining_compressed fs'
       = to_uint32 (remaining_compressed fs - consumed)).
Proof.
  induction fuel as [|fuel IH]; intros fs w data_buf length status
    fs' w' status' Hlen Hrc Hfill E; cbn [deflate_loop] in E;
    destruct ((0 <? length) && (0 <? remaining fs)
              && (TINFL_STATUS_DONE <? status)) eqn:C;
    try discriminate;
    try (injection E as <- <- <-; split; [exact Hfill|]; split;
         [exists []; split; [reflexivity|constructor]
         |exists 0; split; [lia|];
          rewrite Z.sub_0_r; symmetry; now apply to_uint32_id]).
  destruct (start_next_erase_events fs w) as (evs0 & E0 & F0).
  pose proof (start_next_erase_frame fs w) as Fr.
  destruct (start_next_erase fs w) as [fs1 w1]. cbn [fst snd] in E0, Fr.
  subst w1.
  assert (Hno : next_out fs1 = next_out fs) by (rewrite Fr; reflexivity).
  assert (Hrc1 : remaining_compressed fs1 = remaining_compressed fs)
    by (rewrite Fr; reflexivity).
  rewrite Hno in E.
  set (r := tinfl_decompress (inflator fs1) data_buf length (out_buf fs1)
              (next_out fs) (OUT_BUF_SIZE - next_out fs)
              (if length <? remaining_compressed fs
               then Z.lor TINFL_FLAG_PARSE_ZLIB_HEADER
                      TINFL_FLAG_HAS_MORE_INPUT
               else TINFL_FLAG_PARSE_ZLIB_HEADER)) in *.
  destruct (Hdec (inflator fs1) data_buf length (out_buf fs1) (next_out fs)
              (OUT_BUF_SIZE - next_out fs)
              (if length <? remaining_compressed fs
               then Z.lor TINFL_FLAG_PARSE_ZLIB_HEADER
                      TINFL_FLAG_HAS_MORE_INPUT
               else TINFL_FLAG_PARSE_ZLIB_HEADER)) as [Hin Hout];
    [lia|lia|]. fold r in Hin, Hout.
  cbn [next_out set_inflate out_buf] in E.
  rewrite Hrc1 in E.
  assert (Hlen' : to_uint32 (length - tr_in_bytes r)
                  = length - tr_in_bytes r) by (apply to_uint32_id; lia).
  rewrite Hlen' in E.
  assert (Hcombine : forall fsx wx evs,
    wx = evs ++ evs0 ++ w ->
    Forall (fun al => 0 <= snd al <= OUT_BUF_SIZE) (write_log evs) ->
    remaining_compressed fsx
    = to_uint32 (remaining_compressed fs - tr_in_bytes r) ->
    0 <= next_out fsx < OUT_BUF_SIZE ->
    deflate_loop fuel fsx wx (skipn (Z.to_nat (tr_in_bytes r)) data_buf)
      (length - tr_in_bytes r) (tr_status r) = Some (fs', w', status') ->
    0 <= next_out fs' < OUT_BUF_SIZE /\
    (exists evs,
       w' = evs ++ w /\
       Forall (fun al => 0 <= snd al <= OUT_BUF_SIZE) (write_log evs)) /\
    (exists consumed,
       0 <= consumed <= length /\
       remaining_compressed fs'
       = to_uint32 (remaining_compressed fs - consumed))).
  { intros fsx wx evs Hwx Hwl Hrcx Hfx L.
    apply IH in L; [|lia|rewrite Hrcx; apply to_uint32_range|exact Hfx].
    destruct L as (A & (evs' & Hw' & Hwl') & (k & Hk & Hrc')).
    split; [exact A|]. split.
    - exists (evs' ++ evs ++ evs0). subst. rewrite <- !app_assoc.
      split; [reflexivity|].
      rewrite !write_log_app, (write_log_scheduler _ F0). cbn [app].
      apply Forall_app. auto.
    - exists (tr_in_bytes r + k). split; [lia|].
      rewrite Hrc', Hrcx. apply to_uint32_sub_add. }
  match type of E with
  | (if ?c then _ else _) = _ => destruct c eqn:Cf
  end.
  - match type of E with
    | match ?h with _ => _ end = _ => destruct h as [[fs3 w3]|] eqn:F
    end; [|discriminate].
    apply handle_flash_data_spec in F.
    destruct F as (fs4 & w4 & U & -> & ->).
    destruct (erase_until_events _ _ _ _ _ _ U) as (evs1 & -> & F1).
    refine (Hcombine _ _
              (EvWrite _ _ (next_out fs + tr_out_bytes r) :: evs1)
              _ _ _ _ E).
    + reflexivity.
    + cbn [write_log]. rewrite (write_log_scheduler _ F1). cbn [app].
      repeat constructor; cbn [snd]; lia.
    + reflexivity.
    + cbn. unfold OUT_BUF_SIZE. lia.
  - apply Bool.orb_false_iff in Cf. destruct Cf as [_ Cf]. bool_to_prop.
    refine (Hcombine _ _ [] _ _ _ _ E).
    + reflexivity.
    + constructor.
    + reflexivity.
    + cbn [next_out set_inflate]. lia.
Qed.

(** X: with an inflator that consumes no more than it is given and
    produces no more than there is room for, a deflated packet that
    returns keeps the fill position of the output buffer inside the
    buffer (below its size: a full buffer is flushed at once), hands
    [SPIWrite] at most [sizeof(out_buf)] bytes at a time, and takes no more
    than [length] bytes off [remaining_compressed]. *)
Theorem deflated_data_respects_buffers (fuel : nat) (fs : flash_state)
    (w : spi_trace) (data_buf : list byte) (length : Z)
    (fs' : flash_state) (w' : spi_trace) :
  decoder_bounded ->
  uint32 length ->
  uint32 (remaining_compressed fs) ->
  0 <= next_out fs < OUT_BUF_SIZE ->
  handle_flash_deflated_data fuel fs w data_buf length = Some (fs', w') ->
  0 <= next_out fs' < OUT_BUF_SIZE /\
  (exists evs,
     w' = evs ++ w /\
     Forall (fun al => 0 <= snd al <= OUT_BUF_SIZE) (write_log evs)) /\
  (exists consumed,
     0 <= consumed <= length /\
     remaining_compressed fs'
     = to_uint32 (remaining_compressed fs - consumed)).
Proof.
  intros Hdec Hlen Hrc Hfill E. unfold handle_flash_deflated_data in E.
  destruct (deflate_loop fuel fs w data_buf length
              TINFL_STATUS_NEEDS_MORE_INPUT) as [[[fs1 w1] status]|] eqn:L;
    [|discriminate].
  apply (deflate_loop_bounds Hdec) in L; try assumption.
  injection E as <- <-.
  repeat match goal with
  | |- context [if ?c then _ else _] => destruct c
  end; exact L.
Qed.

(** ** When a raw data packet returns *)

(** X: a raw data packet returns when the flash becomes ready in the
    end and the sector its write ends in is within what the session has
    left to erase; the erase cursor has then reached that sector, and the
    sum of the two erase counters is what it was. *)
Theorem handle_flash_data_catches_up `{!PlatformOk P} (fs : flash_state)
    (w : spi_trace) (data_buf : list byte) (length : Z) :
  eventually_ready ->
  erase_counters_ok fs ->
  to_int (to_uint32 (next_write fs + length + FLASH_SECTOR_SIZE - 1)
          / FLASH_SECTOR_SIZE)
  <= next_erase_sector fs + remaining_erase_sector fs ->
  exists fuel fs' w',
    handle_flash_data fuel fs w data_buf length = Some (fs', w') /\
    to_int (to_uint32 (next_write fs + length + FLASH_SECTOR_SIZE - 1)
            / FLASH_SECTOR_SIZE)
    <= next_erase_sector fs' /\
    next_erase_sector fs' + remaining_erase_sector fs'
    = next_erase_sector fs + remaining_erase_sector fs.
Proof.
  intros Hready Hok Hle.
  destruct (erase_until_terminates _ Hready fs w Hok Hle)
    as (fuel & fs1 & w1 & E & Hreach).
  destruct (erase_until_counters _ _ _ _ _ _ E Hok) as [_ Hsum].
  exists fuel. unfold handle_flash_data. rewrite E.
  do 2 eexists. split; [reflexivity|].
  destruct (negb (SPIWrite w1 (next_write fs1) data_buf length =? 0));
    cbn [next_erase_sector remaining_erase_sector set_write set_last_error];
    auto.
Qed.

(** X: a raw data packet never returns when the sector its write ends in
    lies beyond what the session has left to erase, whatever the flash
    answers: the scheduler stops at
    [next_erase_sector + remaining_erase_sector] and the catch-up loop
    goes on for ever. *)
Theorem handle_flash_data_starves `{!PlatformOk P} (fuel : nat)
    (fs : flash_state) (w : spi_trace) (data_buf : list byte) (length : Z) :
  erase_counters_ok fs ->
  next_erase_sector fs + remaining_erase_sector fs
  < to_int (to_uint32 (next_write fs + length + FLASH_SECTOR_SIZE - 1)
            / FLASH_SECTOR_SIZE) ->
  handle_flash_data fuel fs w data_buf length = None.
Proof.
  intros Hok Hlt. unfold handle_flash_data.
  now rewrite erase_until_starves.
Qed.


(** ** The end of a deflated stream *)

Lemma deflate_loop_flushes (fuel : nat) :
  forall fs w data_buf length status fs' w' status',
    (status <= TINFL_STATUS_DONE -> next_out fs = 0) ->
    deflate_loop fuel fs w data_buf length status = Some (fs', w', status') ->
    status' <= TINFL_STATUS_DONE -> next_out fs' = 0.
Proof.
  induction fuel as [|fuel IH]; intros fs w data_buf length status
    fs' w' status' Hpre E; cbn [deflate_loop] in E;
    destruct ((0 <? length) && (0 <? remaining fs)
              && (TINFL_STATUS_DONE <? status));
    try discriminate; try (injection E as <- <- <-; exact Hpre).
  destruct (start_next_erase fs w) as [fs1 w1].
  match type of E with
  | (if ?c then _ else _) = _ => destruct c eqn:Cf
  end.
  - match type of E with
    | match ?h with _ => _ end = _ => destruct h as [[fs3 w3]|] eqn:F
    end; [|discriminate].
    eapply IH; [|exact E]. intros _. reflexivity.
  - apply Bool.orb_false_iff in Cf. destruct Cf as [Cf _]. bool_to_prop.
    eapply IH; [|exact E]. intros Hle. lia.
Qed.

(** A loop that ends with the stream complete or in error has, in its
    last iteration, handed the output buffer to [SPIWrite]: the newest
    event is that write, of everything in the buffer up to what the last
    decoder call produced. *)
Lemma deflate_loop_final_flush (fuel : nat) :
  forall fs w data_buf length status fs' w' status',
    deflate_loop fuel fs w data_buf length status = Some (fs', w', status') ->
    TINFL_STATUS_DONE < status -> status' <= TINFL_STATUS_DONE ->
    exists d in_buf in_size obuf pos flags addr w0,
      status'
      = tr_status (tinfl_decompress d in_buf in_size obuf pos
                     (OUT_BUF_SIZE - pos) flags) /\
      out_buf fs'
      = tr_out_buf (tinfl_decompress d in_buf in_size obuf pos
                      (OUT_BUF_SIZE - pos) flags) /\
      next_out fs' = 0 /\
      w' = EvWrite addr (out_buf fs')
             (pos + tr_out_bytes (tinfl_decompress d in_buf in_size obuf pos
                                    (OUT_BUF_SIZE - pos) flags)) :: w0 /\
      next_write fs'
      = to_uint32
          (addr + (pos + tr_out_bytes
                           (tinfl_decompress d in_buf in_size obuf pos
                              (OUT_BUF_SIZE - pos) flags))).
Proof.
  induction fuel as [|fuel IH]; intros fs w data_buf length status
    fs' w' status' E Hs Hd; cbn [deflate_loop] in E;
    destruct ((0 <? length) && (0 <? remaining fs)
              && (TINFL_STATUS_DONE <? status)) eqn:Hc;
    try discriminate;
    try (injection E as <- <- <-; lia).
  pose proof (start_next_erase_frame fs w) as F.
  destruct (start_next_erase fs w) as [fsa wa]. cbn [fst] in F.
  assert (F3 : next_out fs = next_out fsa) by (rewrite F; reflexivity).
  rewrite F3 in E.
  set (flags := if length <? remaining_compressed fs then _ else _) in *.
  clearbody flags.
  set (r := tinfl_decompress _ _ _ _ _ _ _) in *.
  destruct (Z_le_gt_dec (tr_status r) TINFL_STATUS_DONE) as [Hle|Hgt].
  - assert (C : (tr_status r <=? TINFL_STATUS_DONE) = true)
      by (now apply Z.leb_le).
    rewrite C in E. cbn [orb] in E.
    match type of E with
    | match ?h with _ => _ end = _ => destruct h as [[fs3 w3]|] eqn:D
    end; [|discriminate].
    apply handle_flash_data_spec in D.
    destruct D as (fsb & wb & _ & Hw & Hfs).
    cbn [set_inflate next_write next_out out_buf inflator remaining
         in_flash_mode] in Hw, Hfs.
    assert (Hn : (TINFL_STATUS_DONE <? tr_status r) = false)
      by (apply Z.ltb_ge; lia).
    destruct fuel as [|fuel]; cbn [deflate_loop] in E;
      rewrite Hn, andb_false_r in E; injection E as <- <- <-;
      exists (inflator fsa), data_buf, length, (out_buf fsa), (next_out fsa),
        flags, (next_write fsa), wb;
      fold r; rewrite Hfs, Hw;
      cbn [set_next_out set_inflate next_write next_out out_buf inflator
           remaining in_flash_mode]; repeat split.
  - match type of E with
    | (if ?c then _ else _) = _ => destruct c
    end.
    + match type of E with
      | match ?h with _ => _ end = _ => destruct h as [[fs3 w3]|] eqn:D
      end; [|discriminate].
      eapply IH; [exact E|lia|exact Hd].
    + eapply IH; [exact E|lia|exact Hd].
Qed.

(** X: when the inflator ends a deflated packet with the stream complete
    or in error, nothing is left in the output buffer: the newest event of
    the trace is the [SPIWrite] of the output buffer, over everything that
    had been decompressed into it up to what the last decoder call
    produced, [next_write] has moved past it, and the fill position is
    0. *)
Theorem stream_end_flushes_output (fuel : nat) (fs : flash_state)
    (w : spi_trace) (data_buf : list byte) (length : Z)
    (fs1 : flash_state) (w1 : spi_trace) (status : Z)
    (fs' : flash_state) (w' : spi_trace) :
  TINFL_STATUS_DONE < TINFL_STATUS_NEEDS_MORE_INPUT ->
  deflate_loop fuel fs w data_buf length TINFL_STATUS_NEEDS_MORE_INPUT
  = Some (fs1, w1, status) ->
  handle_flash_deflated_data fuel fs w data_buf length = Some (fs', w') ->
  status <= TINFL_STATUS_DONE ->
  next_out fs' = 0 /\
  exists d in_buf in_size obuf pos flags addr w0,
    status
    = tr_status (tinfl_decompress d in_buf in_size obuf pos
                   (OUT_BUF_SIZE - pos) flags) /\
    out_buf fs'
    = tr_out_buf (tinfl_decompress d in_buf in_size obuf pos
                    (OUT_BUF_SIZE - pos) flags) /\
    w' = EvWrite addr (out_buf fs')
           (pos + tr_out_bytes (tinfl_decompress d in_buf in_size obuf pos
                                  (OUT_BUF_SIZE - pos) flags)) :: w0 /\
    next_write fs'
    = to_uint32
        (addr + (pos + tr_out_bytes
                         (tinfl_decompress d in_buf in_size obuf pos
                            (OUT_BUF_SIZE - pos) flags))).
Proof.
  intros Hst L E Hs. unfold handle_flash_deflated_data in E.
  rewrite L in E. injection E as <- <-.
  destruct (deflate_loop_final_flush _ _ _ _ _ _ _ _ _ L Hst Hs)
    as (d & in_buf & in_size & obuf & pos & flags & addr & w0
        & H1 & H2 & H3 & H4 & H5).
  set (fs' := if negb (status =? TINFL_STATUS_DONE) && (remaining _ =? 0)
              then _ else _).
  assert (Hfs : fs' = set_last_error fs1 (last_error fs')).
  { subst fs'.
    repeat match goal with
    | |- context [if ?c then _ else _] => destruct c
    end; now destruct fs1. }
  clearbody fs'. rewrite Hfs.
  cbn [set_last_error next_out out_buf next_write].
  split; [exact H3|].
  exists d, in_buf, in_size, obuf, pos, flags, addr, w0. auto.
Qed.


End SessionFacts.

(** * The simulated target: failing inputs and instances *)

Lemma sim_platform_ok (unlock_result bad_addr : Z) :
  PlatformOk (Sim.platform unlock_result bad_addr).
Proof. split; simpl; lia. Qed.

Lemma sim_eventually_ready (unlock_result bad_addr : Z) :
  @eventually_ready (Sim.platform unlock_result bad_addr).
Proof.
  intros w. destruct w as [|e w]; [exists O; reflexivity|].
  destruct e; try (exists O; reflexivity).
  exists 1%nat. reflexivity.
Qed.

(** The scenario of the specification: three sectors are scheduled, the
    two packets return and bring [next_write] to 10000 and [remaining] to
    0, and end answers [ESP_OK] and closes the session. *)
Example image_session :
  remaining_erase_sector (fst Scenario.image_begun) = 3 /\
  Scenario.returned (Scenario.data Scenario.image_begun [] 9000) = true /\
  Scenario.returned (Scenario.data Scenario.image_first [] 1000) = true /\
  next_write (fst Scenario.image_second) = 10000 /\
  remaining (fst Scenario.image_second) = 0 /\
  erased_sectors (snd Scenario.image_second) = [2; 1; 0] /\
  fst (handle_flash_end (fst Scenario.image_second)) = ESP_OK /\
  in_flash_mode (snd (handle_flash_end (fst Scenario.image_second))) = false.
Proof. vm_compute. repeat split. Qed.

(** Ten sectors from a block boundary: one block of eight sectors, then
    two single sectors, each erase followed by one busy status read. *)
Example block_session :
  Scenario.returned (Scenario.data Scenario.block_begun [] 40960) = true /\
  snd Scenario.block_done
  = [EvWrite 0 [] 40960;
     EvErase SPI_FLASH_SE 36864 9 1; EvReadStatus; EvReadStatus;
     EvErase SPI_FLASH_SE 32768 8 1; EvReadStatus; EvReadStatus;
     EvErase SPI_FLASH_BE 0 0 8; EvReadStatus; EvUnlock] /\
  erased_sectors (snd Scenario.block_done) = [9; 8; 0; 1; 2; 3; 4; 5; 6; 7] /\
  remaining_erase_sector (fst Scenario.block_done) = 0.
Proof. vm_compute. repeat split. Qed.

(** C1, counterexamples.  (a) A session of ten bytes is begun and ended
    with no data sent: the session is active, end answers not-enough-data,
    and the session is still active afterwards.  (b) A deflated session of
    eight bytes receives a complete stream of four, which records
    not-enough-data, and then four raw bytes: the session is active with
    nothing left to write, and end answers not-enough-data all the same.
    (c) In an active state whose stored error is the not-in-flash-mode
    code and with nothing left to write, end answers not-in-flash-mode. *)
Lemma handle_flash_end_counterexamples :
  ~ (in_flash_mode (fst Scenario.short_session) = true ->
     in_flash_mode
       (snd (handle_flash_end (fst Scenario.short_session))) = false) /\
  (Scenario.returned
     (Scenario.deflated_data Scenario.topped_begun [x01; x02; x03; x04] 4)
   = true /\
   Scenario.returned
     (Scenario.data Scenario.topped_inflated [x05; x06; x07; x08] 4) = true /\
   in_flash_mode (fst Scenario.topped_up) = true /\
   ~ (fst (handle_flash_end (fst Scenario.topped_up)) = ESP_NOT_ENOUGH_DATA <->
      0 < remaining (fst Scenario.topped_up))) /\
  ~ (fst (handle_flash_end Scenario.odd_state) = ESP_NOT_IN_FLASH_MODE <->
     in_flash_mode Scenario.odd_state = false).
Proof.
  split; [|split].
  - vm_compute. intros H. specialize (H eq_refl). discriminate.
  - split; [vm_compute; reflexivity|].
    split; [vm_compute; reflexivity|].
    split; [vm_compute; reflexivity|].
    intros [H _].
    assert (X : 0 < remaining (fst Scenario.topped_up))
      by (apply H; vm_compute; reflexivity).
    vm_compute in X. discriminate.
  - intros [H _].
    assert (X : in_flash_mode Scenario.odd_state = false)
      by (apply H; vm_compute; reflexivity).
    vm_compute in X. discriminate.
Qed.

(** C2, the failing input.  [handle_flash_begin 0xFFFFFFFF 0] with 4 KB
    sectors: the size needs 1048576 sectors, the rounding-up addition
    wraps and [remaining_erase_sector] is 0; the other fields are as C2
    says. *)
Theorem begin_huge_size_schedules_no_erase :
  remaining_erase_sector (fst Scenario.huge_session) = 0 /\
  ceil_div 4294967295 (@FLASH_SECTOR_SIZE Sim.good) = 1048576 /\
  next_write (fst Scenario.huge_session) = 0 /\
  next_erase_sector (fst Scenario.huge_session) = 0 /\
  remaining (fst Scenario.huge_session) = 4294967295 /\
  last_error (fst Scenario.huge_session) = ESP_OK /\
  in_flash_mode (fst Scenario.huge_session) = true.
Proof. vm_compute. repeat split. Qed.

(** C8, the failing input.  A deflated session is abandoned with 100
    decompressed bytes waiting in [out_buf]; a new deflated session of four
    bytes is begun at 0x10000 and its four bytes are sent.  After the
    second begin [next_out] is 100, not 0; the one flash write of the new
    session carries the 100 stale bytes before the four new ones, and
    the session ends up with [ESP_NOT_ENOUGH_DATA].  The same session on a
    target fresh from reset writes the four bytes alone and is complete. *)
Theorem deflated_begin_keeps_stale_output :
  next_out (fst Scenario.second_begun) = 100 /\
  Scenario.returned
    (Scenario.deflated_data Scenario.second_begun [x01; x02; x03; x04] 4)
  = true /\
  flash_writes (snd Scenario.second_done)
  = [(65536, Scenario.stale_bytes ++ [x01; x02; x03; x04])] /\
  last_error (fst Scenario.second_done) = ESP_NOT_ENOUGH_DATA /\
  next_out (fst Scenario.fresh_begun) = 0 /\
  Scenario.returned
    (Scenario.deflated_data Scenario.fresh_begun [x01; x02; x03; x04] 4)
  = true /\
  flash_writes (snd Scenario.fresh_done) = [(65536, [x01; x02; x03; x04])] /\
  remaining (fst Scenario.fresh_done) = 0 /\
  fst (handle_flash_end (fst Scenario.fresh_done)) = ESP_OK.
Proof. vm_compute. repeat split. Qed.

(** C10, counterexample.  A session declared empty receives 2^32 bytes in
    two packets, both of which return: strictly more than declared, yet
    [remaining] is 0 after them and end answers [ESP_OK], not
    not-enough-data. *)
Lemma overrun_by_2_32_ends_ok :
  Scenario.returned (Scenario.data Scenario.overrun_begun [] 4294963201)
  = true /\
  Scenario.returned (Scenario.data Scenario.overrun_first [] 4095) = true /\
  ~ (remaining (fst Scenario.overrun_begun) < 4294963201 + 4095 ->
     remaining (fst Scenario.overrun_second) <> 0 /\
     fst (handle_flash_end (fst Scenario.overrun_second))
     = ESP_NOT_ENOUGH_DATA).
Proof.
  split; [vm_compute; reflexivity|]. split; [vm_compute; reflexivity|].
  intros H. destruct H as [H _]; [vm_compute; reflexivity|].
  apply H. vm_compute. reflexivity.
Qed.

(** C3, counterexamples.  (a) A session of ten bytes receives a packet of
    eleven, which returns: [remaining] is 4294967295 afterwards, not the
    old value less eleven.  (b) A session begun at the last byte of the
    address space receives two bytes, and the packet returns:
    [next_write] is 1 afterwards, not the old value plus two.  (c) In a
    session of three sectors whose second packet hit a failing
    [SPIWrite], with one sector still to come: end does not close the
    session with the write failure, it answers not-enough-data and the
    session stays active. *)
Lemma handle_flash_data_counters_wrap :
  (in_flash_mode (fst Scenario.short_session) = true /\
   Scenario.returned (Scenario.data Scenario.short_session [] 11) = true /\
   remaining (fst Scenario.short_overrun) = 4294967295 /\
   ~ (remaining (fst Scenario.short_overrun)
      = remaining (fst Scenario.short_session) - 11)) /\
  (in_flash_mode (fst Scenario.top_begun) = true /\
   Scenario.returned (Scenario.data Scenario.top_begun [] 2) = true /\
   next_write (fst Scenario.top_written) = 1 /\
   ~ (next_write (fst Scenario.top_written)
      = next_write (fst Scenario.top_begun) + 2)) /\
  (Scenario.returned (Scenario.faulty_data Scenario.faulty_first) = true /\
   last_error (fst Scenario.faulty_second) = ESP_FAILED_SPI_OP /\
   remaining (fst Scenario.faulty_second) = 4096 /\
   ~ (fst (handle_flash_end (fst Scenario.faulty_second))
      = ESP_FAILED_SPI_OP /\
      in_flash_mode (snd (handle_flash_end (fst Scenario.faulty_second)))
      = false)).
Proof.
  split; [|split].
  - do 3 (split; [vm_compute; reflexivity|]). vm_compute. discriminate.
  - do 3 (split; [vm_compute; reflexivity|]). vm_compute. discriminate.
  - do 3 (split; [vm_compute; reflexivity|]).
    intros [H _]. vm_compute in H. discriminate.
Qed.

(** C6, counterexample.  An image of 16 MiB and one byte is begun at
    address 0 and one raw packet of that length is handled, which
    returns after erasing sectors 0 to 4096: the erase of sector 4096 is
    sent with the 24-bit address 0, so the flash has erased its sector 0
    twice in that session. *)
Lemma wrapped_erase_address_repeats_sector :
  uint32 16777217 /\ uint32 0 /\
  Scenario.returned
    (@handle_flash_data Sim.good 2000 (fst Scenario.large_begun)
       (snd Scenario.large_begun) [] 16777217) = true /\
  count_occ Z.eq_dec
    (@flash_sectors_erased Sim.good (snd Scenario.large_erased)) 0 = 2%nat /\
  ~ (forall c',
       @session_steps Sim.good
         (snd (fst (@handle_flash_begin Sim.good (fst Scenario.reset)
                      (snd Scenario.reset) 16777217 0)),
          snd (@handle_flash_begin Sim.good (fst Scenario.reset)
                 (snd Scenario.reset) 16777217 0)) c' ->
       exists evs : spi_trace,
         snd c' = evs ++ snd (@handle_flash_begin Sim.good
                                (fst Scenario.reset) (snd Scenario.reset)
                                16777217 0) /\
         NoDup (@flash_sectors_erased Sim.good evs)).
Proof.
  split; [unfold uint32; lia|]. split; [unfold uint32; lia|].
  assert (Hc : count_occ Z.eq_dec
                 (@flash_sectors_erased Sim.good (snd Scenario.large_erased))
                 0 = 2%nat) by (vm_compute; reflexivity).
  assert (Hr : Scenario.returned
                 (@handle_flash_data Sim.good 2000 (fst Scenario.large_begun)
                    (snd Scenario.large_begun) [] 16777217) = true)
    by (vm_compute; reflexivity).
  split; [exact Hr|]. split; [exact Hc|].
  intros H.
  assert (Hsteps :
            @session_steps Sim.good
              (snd (fst (@handle_flash_begin Sim.good (fst Scenario.reset)
                           (snd Scenario.reset) 16777217 0)),
               snd (@handle_flash_begin Sim.good (fst Scenario.reset)
                      (snd Scenario.reset) 16777217 0))
              Scenario.large_erased).
  { unfold Scenario.large_erased.
    destruct (@handle_flash_data Sim.good 2000 (fst Scenario.large_begun)
                (snd Scenario.large_begun) [] 16777217) as [r|] eqn:E;
      [|discriminate Hr].
    cbn [Scenario.result].
    eapply steps_cons; [|apply steps_refl].
    eapply step_data. exact E. }
  destruct (H _ Hsteps) as (evs & Hw & Hnd).
  assert (Hall : @flash_sectors_erased Sim.good evs
                 = @flash_sectors_erased Sim.good
                     (snd Scenario.large_erased)).
  { transitivity
      (@flash_sectors_erased Sim.good
         (evs ++ snd (@handle_flash_begin Sim.good (fst Scenario.reset)
                        (snd Scenario.reset) 16777217 0))).
    - rewrite flash_sectors_erased_app. symmetry. apply app_nil_r.
    - exact (f_equal (@flash_sectors_erased Sim.good) (eq_sym Hw)). }
  rewrite (NoDup_count_occ Z.eq_dec) in Hnd. specialize (Hnd 0).
  rewrite Hall, Hc in Hnd. lia.
Qed.

(** Beyond 16 MiB the erase lands outside the image: a session of one
    sector at 16 MiB erases sector 0 of the flash. *)
Example erase_above_16M_hits_sector_0 :
  Scenario.returned (Scenario.data Scenario.high_begun [] 4096) = true /\
  16777216 / @FLASH_SECTOR_SIZE Sim.good = 4096 /\
  @flash_sectors_erased Sim.good (snd Scenario.high_erased) = [0] /\
  flash_writes (snd Scenario.high_erased) = [(16777216, [])].
Proof. vm_compute. repeat split. Qed.

(** The fault-injection scenario of the specification: the second of
    three packets hits a failing [SPIWrite]; the error is recorded, the
    third packet still advances the counters, and end closes the session
    with [ESP_FAILED_SPI_OP]. *)
Example faulty_session :
  last_error (fst Scenario.faulty_first) = ESP_OK /\
  last_error (fst Scenario.faulty_second) = ESP_FAILED_SPI_OP /\
  Scenario.returned (Scenario.faulty_data Scenario.faulty_second) = true /\
  next_write (fst Scenario.faulty_third) = 12288 /\
  remaining (fst Scenario.faulty_third) = 0 /\
  fst (handle_flash_end (fst Scenario.faulty_third)) = ESP_FAILED_SPI_OP /\
  in_flash_mode (snd (handle_flash_end (fst Scenario.faulty_third))) = false.
Proof. vm_compute. repeat split. Qed.

(** A deflated stream with an invalid byte: the inflator reports an
    error while four bytes are still expected, [ESP_INFLATE_ERROR] is
    recorded and read back by [get_flash_error]. *)
Example corrupt_stream :
  Scenario.returned
    (Scenario.deflated_data Scenario.fresh_begun [x01; xff] 2) = true /\
  remaining (fst Scenario.corrupt_done) = 4 /\
  get_flash_error (fst Scenario.corrupt_done) = ESP_INFLATE_ERROR.
Proof. vm_compute. repeat split. Qed.

(** ** Instances of the theorems *)

(** In a witness, a call of the simulated target that returns is replaced
    by its result. *)
Ltac call_returns X fs w :=
  let Hr := fresh "Hr" in
  let E := fresh "E" in
  assert (Hr : Scenario.returned X = true) by (vm_compute; reflexivity);
  destruct X as [[fs w]|] eqn:E; [clear Hr|discriminate Hr].

Lemma handle_flash_end_spec_witness :
  (in_flash_mode (fst Scenario.short_session) = true /\
   0 < remaining (fst Scenario.short_session) /\
   handle_flash_end (fst Scenario.short_session)
   = (ESP_NOT_ENOUGH_DATA, fst Scenario.short_session)) /\
  (in_flash_mode (fst Scenario.topped_up) = true /\
   remaining (fst Scenario.topped_up) <= 0 /\
   handle_flash_end (fst Scenario.topped_up)
   = (last_error (fst Scenario.topped_up),
      set_in_flash_mode (fst Scenario.topped_up) false)).
Proof.
  assert (A1 : in_flash_mode (fst Scenario.short_session) = true)
    by (vm_compute; reflexivity).
  assert (A2 : 0 < remaining (fst Scenario.short_session))
    by (vm_compute; reflexivity).
  assert (B1 : in_flash_mode (fst Scenario.topped_up) = true)
    by (vm_compute; reflexivity).
  assert (B2 : remaining (fst Scenario.topped_up) <= 0)
    by (vm_compute; discriminate).
  split.
  - split; [exact A1|]. split; [exact A2|].
    exact (proj1 (proj2 (handle_flash_end_spec (fst Scenario.short_session)))
             A1 A2).
  - split; [exact B1|]. split; [exact B2|].
    exact (proj1 (proj2 (proj2
                    (handle_flash_end_spec (fst Scenario.topped_up))))
             B1 B2).
Defined.

Lemma handle_flash_data_accounting_witness :
  in_flash_mode (fst Scenario.faulty_first) = true /\
  exists fs' w',
    @handle_flash_data Scenario.faulty 16 (fst Scenario.faulty_first)
      (snd Scenario.faulty_first) [] 4096 = Some (fs', w') /\
    next_write fs'
    = to_uint32 (next_write (fst Scenario.faulty_first) + 4096) /\
    remaining fs'
    = to_uint32 (remaining (fst Scenario.faulty_first) - 4096) /\
    in_flash_mode fs' = true /\
    last_error fs' = ESP_FAILED_SPI_OP /\
    exists fs'' w'',
      @handle_flash_data_seq Scenario.faulty 16 fs' w' [([], 4096)]
      = Some (fs'', w'') /\
      remaining fs'' = 0 /\
      last_error fs'' = ESP_FAILED_SPI_OP /\
      fst (handle_flash_end fs'') = ESP_FAILED_SPI_OP /\
      in_flash_mode (snd (handle_flash_end fs'')) = false.
Proof.
  assert (H1 : in_flash_mode (fst Scenario.faulty_first) = true)
    by (vm_compute; reflexivity).
  split; [exact H1|].
  assert (Hr : Scenario.returned
                 match @handle_flash_data Scenario.faulty 16
                         (fst Scenario.faulty_first)
                         (snd Scenario.faulty_first) [] 4096 with
                 | Some (fs1, w1) =>
                     @handle_flash_data_seq Scenario.faulty 16 fs1 w1
                       [([], 4096)]
                 | None => None
                 end = true) by (vm_compute; reflexivity).
  destruct (@handle_flash_data Scenario.faulty 16 (fst Scenario.faulty_first)
              (snd Scenario.faulty_first) [] 4096) as [[fs' w']|] eqn:E;
    [|discriminate Hr].
  cbv beta iota in Hr.
  destruct (@handle_flash_data_seq Scenario.faulty 16 fs' w' [([], 4096)])
    as [[fs'' w'']|] eqn:S; [clear Hr|discriminate Hr].
  exists fs', w'. split; [reflexivity|].
  destruct (@handle_flash_data_accounting Scenario.faulty 16
              (fst Scenario.faulty_first) (snd Scenario.faulty_first)
              [] 4096 fs' w' H1 E)
    as (A & B & _ & _ & C & (w1 & _ & Hfail & _) & Hseq).
  assert (Herr : last_error fs' = ESP_FAILED_SPI_OP)
    by (apply Hfail; vm_compute; discriminate).
  destruct (Hseq Herr 16%nat [([], 4096)] fs'' w'' S)
    as (_ & S2 & S3 & _ & S5 & _).
  assert (Hz : remaining fs'' = 0)
    by (rewrite S2, B; vm_compute; reflexivity).
  destruct (S5 Hz) as (_ & T1 & T2 & _).
  do 4 (split; [assumption|]).
  exists fs'', w''. split; [exact S|]. auto.
Defined.

Lemma deflated_data_error_resolution_witness :
  (exists fs' w',
     @handle_flash_deflated_data Sim.good 16 (fst Scenario.fresh_begun)
       (snd Scenario.fresh_begun) [x01; xff] 2 = Some (fs', w') /\
     get_flash_error fs' = ESP_INFLATE_ERROR /\
     handle_flash_end fs' = (ESP_NOT_ENOUGH_DATA, fs')) /\
  (exists fs' w',
     @handle_flash_deflated_data Sim.good 16 (fst Scenario.topped_begun)
       (snd Scenario.topped_begun) [x01; x02; x03; x04] 4 = Some (fs', w') /\
     get_flash_error fs' = ESP_NOT_ENOUGH_DATA /\
     handle_flash_end fs' = (ESP_NOT_ENOUGH_DATA, fs')).
Proof.
  split.
  - call_returns
      (@handle_flash_deflated_data Sim.good 16 (fst Scenario.fresh_begun)
         (snd Scenario.fresh_begun) [x01; xff] 2) fs' w'.
    exists fs', w'. split; [reflexivity|].
    destruct (@deflated_data_error_resolution Sim.good 16
                (fst Scenario.fresh_begun) (snd Scenario.fresh_begun)
                [x01; xff] 2 fs' w' E)
      as (fs1 & status & _ & _ & _ & _ & _ & _ & _ & _ & _ & _ & Hfirst
          & Hend).
    assert (H0 : 0 < 2) by lia.
    assert (H1 : 0 < remaining (fst Scenario.fresh_begun))
      by (vm_compute; reflexivity).
    assert (H2 : @TINFL_STATUS_DONE Sim.good
                 < @TINFL_STATUS_NEEDS_MORE_INPUT Sim.good)
      by (vm_compute; reflexivity).
    specialize (Hfirst H0 H1 H2). cbv zeta in Hfirst.
    match type of Hfirst with
    | ?A -> _ => assert (Hd : A) by (vm_compute; discriminate)
    end.
    destruct (Hfirst Hd) as (Hst & Hrm & Ha & _).
    match type of Ha with
    | ?A -> _ => assert (Hlt : A) by (vm_compute; reflexivity)
    end.
    assert (Hpos : 0 < remaining fs')
      by (rewrite Hrm; vm_compute; reflexivity).
    split; [exact (Ha Hlt Hpos)|].
    assert (Hact : in_flash_mode (fst Scenario.fresh_begun) = true)
      by (vm_compute; reflexivity).
    destruct (Hend Hact) as (He & _).
    rewrite <- Hst in Hlt. exact (proj2 (He Hlt Hpos)).
  - call_returns
      (@handle_flash_deflated_data Sim.good 16 (fst Scenario.topped_begun)
         (snd Scenario.topped_begun) [x01; x02; x03; x04] 4) fs' w'.
    exists fs', w'. split; [reflexivity|].
    destruct (@deflated_data_error_resolution Sim.good 16
                (fst Scenario.topped_begun) (snd Scenario.topped_begun)
                [x01; x02; x03; x04] 4 fs' w' E)
      as (fs1 & status & _ & _ & _ & _ & _ & _ & _ & _ & _ & _ & Hfirst
          & Hend).
    assert (H0 : 0 < 4) by lia.
    assert (H1 : 0 < remaining (fst Scenario.topped_begun))
      by (vm_compute; reflexivity).
    assert (H2 : @TINFL_STATUS_DONE Sim.good
                 < @TINFL_STATUS_NEEDS_MORE_INPUT Sim.good)
      by (vm_compute; reflexivity).
    specialize (Hfirst H0 H1 H2). cbv zeta in Hfirst.
    match type of Hfirst with
    | ?A -> _ => assert (Hd : A) by (vm_compute; discriminate)
    end.
    destruct (Hfirst Hd) as (Hst & Hrm & _ & Hb & _).
    match type of Hb with
    | ?A -> _ => assert (Heq : A) by (vm_compute; reflexivity)
    end.
    assert (Hpos : 0 < remaining fs')
      by (rewrite Hrm; vm_compute; reflexivity).
    split; [exact (Hb Heq Hpos)|].
    assert (Hact : in_flash_mode (fst Scenario.topped_begun) = true)
      by (vm_compute; reflexivity).
    destruct (Hend Hact) as (_ & He & _).
    rewrite <- Hst in Heq. exact (proj2 (He Heq Hpos)).
Defined.

Lemma start_next_erase_spec_witness :
  erase_counters_ok (fst Scenario.image_begun) /\
  remaining_erase_sector (fst Scenario.image_begun) <> 0 /\
  fst (@spiflash_is_ready Sim.good (snd Scenario.image_begun)) = true /\
  next_erase_sector
    (fst (@start_next_erase Sim.good (fst Scenario.image_begun)
            (snd Scenario.image_begun))) = 1 /\
  remaining_erase_sector
    (fst (@start_next_erase Sim.good (fst Scenario.image_begun)
            (snd Scenario.image_begun))) = 2 /\
  in_flash_mode
    (fst (@start_next_erase Sim.good (fst Scenario.image_begun)
            (snd Scenario.image_begun))) = true /\
  snd (@start_next_erase Sim.good (fst Scenario.image_begun)
         (snd Scenario.image_begun))
  = EvErase SPI_FLASH_SE 0 0 1 :: EvReadStatus :: snd Scenario.image_begun.
Proof.
  assert (Hok : erase_counters_ok (fst Scenario.image_begun))
    by (vm_compute; repeat split; discriminate).
  assert (Hrem : remaining_erase_sector (fst Scenario.image_begun) <> 0)
    by (vm_compute; discriminate).
  assert (Hready :
            fst (@spiflash_is_ready Sim.good (snd Scenario.image_begun))
            = true) by (vm_compute; reflexivity).
  split; [exact Hok|]. split; [exact Hrem|]. split; [exact Hready|].
  destruct (@start_next_erase_spec Sim.good (sim_platform_ok 0 (-1))
              (fst Scenario.image_begun) (snd Scenario.image_begun) Hok)
    as (_ & _ & H3).
  destruct (H3 Hrem Hready)
    as (command & n & addr & E & Hbe & _ & Hns & _ & Ha & Hnx & Hrm & Hm & _).
  assert (Hc : command = SPI_FLASH_SE).
  { destruct command; [reflexivity|].
    destruct Hbe as [Hbe _]. destruct (Hbe eq_refl) as [Hle _].
    exfalso. apply Hle. vm_compute. reflexivity. }
  specialize (Hns Hc).
  rewrite Hnx, Hrm, Hm, E, Hc, Hns, Ha.
  repeat split; vm_compute; reflexivity.
Defined.

Lemma flash_sectors_erased_distinct_and_bounded_witness :
  uint32 10000 /\ uint32 0 /\
  (@FLASH_SECTOR_SIZE Sim.good * @SECTORS_PER_BLOCK Sim.good | 2 ^ 24) /\
  remaining_erase_sector
    (snd (fst (@handle_flash_begin Sim.good (fst Scenario.reset)
                 (snd Scenario.reset) 10000 0)))
  * @FLASH_SECTOR_SIZE Sim.good <= 2 ^ 24 /\
  exists fs' w',
    @handle_flash_data Sim.good 16
      (snd (fst (@handle_flash_begin Sim.good (fst Scenario.reset)
                   (snd Scenario.reset) 10000 0)))
      (snd (@handle_flash_begin Sim.good (fst Scenario.reset)
              (snd Scenario.reset) 10000 0)) [] 9000 = Some (fs', w') /\
    @flash_sectors_erased Sim.good w' = [2; 1; 0] /\
    exists evs : spi_trace,
      w' = evs ++ snd (@handle_flash_begin Sim.good (fst Scenario.reset)
                         (snd Scenario.reset) 10000 0) /\
      NoDup (@flash_sectors_erased Sim.good evs) /\
      Forall (fun s => 0 <= s
                       < ceil_div (0 + 10000) (@FLASH_SECTOR_SIZE Sim.good))
        (@flash_sectors_erased Sim.good evs) /\
      (0 + 10000 <= 2 ^ 24 ->
       Forall (fun s => 0 / @FLASH_SECTOR_SIZE Sim.good <= s)
         (@flash_sectors_erased Sim.good evs)).
Proof.
  assert (H1 : uint32 10000) by (unfold uint32; lia).
  assert (H2 : uint32 0) by (unfold uint32; lia).
  assert (H3 : (@FLASH_SECTOR_SIZE Sim.good * @SECTORS_PER_BLOCK Sim.good
                | 2 ^ 24)) by (exists 512; reflexivity).
  assert (H4 : remaining_erase_sector
                 (snd (fst (@handle_flash_begin Sim.good (fst Scenario.reset)
                              (snd Scenario.reset) 10000 0)))
               * @FLASH_SECTOR_SIZE Sim.good <= 2 ^ 24)
    by (vm_compute; discriminate).
  do 4 (split; [assumption|]).
  assert (Hb : match
                 @handle_flash_data Sim.good 16
                   (snd (fst (@handle_flash_begin Sim.good
                                (fst Scenario.reset) (snd Scenario.reset)
                                10000 0)))
                   (snd (@handle_flash_begin Sim.good (fst Scenario.reset)
                           (snd Scenario.reset) 10000 0)) [] 9000
               with
               | Some (_, w1) =>
                   if list_eq_dec Z.eq_dec
                        (@flash_sectors_erased Sim.good w1) [2; 1; 0]
                   then true else false
               | None => false
               end = true) by (vm_compute; reflexivity).
  destruct (@handle_flash_data Sim.good 16
              (snd (fst (@handle_flash_begin Sim.good (fst Scenario.reset)
                           (snd Scenario.reset) 10000 0)))
              (snd (@handle_flash_begin Sim.good (fst Scenario.reset)
                      (snd Scenario.reset) 10000 0)) [] 9000)
    as [[fs' w']|] eqn:E; [|discriminate Hb].
  cbv beta iota in Hb.
  destruct (list_eq_dec Z.eq_dec (@flash_sectors_erased Sim.good w')
              [2; 1; 0]) as [He|]; [clear Hb|discriminate Hb].
  exists fs', w'. split; [reflexivity|]. split; [exact He|].
  apply (@flash_sectors_erased_distinct_and_bounded Sim.good
           (sim_platform_ok 0 (-1)) (fst Scenario.reset) (snd Scenario.reset)
           10000 0 (fs', w') H1 H2 H3 H4).
  eapply steps_cons; [|apply steps_refl].
  eapply step_data. exact E.
Defined.

Lemma unaligned_session_never_catches_up_witness :
  PlatformOk Sim.good /\
  @handle_flash_data Sim.good 1000
    (snd (fst (@handle_flash_begin Sim.good (fst Scenario.reset)
                 (snd Scenario.reset) 2 (@FLASH_SECTOR_SIZE Sim.good - 1))))
    (snd (@handle_flash_begin Sim.good (fst Scenario.reset)
            (snd Scenario.reset) 2 (@FLASH_SECTOR_SIZE Sim.good - 1)))
    [x01; x02] 2
  = None.
Proof.
  split; [exact (sim_platform_ok 0 (-1))|].
  exact (@unaligned_session_never_catches_up Sim.good
           (sim_platform_ok 0 (-1)) (fst Scenario.reset) (snd Scenario.reset)
           [x01; x02] 1000%nat).
Defined.

Lemma last_error_sticky_witness :
  session_steps
    (fst Scenario.faulty_second, snd Scenario.faulty_second)
    (snd (handle_flash_end (fst Scenario.faulty_second)),
     snd Scenario.faulty_second) /\
  last_error (fst Scenario.faulty_second) <> ESP_OK /\
  last_error (snd (handle_flash_end (fst Scenario.faulty_second))) <> ESP_OK.
Proof.
  assert (H1 : session_steps
                 (fst Scenario.faulty_second, snd Scenario.faulty_second)
                 (snd (handle_flash_end (fst Scenario.faulty_second)),
                  snd Scenario.faulty_second))
    by (eapply steps_cons; [apply step_end|apply steps_refl]).
  assert (H2 : last_error (fst Scenario.faulty_second) <> ESP_OK)
    by (vm_compute; discriminate).
  split; [exact H1|]. split; [exact H2|].
  exact (proj1 (@last_error_sticky Scenario.faulty
                  (fst Scenario.faulty_second, snd Scenario.faulty_second)
                  (snd (handle_flash_end (fst Scenario.faulty_second)),
                   snd Scenario.faulty_second) H1 H2)).
Defined.

Lemma remaining_wraps_around_witness :
  uint32 10 /\ uint32 0 /\
  exists fs' w',
    @handle_flash_data_seq Sim.good 16
      (snd (fst (@handle_flash_begin Sim.good (fst Scenario.reset)
                   (snd Scenario.reset) 10 0)))
      (snd (@handle_flash_begin Sim.good (fst Scenario.reset)
              (snd Scenario.reset) 10 0))
      Scenario.excess_chunks
    = Some (fs', w') /\
    remaining fs' = 2 ^ 32 - (total_length Scenario.excess_chunks - 10) /\
    handle_flash_end fs' = (ESP_NOT_ENOUGH_DATA, fs').
Proof.
  assert (H1 : uint32 10) by (unfold uint32; lia).
  assert (H2 : uint32 0) by (unfold uint32; lia).
  split; [exact H1|]. split; [exact H2|].
  call_returns
    (@handle_flash_data_seq Sim.good 16
       (snd (fst (@handle_flash_begin Sim.good (fst Scenario.reset)
                    (snd Scenario.reset) 10 0)))
       (snd (@handle_flash_begin Sim.good (fst Scenario.reset)
               (snd Scenario.reset) 10 0))
       Scenario.excess_chunks) fs' w'.
  exists fs', w'. split; [reflexivity|].
  destruct (@remaining_wraps_around Sim.good (fst Scenario.reset)
              (snd Scenario.reset) 10 0 16 Scenario.excess_chunks fs' w'
              H1 H2 E) as (_ & _ & A & _).
  apply A. vm_compute. split; reflexivity.
Defined.

(** ** Instances of the further properties *)

Lemma sim_decoder_bounded (unlock_result bad_addr : Z) :
  @decoder_bounded (Sim.platform unlock_result bad_addr).
Proof.
  unfold decoder_bounded. intros d in_buf in_size obuf out_pos out_size flags
    Hin Hout.
  change (@tinfl_decompress (Sim.platform unlock_result bad_addr))
    with Sim.decompress.
  unfold Sim.decompress.
  destruct (existsb (Byte.eqb xff) (firstn (Z.to_nat in_size) in_buf));
    cbn [tr_in_bytes tr_out_bytes]; [lia|].
  pose proof (firstn_le_length (Z.to_nat in_size) in_buf) as Hl.
  lia.
Qed.



Local Abbreviation begun_state t o :=
  (snd (fst (@handle_flash_begin Sim.good (fst Scenario.reset)
               (snd Scenario.reset) t o))) (only parsing).
Local Abbreviation begun_trace t o :=
  (snd (@handle_flash_begin Sim.good (fst Scenario.reset)
          (snd Scenario.reset) t o)) (only parsing).

Lemma handle_flash_begin_spec_witness :
  uint32 0 /\ 0 <= 10000 /\
  10000 + @FLASH_SECTOR_SIZE Sim.good - 1 < 2 ^ 32 /\
  let '(err, fs', w') :=
    @handle_flash_begin Sim.good (fst Scenario.reset) (snd Scenario.reset)
      10000 0 in
  next_write fs' = 0 /\
  next_erase_sector fs' = 0 / @FLASH_SECTOR_SIZE Sim.good /\
  remaining fs' = 10000 /\
  remaining_erase_sector fs' = ceil_div 10000 (@FLASH_SECTOR_SIZE Sim.good) /\
  last_error fs' = ESP_OK /\
  in_flash_mode fs' = true /\
  (@SPIUnlock Sim.good (snd Scenario.reset) <> 0 ->
   err = ESP_FAILED_SPI_UNLOCK) /\
  (@SPIUnlock Sim.good (snd Scenario.reset) = 0 -> err = ESP_OK).
Proof.
  assert (H1 : uint32 0) by (unfold uint32; lia).
  assert (H2 : 0 <= 10000) by lia.
  assert (H3 : 10000 + @FLASH_SECTOR_SIZE Sim.good - 1 < 2 ^ 32)
    by (vm_compute; reflexivity).
  split; [exact H1|]. split; [exact H2|]. split; [exact H3|].
  exact (@handle_flash_begin_spec Sim.good (sim_platform_ok 0 (-1))
           (fst Scenario.reset) (snd Scenario.reset) 10000 0 H1 H2 H3).
Defined.

Lemma begin_erase_count_wraps_witness :
  2 ^ 32 - @FLASH_SECTOR_SIZE Sim.good < 4294967295 < 2 ^ 32 /\
  remaining_erase_sector (begun_state 4294967295 0) = 0 /\
  0 < ceil_div 4294967295 (@FLASH_SECTOR_SIZE Sim.good).
Proof.
  assert (H : 2 ^ 32 - @FLASH_SECTOR_SIZE Sim.good < 4294967295 < 2 ^ 32)
    by (split; vm_compute; reflexivity).
  split; [exact H|].
  exact (@begin_erase_count_wraps Sim.good (sim_platform_ok 0 (-1))
           (fst Scenario.reset) (snd Scenario.reset) 4294967295 0 H).
Defined.

Lemma handle_flash_data_catches_up_witness :
  @eventually_ready Sim.good /\
  erase_counters_ok (begun_state 10000 0) /\
  to_int (to_uint32 (next_write (begun_state 10000 0) + 9000
                     + @FLASH_SECTOR_SIZE Sim.good - 1)
          / @FLASH_SECTOR_SIZE Sim.good)
  <= next_erase_sector (begun_state 10000 0)
     + remaining_erase_sector (begun_state 10000 0) /\
  exists fuel fs' w',
    @handle_flash_data Sim.good fuel (begun_state 10000 0)
      (begun_trace 10000 0) [] 9000 = Some (fs', w') /\
    to_int (to_uint32 (next_write (begun_state 10000 0) + 9000
                       + @FLASH_SECTOR_SIZE Sim.good - 1)
            / @FLASH_SECTOR_SIZE Sim.good)
    <= next_erase_sector fs' /\
    next_erase_sector fs' + remaining_erase_sector fs'
    = next_erase_sector (begun_state 10000 0)
      + remaining_erase_sector (begun_state 10000 0).
Proof.
  assert (H1 : @eventually_ready Sim.good)
    by (exact (sim_eventually_ready 0 (-1))).
  assert (H2 : erase_counters_ok (begun_state 10000 0))
    by (vm_compute; repeat split; discriminate).
  assert (H3 : to_int (to_uint32 (next_write (begun_state 10000 0) + 9000
                                  + @FLASH_SECTOR_SIZE Sim.good - 1)
                       / @FLASH_SECTOR_SIZE Sim.good)
               <= next_erase_sector (begun_state 10000 0)
                  + remaining_erase_sector (begun_state 10000 0))
    by (vm_compute; discriminate).
  split; [exact H1|]. split; [exact H2|]. split; [exact H3|].
  exact (@handle_flash_data_catches_up Sim.good (sim_platform_ok 0 (-1))
           (begun_state 10000 0) (begun_trace 10000 0) [] 9000 H1 H2 H3).
Defined.

Lemma handle_flash_data_starves_witness :
  erase_counters_ok (begun_state 4294967295 0) /\
  next_erase_sector (begun_state 4294967295 0)
  + remaining_erase_sector (begun_state 4294967295 0)
  < to_int (to_uint32 (next_write (begun_state 4294967295 0) + 1
                       + @FLASH_SECTOR_SIZE Sim.good - 1)
            / @FLASH_SECTOR_SIZE Sim.good) /\
  @handle_flash_data Sim.good 100 (begun_state 4294967295 0)
    (begun_trace 4294967295 0) [x01] 1 = None.
Proof.
  assert (H1 : erase_counters_ok (begun_state 4294967295 0))
    by (vm_compute; repeat split; discriminate).
  assert (H2 : next_erase_sector (begun_state 4294967295 0)
               + remaining_erase_sector (begun_state 4294967295 0)
               < to_int (to_uint32 (next_write (begun_state 4294967295 0) + 1
                                    + @FLASH_SECTOR_SIZE Sim.good - 1)
                         / @FLASH_SECTOR_SIZE Sim.good))
    by (vm_compute; reflexivity).
  split; [exact H1|]. split; [exact H2|].
  exact (@handle_flash_data_starves Sim.good (sim_platform_ok 0 (-1)) 100
           (begun_state 4294967295 0) (begun_trace 4294967295 0) [x01] 1
           H1 H2).
Defined.


Lemma writes_land_on_erased_sectors_witness :
  uint32 10000 /\ uint32 0 /\ 0 + 10000 <= 2 ^ 24 /\
  exists fs' w',
    @handle_flash_data Sim.good 16 (begun_state 10000 0)
      (begun_trace 10000 0) [] 9000 = Some (fs', w') /\
    exists evs : spi_trace,
      snd (fs', w') = evs ++ begun_trace 10000 0 /\
      @writes_after_flash_erase Sim.good (0 / @FLASH_SECTOR_SIZE Sim.good)
        evs.
Proof.
  assert (H1 : uint32 10000) by (unfold uint32; lia).
  assert (H2 : uint32 0) by (unfold uint32; lia).
  assert (H3 : 0 + 10000 <= 2 ^ 24) by lia.
  split; [exact H1|]. split; [exact H2|]. split; [exact H3|].
  call_returns
    (@handle_flash_data Sim.good 16 (begun_state 10000 0)
       (begun_trace 10000 0) [] 9000) fs' w'.
  exists fs', w'. split; [reflexivity|].
  apply (@writes_land_on_erased_sectors Sim.good (sim_platform_ok 0 (-1))
           (fst Scenario.reset) (snd Scenario.reset) 10000 0 (fs', w')
           H1 H2 H3).
  eapply steps_cons; [eapply step_data; exact E|apply steps_refl].
Defined.

Lemma writes_are_contiguous_witness :
  exists fs' w',
    @handle_flash_data Sim.good 16 (begun_state 10000 0)
      (begun_trace 10000 0) [] 9000 = Some (fs', w') /\
    exists evs : spi_trace,
      snd (fs', w') = evs ++ begun_trace 10000 0 /\
      contiguous_from 0 (write_log evs) /\
      chain_end 0 (write_log evs) = next_write (fst (fs', w')).
Proof.
  call_returns
    (@handle_flash_data Sim.good 16 (begun_state 10000 0)
       (begun_trace 10000 0) [] 9000) fs' w'.
  exists fs', w'. split; [reflexivity|].
  apply (@writes_are_contiguous Sim.good (fst Scenario.reset)
           (snd Scenario.reset) 10000 0 (fs', w')).
  eapply steps_cons; [eapply step_data; exact E|apply steps_refl].
Defined.

Lemma write_cursor_plus_remaining_constant_witness :
  exists fs' w',
    @handle_flash_data Sim.good 16 (begun_state 10000 0)
      (begun_trace 10000 0) [] 9000 = Some (fs', w') /\
    to_uint32 (next_write (fst (fs', w')) + remaining (fst (fs', w')))
    = to_uint32
        (next_write (fst (begun_state 10000 0, begun_trace 10000 0))
         + remaining (fst (begun_state 10000 0, begun_trace 10000 0))).
Proof.
  call_returns
    (@handle_flash_data Sim.good 16 (begun_state 10000 0)
       (begun_trace 10000 0) [] 9000) fs' w'.
  exists fs', w'. split; [reflexivity|].
  apply (@write_cursor_plus_remaining_constant Sim.good
           (begun_state 10000 0, begun_trace 10000 0) (fs', w')).
  eapply steps_cons; [eapply step_data; exact E|apply steps_refl].
Defined.

Lemma closed_session_stays_closed_witness :
  in_flash_mode (fst (fst Scenario.reset, snd Scenario.reset)) = false /\
  in_flash_mode
    (fst (@start_next_erase Sim.good (fst Scenario.reset)
            (snd Scenario.reset))) = false /\
  handle_flash_end
    (fst (@start_next_erase Sim.good (fst Scenario.reset)
            (snd Scenario.reset)))
  = (ESP_NOT_IN_FLASH_MODE,
     fst (@start_next_erase Sim.good (fst Scenario.reset)
            (snd Scenario.reset))).
Proof.
  assert (H : in_flash_mode (fst (fst Scenario.reset, snd Scenario.reset))
              = false) by (vm_compute; reflexivity).
  split; [exact H|].
  apply (@closed_session_stays_closed Sim.good
           (fst Scenario.reset, snd Scenario.reset)
           (@start_next_erase Sim.good (fst Scenario.reset)
              (snd Scenario.reset))); [|exact H].
  eapply steps_cons; [apply step_erase|apply steps_refl].
Defined.

Lemma erase_cursor_monotone_witness :
  erase_counters_ok (fst (begun_state 10000 0, begun_trace 10000 0)) /\
  next_erase_sector (fst (begun_state 10000 0, begun_trace 10000 0))
  <= next_erase_sector
       (fst (@start_next_erase Sim.good (begun_state 10000 0)
               (begun_trace 10000 0))) /\
  remaining_erase_sector
    (fst (@start_next_erase Sim.good (begun_state 10000 0)
            (begun_trace 10000 0)))
  <= remaining_erase_sector
       (fst (begun_state 10000 0, begun_trace 10000 0)) /\
  next_erase_sector
    (fst (@start_next_erase Sim.good (begun_state 10000 0)
            (begun_trace 10000 0)))
  + remaining_erase_sector
      (fst (@start_next_erase Sim.good (begun_state 10000 0)
              (begun_trace 10000 0)))
  = next_erase_sector (fst (begun_state 10000 0, begun_trace 10000 0))
    + remaining_erase_sector
        (fst (begun_state 10000 0, begun_trace 10000 0)) /\
  erase_counters_ok
    (fst (@start_next_erase Sim.good (begun_state 10000 0)
            (begun_trace 10000 0))).
Proof.
  assert (H : erase_counters_ok
                (fst (begun_state 10000 0, begun_trace 10000 0)))
    by (vm_compute; repeat split; discriminate).
  split; [exact H|].
  apply (@erase_cursor_monotone Sim.good (sim_platform_ok 0 (-1))
           (begun_state 10000 0, begun_trace 10000 0)
           (@start_next_erase Sim.good (begun_state 10000 0)
              (begun_trace 10000 0))); [|exact H].
  eapply steps_cons; [apply step_erase|apply steps_refl].
Defined.

Lemma no_erase_once_exhausted_witness :
  remaining_erase_sector (fst (fst Scenario.reset, snd Scenario.reset)) = 0 /\
  remaining_erase_sector
    (fst (@start_next_erase Sim.good (fst Scenario.reset)
            (snd Scenario.reset))) = 0 /\
  next_erase_sector
    (fst (@start_next_erase Sim.good (fst Scenario.reset)
            (snd Scenario.reset)))
  = next_erase_sector (fst (fst Scenario.reset, snd Scenario.reset)) /\
  erased_sectors
    (snd (@start_next_erase Sim.good (fst Scenario.reset)
            (snd Scenario.reset)))
  = erased_sectors (snd (fst Scenario.reset, snd Scenario.reset)).
Proof.
  assert (H : remaining_erase_sector
                (fst (fst Scenario.reset, snd Scenario.reset)) = 0)
    by (vm_compute; reflexivity).
  split; [exact H|].
  apply (@no_erase_once_exhausted Sim.good
           (fst Scenario.reset, snd Scenario.reset)
           (@start_next_erase Sim.good (fst Scenario.reset)
              (snd Scenario.reset))); [|exact H].
  eapply steps_cons; [apply step_erase|apply steps_refl].
Defined.

Lemma session_never_unlocks_witness :
  exists fs' w',
    @handle_flash_data Sim.good 16 (begun_state 10000 0)
      (begun_trace 10000 0) [] 9000 = Some (fs', w') /\
    exists evs,
      snd (fs', w') = evs ++ snd (begun_state 10000 0, begun_trace 10000 0) /\
      ~ In EvUnlock evs.
Proof.
  call_returns
    (@handle_flash_data Sim.good 16 (begun_state 10000 0)
       (begun_trace 10000 0) [] 9000) fs' w'.
  exists fs', w'. split; [reflexivity|].
  apply (@session_never_unlocks Sim.good
           (begun_state 10000 0, begun_trace 10000 0) (fs', w')).
  eapply steps_cons; [eapply step_data; exact E|apply steps_refl].
Defined.


Lemma deflated_data_respects_buffers_witness :
  @decoder_bounded Sim.good /\
  uint32 4 /\
  uint32 (remaining_compressed (fst Scenario.second_begun)) /\
  0 <= next_out (fst Scenario.second_begun) < OUT_BUF_SIZE /\
  exists fs' w',
    @handle_flash_deflated_data Sim.good 16 (fst Scenario.second_begun)
      (snd Scenario.second_begun) [x01; x02; x03; x04] 4 = Some (fs', w') /\
    0 <= next_out fs' < OUT_BUF_SIZE /\
    (exists evs,
       w' = evs ++ snd Scenario.second_begun /\
       Forall (fun al => 0 <= snd al <= OUT_BUF_SIZE) (write_log evs)) /\
    (exists consumed,
       0 <= consumed <= 4 /\
       remaining_compressed fs'
       = to_uint32
           (remaining_compressed (fst Scenario.second_begun) - consumed)).
Proof.
  assert (H1 : @decoder_bounded Sim.good)
    by (exact (sim_decoder_bounded 0 (-1))).
  assert (H2 : uint32 4) by (unfold uint32; lia).
  assert (H3 : uint32 (remaining_compressed (fst Scenario.second_begun)))
    by (vm_compute; split; [discriminate|reflexivity]).
  assert (H4 : 0 <= next_out (fst Scenario.second_begun) < OUT_BUF_SIZE)
    by (vm_compute; split; [discriminate|reflexivity]).
  split; [exact H1|]. split; [exact H2|]. split; [exact H3|].
  split; [exact H4|].
  call_returns
    (@handle_flash_deflated_data Sim.good 16 (fst Scenario.second_begun)
       (snd Scenario.second_begun) [x01; x02; x03; x04] 4) fs' w'.
  exists fs', w'. split; [reflexivity|].
  exact (@deflated_data_respects_buffers Sim.good 16
           (fst Scenario.second_begun) (snd Scenario.second_begun)
           [x01; x02; x03; x04] 4 fs' w' H1 H2 H3 H4 E).
Defined.

Lemma erased_sectors_are_cursor_range_witness :
  uint32 10000 /\ uint32 0 /\ 0 + 10000 <= 2 ^ 24 /\
  exists fs' w',
    @handle_flash_data Sim.good 16 (begun_state 10000 0)
      (begun_trace 10000 0) [] 9000 = Some (fs', w') /\
    exists evs : spi_trace,
      snd (fs', w') = evs ++ begun_trace 10000 0 /\
      NoDup (@flash_sectors_erased Sim.good evs) /\
      forall s,
        In s (@flash_sectors_erased Sim.good evs) <->
        0 / @FLASH_SECTOR_SIZE Sim.good <= s
        < next_erase_sector (fst (fs', w')).
Proof.
  assert (H1 : uint32 10000) by (unfold uint32; lia).
  assert (H2 : uint32 0) by (unfold uint32; lia).
  assert (H3 : 0 + 10000 <= 2 ^ 24) by lia.
  split; [exact H1|]. split; [exact H2|]. split; [exact H3|].
  call_returns
    (@handle_flash_data Sim.good 16 (begun_state 10000 0)
       (begun_trace 10000 0) [] 9000) fs' w'.
  exists fs', w'. split; [reflexivity|].
  apply (@erased_sectors_are_cursor_range Sim.good (sim_platform_ok 0 (-1))
           (fst Scenario.reset) (snd Scenario.reset) 10000 0 (fs', w')
           H1 H2 H3).
  eapply steps_cons; [eapply step_data; exact E|apply steps_refl].
Defined.

Lemma stream_end_flushes_output_witness :
  @TINFL_STATUS_DONE Sim.good < @TINFL_STATUS_NEEDS_MORE_INPUT Sim.good /\
  exists fs1 w1 status fs' w',
    @deflate_loop Sim.good 16 (fst Scenario.second_begun)
      (snd Scenario.second_begun) [x01; x02; x03; x04] 4
      (@TINFL_STATUS_NEEDS_MORE_INPUT Sim.good)
    = Some (fs1, w1, status) /\
    @handle_flash_deflated_data Sim.good 16 (fst Scenario.second_begun)
      (snd Scenario.second_begun) [x01; x02; x03; x04] 4 = Some (fs', w') /\
    status <= @TINFL_STATUS_DONE Sim.good /\
    next_out (fst Scenario.second_begun) = 100 /\
    next_out fs' = 0 /\
    exists addr w0 n,
      w' = EvWrite addr (out_buf fs') n :: w0 /\
      next_write fs' = to_uint32 (addr + n) /\
      next_write fs' = 65536 + 104.
Proof.
  assert (H : @TINFL_STATUS_DONE Sim.good
              < @TINFL_STATUS_NEEDS_MORE_INPUT Sim.good)
    by (vm_compute; reflexivity).
  split; [exact H|].
  assert (Hb : match
                 @deflate_loop Sim.good 16 (fst Scenario.second_begun)
                   (snd Scenario.second_begun) [x01; x02; x03; x04] 4
                   (@TINFL_STATUS_NEEDS_MORE_INPUT Sim.good)
               with
               | Some (_, _, st) => st <=? @TINFL_STATUS_DONE Sim.good
               | None => false
               end = true) by (vm_compute; reflexivity).
  assert (Hn : match
                 @handle_flash_deflated_data Sim.good 16
                   (fst Scenario.second_begun) (snd Scenario.second_begun)
                   [x01; x02; x03; x04] 4
               with
               | Some (fs2, _) => next_write fs2 =? 65536 + 104
               | None => false
               end = true) by (vm_compute; reflexivity).
  destruct (@deflate_loop Sim.good 16 (fst Scenario.second_begun)
              (snd Scenario.second_begun) [x01; x02; x03; x04] 4
              (@TINFL_STATUS_NEEDS_MORE_INPUT Sim.good))
    as [[[fs1 w1] status]|] eqn:L; [|discriminate Hb].
  apply Z.leb_le in Hb.
  destruct (@handle_flash_deflated_data Sim.good 16
              (fst Scenario.second_begun) (snd Scenario.second_begun)
              [x01; x02; x03; x04] 4) as [[fs' w']|] eqn:E;
    [|discriminate Hn].
  apply Z.eqb_eq in Hn.
  exists fs1, w1, status, fs', w'.
  split; [reflexivity|]. split; [reflexivity|]. split; [exact Hb|].
  split; [vm_compute; reflexivity|].
  destruct (@stream_end_flushes_output Sim.good 16
              (fst Scenario.second_begun) (snd Scenario.second_begun)
              [x01; x02; x03; x04] 4 fs1 w1 status fs' w' H L E Hb)
    as (H0 & d & in_buf & in_size & obuf & pos & flags & addr & w0
        & _ & _ & Hw & Hnw).
  split; [exact H0|].
  exists addr, w0. eexists. split; [exact Hw|]. split; [exact Hnw|exact Hn].
Defined.

